(** * media-consumption: history aggregation, client cache, ranking editor
      and ranking endpoints, embedded from the JavaScript sources.

    Source files embedded here:
    - [src/components/MoviesView.jsx]      (movie aggregation, top 3)
    - [TVShowsView.jsx] (unnamed part 004) (episode grouping, title merge,
      the cached list, top 3)
    - [src/components/ComicBooksView.jsx]  (top 3 for comics), and the
      revision of that view stored as the second document of
      [src/components/MoviesView.jsx]
    - [utils/cache.js] (unnamed part 005)  (two-tier DataCache)
    - [server.js] (unnamed part 001)       (ranking endpoints, the
      revision that knows the content type ['comics'])
    - [src/components/AdminRankingTab.jsx] (ranking editor)
    - [src/components/MoviesView.jsx], [TVShowsView.jsx]: year tabs, year
      statistics and tab selection; [src/components/ComicBooksView.jsx]:
      one entry per series; [src/components/MovieList.jsx]: card order
    - [src/components/RankingTab.jsx]      (endpoint and file names)
    - [server.js] (unnamed part 001)       (poster and history proxies)
    - the data fetch script (unnamed part 000) (poster downloads)
    - [config.js] (unnamed part 003)       (static data path)

    Conventions.  JavaScript numbers that the embedded code only ever uses
    as integers (Unix timestamps, years, counts) are [Z]; where the source
    can produce [NaN] (an Invalid Date, [parseInt] of a non-number) the
    type is [num], integers plus [NaN].  Host built-ins whose result
    depends on the browser (local calendar year of an instant, [Date]
    parsing of a string, [Number] coercion of a string, lower-casing and
    trimming of a string) are Section variables. *)

From Stdlib Require Import ZArith Lia.
From stdpp Require Import base decidable option list gmap strings sorting.
From stdpp Require Import pretty.

Local Open Scope Z_scope.

(** ** JavaScript values used by the embedded code *)

Module Js.

(** Numbers: integers plus [NaN]. *)
Inductive num : Type :=
| NaN
| Int (z : Z).

#[global] Instance num_eq_dec : EqDecision num.
Proof. solve_decision. Defined.

(** [a === b] on numbers: [NaN] is different from everything. *)
Definition strict_eq (a b : num) : bool :=
  match a, b with
  | Int x, Int y => bool_decide (x = y)
  | _, _ => false
  end.

(** [a < b] and [a > b]: any comparison with [NaN] is false. *)
Definition lt (a b : num) : bool :=
  match a, b with
  | Int x, Int y => bool_decide (x < y)
  | _, _ => false
  end.

Definition gt (a b : num) : bool := lt b a.

(** [a - b]. *)
Definition sub (a b : num) : num :=
  match a, b with
  | Int x, Int y => Int (x - y)
  | _, _ => NaN
  end.

(** Truthiness of a number: [0] and [NaN] are falsy. *)
Definition truthy (a : num) : bool :=
  match a with
  | Int z => negb (bool_decide (z = 0))
  | NaN => false
  end.

(** The result of [Map.prototype.get] on a map of numbers: [None] is
    [undefined]. *)
Definition truthy_opt (a : option num) : bool :=
  match a with
  | Some n => truthy n
  | None => false
  end.

(** [lookup === target] where the left side may be [undefined]. *)
Definition strict_eq_opt (a : option num) (b : num) : bool :=
  match a with
  | Some n => strict_eq n b
  | None => false
  end.

(** Identities ([rating_key], [seriesId]) as they come out of JSON:
    a number, a string, [null], or an absent field. *)
Inductive key : Type :=
| KUndefined
| KNull
| KNum (n : Z)
| KStr (s : string).

#[global] Instance key_eq_dec : EqDecision key.
Proof. solve_decision. Defined.

Definition key_code (k : key) : unit + unit + Z + string :=
  match k with
  | KUndefined => inl (inl (inl tt))
  | KNull => inl (inl (inr tt))
  | KNum n => inl (inr n)
  | KStr s => inr s
  end.

Definition key_decode (c : unit + unit + Z + string) : key :=
  match c with
  | inl (inl (inl _)) => KUndefined
  | inl (inl (inr _)) => KNull
  | inl (inr n) => KNum n
  | inr s => KStr s
  end.

#[global] Instance key_countable : Countable key.
Proof.
  apply (inj_countable' key_code key_decode).
  by intros [].
Defined.

(** Truthiness of an identity: [undefined], [null], [0] and the empty
    string are falsy. *)
Definition key_truthy (k : key) : bool :=
  match k with
  | KUndefined | KNull => false
  | KNum n => negb (bool_decide (n = 0))
  | KStr s => negb (bool_decide (s = EmptyString))
  end.

(** [a || b] on identities. *)
Definition key_or (a b : key) : key := if key_truthy a then a else b.

(** A [Date] object: a time value in milliseconds, or an Invalid Date. *)
Inductive date : Type :=
| InvalidDate
| Instant (ms : Z).

#[global] Instance date_eq_dec : EqDecision date.
Proof. solve_decision. Defined.

(** [new Date(ms)]: time values beyond +-8.64e15 give an Invalid Date. *)
Definition new_Date (ms : Z) : date :=
  if bool_decide (Z.abs ms <= 8640000000000000) then Instant ms
  else InvalidDate.

(** The number a [Date] coerces to in [a - b], [a < b], [a > b]. *)
Definition valueOf (d : date) : num :=
  match d with
  | InvalidDate => NaN
  | Instant ms => Int ms
  end.

(** [Array.prototype.sort(cmp)] as a stable insertion sort.  [cmp a b]
    positive moves [b] before [a]; negative, zero and [NaN] keep the
    order.  For a comparator that is a consistent ordering every stable
    sort returns this list. *)
Definition positive_result (r : num) : bool :=
  match r with
  | Int z => bool_decide (0 < z)
  | NaN => false
  end.

Fixpoint sort_insert {A : Type} (cmp : A → A → num) (x : A) (l : list A)
  : list A :=
  match l with
  | [] => [x]
  | y :: l' =>
      if positive_result (cmp x y) then y :: sort_insert cmp x l'
      else x :: y :: l'
  end.

Definition sort {A : Type} (cmp : A → A → num) (l : list A) : list A :=
  foldr (sort_insert cmp) [] l.

(** [a * b]. *)
Definition mul (a b : num) : num :=
  match a, b with
  | Int x, Int y => Int (x * y)
  | _, _ => NaN
  end.

(** [new Date(n)] for a number that may be [NaN]. *)
Definition new_Date_num (n : num) : date :=
  match n with
  | Int ms => new_Date ms
  | NaN => InvalidDate
  end.

(** A string-valued field under [||]: absent and empty are falsy. *)
Definition str_or (a : option string) (b : string) : string :=
  match a with
  | Some EmptyString | None => b
  | Some s => s
  end.

(** The [date] field of a raw history record, by [typeof].  [DateOther]
    stands for every value that is neither a number nor a string ([null],
    an absent field, a boolean, an object) and carries the number that
    value coerces to in arithmetic ([null] gives 0, an absent field gives
    [NaN]). *)
Inductive DateField : Type :=
| DateNumber (n : Z)
| DateString (s : string)
| DateOther (coerced : num).

#[global] Instance DateField_eq_dec : EqDecision DateField.
Proof. solve_decision. Defined.

(** Host built-ins, passed explicitly:
    - [localFullYear]: [Date.prototype.getFullYear] of a valid time value,
      the calendar year in the browser's local time zone;
    - [dateParse]: [Date.parse] of a string, [None] when it is no date;
    - [stringToNumber]: [Number(s)], the coercion of a string in
      arithmetic. *)
Definition getFullYear (localFullYear : Z → Z) (d : date) : num :=
  match d with
  | InvalidDate => NaN
  | Instant ms => Int (localFullYear ms)
  end.

Definition new_Date_string (dateParse : string → option Z) (s : string)
  : date :=
  match dateParse s with
  | Some ms => new_Date ms
  | None => InvalidDate
  end.

Definition dateToNumber (stringToNumber : string → num) (d : DateField)
  : num :=
  match d with
  | DateNumber n => Int n
  | DateString s => stringToNumber s
  | DateOther c => c
  end.

(** The block repeated in the three views:
    [if (typeof x.date === 'number') watchDate = new Date(x.date * 1000);
     else if (typeof x.date === 'string') watchDate = new Date(x.date);
     else watchDate = new Date();]
    where [now] is the clock reading taken by [new Date()]. *)
Definition watchDateOf (dateParse : string → option Z) (now : Z)
    (d : DateField) : date :=
  match d with
  | DateNumber n => new_Date (n * 1000)
  | DateString s => new_Date_string dateParse s
  | DateOther _ => Instant now
  end.

End Js.

(** UTC calendar year of an instant given in milliseconds since the epoch
    (proleptic Gregorian calendar): [Date.prototype.getFullYear] on a host
    whose time zone is UTC.  Used to run the model on concrete inputs. *)
Definition utcFullYear (ms : Z) : Z :=
  let days := ms `div` 86400000 in
  let z := days + 719468 in
  let era := z `div` 146097 in
  let doe := z - era * 146097 in
  let yoe := (doe - doe `div` 1460 + doe `div` 36524 - doe `div` 146096) `div` 365 in
  let doy := doe - (365 * yoe + yoe `div` 4 - yoe `div` 100) in
  let mp := (5 * doy + 2) `div` 153 in
  let m := if bool_decide (mp < 10) then mp + 3 else mp - 9 in
  yoe + era * 400 + (if bool_decide (m <= 2) then 1 else 0).

(** ** Ranking entries (shared by the three views and the editor) *)

(** One entry of a ranking list: [{ rating_key, title, poster?, thumb?,
    year? }].  Only the identity and the title take part in the embedded
    logic. *)
Record RankingEntry : Type := mkRankingEntry {
  r_rating_key : Js.key;
  r_title : string;
}.

#[global] Instance RankingEntry_eq_dec : EqDecision RankingEntry.
Proof. solve_decision. Defined.

(** The [year] argument of the per-year helpers: the literal ['current']
    or a tab name already passed through [parseInt] ([NaN] when the tab
    name is not a number). *)
Inductive Tab : Type :=
| TabCurrent
| TabYear (parsed : Js.num).

(** [year === 'current' ? new Date().getFullYear() : parseInt(year)]. *)
Definition targetYear (currentYear : Z) (tab : Tab) : Js.num :=
  match tab with
  | TabCurrent => Js.Int currentYear
  | TabYear parsed => parsed
  end.

(** ** MoviesView.jsx *)

Module Movies.

(** A raw record of [movies.json]. *)
Record Movie : Type := mkMovie {
  date : Js.DateField;
  title : option string;
  rating_key : Js.key;
  duration : Z;
}.

(** An element of [processedMovies] / [allWatchData]: the raw record
    spread, plus [watchDate], [year] and the defaulted [title] (the poster
    fields are presentation only and left out).  [watchDate] is optional
    because [getTop3ForYear] tests it before use. *)
Record ProcessedMovie : Type := mkProcessedMovie {
  raw : Movie;
  watchDate : option Js.date;
  year : Js.num;
  p_title : string;
}.

Section Host.

Variable localFullYear : Z → Z.
Variable dateParse : string → option Z.
Variable stringToNumber : string → Js.num.

(** The callback of [movieData.map(...)] (lines 186-222). *)
Definition processMovie (now : Z) (movie : Movie) : ProcessedMovie :=
  let watchDate := Js.watchDateOf dateParse now (date movie) in
  {| raw := movie;
     watchDate := Some watchDate;
     year := Js.getFullYear localFullYear watchDate;
     p_title := Js.str_or (title movie) "Unknown" |}.

(** The comparator [(a, b) => b.date - a.date]. *)
Definition byDateDesc (a b : ProcessedMovie) : Js.num :=
  Js.sub (Js.dateToNumber stringToNumber (date (raw b)))
         (Js.dateToNumber stringToNumber (date (raw a))).

(** The loop of lines 232-242: the element at index [i] is pushed when
    [i === 0] or its [rating_key] differs from that of the element at
    index [i - 1] of the sorted input. *)
Fixpoint dedupFrom (previous : ProcessedMovie) (l : list ProcessedMovie)
  : list ProcessedMovie :=
  match l with
  | [] => []
  | current :: rest =>
      if decide (rating_key (raw current) ≠ rating_key (raw previous))
      then current :: dedupFrom current rest
      else dedupFrom current rest
  end.

Definition deduplicate (l : list ProcessedMovie) : list ProcessedMovie :=
  match l with
  | [] => []
  | first :: rest => first :: dedupFrom first rest
  end.

(** What [fetchMovies] hands to [setAllWatchData] and [setMovies] once
    the snapshot is loaded and non-empty. *)
Record Aggregated : Type := mkAggregated {
  allWatchData : list ProcessedMovie;
  deduplicatedMovies : list ProcessedMovie;
}.

Definition aggregate (now : Z) (movieData : list Movie) : Aggregated :=
  let processedMovies :=
    Js.sort byDateDesc (map (processMovie now) movieData) in
  {| allWatchData := processedMovies;
     deduplicatedMovies := deduplicate processedMovies |}.

(** [getMoviesByYear] (lines 293-301): the bucket of a tab. *)
Definition getMoviesByYear (currentYear : Z) (movies : list ProcessedMovie)
    (tab : Tab) : list ProcessedMovie :=
  filter (λ m, Js.strict_eq (year m) (targetYear currentYear tab) = true)
    movies.

(** [movie.watchDate ? movie.watchDate.getFullYear()
                      : new Date(movie.date * 1000).getFullYear()]. *)
Definition watchYearOf (movie : ProcessedMovie) : Js.num :=
  match watchDate movie with
  | Some d => Js.getFullYear localFullYear d
  | None =>
      Js.getFullYear localFullYear
        (Js.new_Date_num
           (Js.mul (Js.dateToNumber stringToNumber (date (raw movie)))
                   (Js.Int 1000)))
  end.

(** One step of the [forEach] that fills [firstWatchDates]
    (lines 310-318). *)
Definition recordFirstWatch (firstWatchDates : gmap Js.key Js.num)
    (movie : ProcessedMovie) : gmap Js.key Js.num :=
  if Js.key_truthy (rating_key (raw movie)) then
    let watchYear := watchYearOf movie in
    let existing := firstWatchDates !! rating_key (raw movie) in
    if negb (Js.truthy_opt existing)
       || match existing with
          | Some e => Js.lt watchYear e
          | None => false
          end
    then <[rating_key (raw movie) := watchYear]> firstWatchDates
    else firstWatchDates
  else firstWatchDates.

Definition firstWatchDates (allWatchData : list ProcessedMovie)
  : gmap Js.key Js.num :=
  foldl recordFirstWatch ∅ allWatchData.

(** The predicate of [rankings.filter(...)] (lines 322-325). *)
Definition firstWatchedIn (allWatchData : list ProcessedMovie)
    (target : Js.num) (r : RankingEntry) : bool :=
  Js.strict_eq_opt (firstWatchDates allWatchData !! r_rating_key r) target.

(** [getTop3ForYear] (lines 304-330). *)
Definition getTop3ForYear (currentYear : Z)
    (rankings : list RankingEntry) (allWatchData : list ProcessedMovie)
    (tab : Tab) : list RankingEntry :=
  take 3 (filter (λ r, firstWatchedIn allWatchData
                         (targetYear currentYear tab) r = true) rankings).

End Host.

End Movies.

(** ** TVShowsView.jsx *)

Module TV.

(** A raw record of [tv-shows.json]. *)
Record Episode : Type := mkEpisode {
  media_type : string;
  grandparent_title : option string;
  parent_title : option string;
  grandparent_rating_key : Js.key;
  parent_rating_key : Js.key;
  rating_key : Js.key;
  date : Js.DateField;
  duration : Z;            (* [episode.duration || 0]: absent is 0 *)
  thumb : option string;
  year : option Z;         (* release year; absent, [null] or [""] is [None] *)
}.

#[global] Instance Episode_eq_dec : EqDecision Episode.
Proof. solve_decision. Defined.

(** A value of [showMap] (lines 207-215), mutated episode by episode. *)
Record Show : Type := mkShow {
  s_rating_key : Js.key;
  s_title : string;
  episodes : list Episode;
  firstWatched : Js.date;
  lastWatched : Js.date;
  totalDuration : Z;
  s_thumb : option string;
}.

(** [showMap]: a JavaScript [Map], which iterates in insertion order and
    keeps the position of a key whose value changes. *)
Definition ShowMap : Type := list (Js.key * Show).

Fixpoint showMap_get (k : Js.key) (m : ShowMap) : option Show :=
  match m with
  | [] => None
  | (k', v) :: m' => if decide (k' = k) then Some v else showMap_get k m'
  end.

Definition showMap_has (k : Js.key) (m : ShowMap) : bool :=
  bool_decide (is_Some (showMap_get k m)).

Fixpoint showMap_set (k : Js.key) (v : Show) (m : ShowMap) : ShowMap :=
  match m with
  | [] => [(k, v)]
  | (k', v') :: m' =>
      if decide (k' = k) then (k, v) :: m' else (k', v') :: showMap_set k v m'
  end.

(** [Array.from(showMap.values())]. *)
Definition showMap_values (m : ShowMap) : list Show := map snd m.

(** An element of [processedShows] (lines 248-257). *)
Record ProcessedShow : Type := mkProcessedShow {
  show : Show;
  watchDate : Js.date;
  p_year : Js.num;
  releaseYear : option Z;
  p_duration : Z;
  episodeCount : nat;
}.

(** [String.prototype.toLowerCase] and [String.prototype.trim] are
    built-ins of the host, which works on Unicode text; the merge below
    takes them as parameters.  On text made of ASCII characters only they
    are the two functions that follow: letters A-Z are lowered, and TAB,
    LF, VT, FF, CR and SPACE are stripped from both ends. *)
Definition lower_ascii (c : Ascii.ascii) : Ascii.ascii :=
  let n := Ascii.nat_of_ascii c in
  if bool_decide (65 ≤ n ≤ 90)%nat then Ascii.ascii_of_nat (n + 32) else c.

Definition is_space (c : Ascii.ascii) : bool :=
  let n := Ascii.nat_of_ascii c in
  bool_decide (9 ≤ n ≤ 13)%nat || bool_decide (n = 32%nat).

Fixpoint trimStart (l : list Ascii.ascii) : list Ascii.ascii :=
  match l with
  | c :: l' => if is_space c then trimStart l' else l
  | [] => []
  end.

Definition asciiToLowerCase (t : string) : string :=
  String.string_of_list_ascii
    (map lower_ascii (String.list_ascii_of_string t)).

Definition asciiTrim (t : string) : string :=
  String.string_of_list_ascii
    (rev (trimStart (rev (trimStart (String.list_ascii_of_string t))))).

(** [episode.grandparent_title || episode.parent_title || 'Unknown Show']. *)
Definition showTitleOf (episode : Episode) : string :=
  Js.str_or (grandparent_title episode)
    (Js.str_or (parent_title episode) "Unknown Show").

(** [episode.grandparent_rating_key || episode.parent_rating_key ||
     episode.rating_key]. *)
Definition showKeyOf (episode : Episode) : Js.key :=
  Js.key_or (grandparent_rating_key episode)
    (Js.key_or (parent_rating_key episode) (rating_key episode)).

Section Host.

Variable localFullYear : Z → Z.
Variable dateParse : string → option Z.

(** The callback of [showData.forEach(...)] (lines 187-228). *)
Definition groupEpisode (now : Z) (showMap : ShowMap) (episode : Episode)
  : ShowMap :=
  if decide (media_type episode ≠ "episode"%string) then showMap
  else
    let showTitle := showTitleOf episode in
    let showKey := showKeyOf episode in
    let watchDate := Js.watchDateOf dateParse now (date episode) in
    let showMap1 :=
      if showMap_has showKey showMap then showMap
      else showMap_set showKey
             {| s_rating_key := showKey;
                s_title := showTitle;
                episodes := [];
                firstWatched := watchDate;
                lastWatched := watchDate;
                totalDuration := 0;
                s_thumb := thumb episode |} showMap in
    match showMap_get showKey showMap1 with
    | None => showMap1
    | Some show =>
        let first' :=
          if Js.lt (Js.valueOf watchDate) (Js.valueOf (firstWatched show))
          then watchDate else firstWatched show in
        let last' :=
          if Js.gt (Js.valueOf watchDate) (Js.valueOf (lastWatched show))
          then watchDate else lastWatched show in
        showMap_set showKey
          {| s_rating_key := s_rating_key show;
             s_title := s_title show;
             episodes := episodes show ++ [episode];
             firstWatched := first';
             lastWatched := last';
             totalDuration := totalDuration show + duration episode;
             s_thumb := s_thumb show |} showMap1
    end.

Definition buildShowMap (now : Z) (showData : list Episode) : ShowMap :=
  foldl (groupEpisode now) [] showData.

(** The callback of [Array.from(showMap.values()).map(...)]
    (lines 231-258). *)
Definition processShow (s : Show) : ProcessedShow :=
  {| show := s;
     watchDate := lastWatched s;
     p_year := Js.getFullYear localFullYear (lastWatched s);
     releaseYear :=
       match episodes s with
       | e :: _ => match year e with
                   | Some 0 => None
                   | y => y
                   end
       | [] => None
       end;
     p_duration := totalDuration s;
     episodeCount := length (episodes s) |}.

Definition processedShows (now : Z) (showData : list Episode)
  : list ProcessedShow :=
  map processShow (showMap_values (buildShowMap now showData)).

End Host.

(** *** Merging shows with the same title (lines 260-289)

    [deduplicatedShows] and [showsByTitle] hold references to the objects
    of [processedShows]; a reference is modelled by the index of the
    object in [processedShows], so that [indexOf] compares references and
    not contents. *)

Abbreviation Ref := nat.

Record MergeState : Type := mkMergeState {
  deduplicatedShows : list Ref;
  showsByTitle : gmap string Ref;
}.

(** [deduplicatedShows.indexOf(existing)], [None] for [-1]. *)
Fixpoint indexOf (existing : Ref) (l : list Ref) : option nat :=
  match l with
  | [] => None
  | r :: l' =>
      if decide (r = existing) then Some 0%nat
      else S <$> indexOf existing l'
  end.

(** [show.episodeCount > existing.episodeCount ||
     (show.episodeCount === existing.episodeCount &&
      show.watchDate > existing.watchDate)]. *)
Definition better (show existing : ProcessedShow) : bool :=
  bool_decide (episodeCount existing < episodeCount show)%nat
  || (bool_decide (episodeCount show = episodeCount existing)
      && Js.gt (Js.valueOf (watchDate show))
               (Js.valueOf (watchDate existing))).

Section Strings.

Variable toLowerCase : string → string.
Variable trim : string → string.

(** [show.title.toLowerCase().trim()]. *)
Definition normalizedTitle (show : ProcessedShow) : string :=
  trim (toLowerCase (s_title (TV.show show))).

(** The callback of [processedShows.forEach(...)], for the object at
    index [i]. *)
Definition mergeShow (heap : list ProcessedShow) (st : MergeState) (i : Ref)
  : MergeState :=
  match heap !! i with
  | None => st
  | Some show =>
      let title := normalizedTitle show in
      match showsByTitle st !! title with
      | None =>
          {| deduplicatedShows := deduplicatedShows st ++ [i];
             showsByTitle := <[title := i]> (showsByTitle st) |}
      | Some existingRef =>
          match heap !! existingRef with
          | None => st
          | Some existing =>
              if better show existing then
                match indexOf existingRef (deduplicatedShows st) with
                | Some index =>
                    {| deduplicatedShows :=
                         <[index := i]> (deduplicatedShows st);
                       showsByTitle := <[title := i]> (showsByTitle st) |}
                | None => st
                end
              else st
          end
      end
  end.

Definition mergeRefs (heap : list ProcessedShow) : list Ref :=
  deduplicatedShows
    (foldl (mergeShow heap) {| deduplicatedShows := []; showsByTitle := ∅ |}
       (seq 0 (length heap))).

(** The array [deduplicatedShows] after the loop, as values. *)
Definition mergeByTitle (heap : list ProcessedShow) : list ProcessedShow :=
  omap (λ r, heap !! r) (mergeRefs heap).

(** The comparator [(a, b) => b.watchDate - a.watchDate] of line 289. *)
Definition byWatchDateDesc (a b : ProcessedShow) : Js.num :=
  Js.sub (Js.valueOf (watchDate b)) (Js.valueOf (watchDate a)).

(** The list given to [setShows] on a fresh load. *)
Definition displayShows (heap : list ProcessedShow) : list ProcessedShow :=
  Js.sort byWatchDateDesc (mergeByTitle heap).

End Strings.

(** The callback of [shows.forEach(...)] (lines 378-382):
    [if (show.rating_key && show.releaseYear)
       releaseYearsByRatingKey.set(show.rating_key, show.releaseYear)]. *)
Definition recordReleaseYear (m : gmap Js.key Z) (s : ProcessedShow)
  : gmap Js.key Z :=
  match releaseYear s with
  | Some y =>
      if Js.key_truthy (s_rating_key (show s)) && negb (bool_decide (y = 0))
      then <[s_rating_key (show s) := y]> m
      else m
  | None => m
  end.

Definition releaseYearsByRatingKey (shows : list ProcessedShow)
  : gmap Js.key Z :=
  foldl recordReleaseYear ∅ shows.

(** The predicate of [rankings.filter(...)] (lines 386-389). *)
Definition releasedIn (shows : list ProcessedShow) (target : Js.num)
    (r : RankingEntry) : bool :=
  Js.strict_eq_opt
    (Js.Int <$> releaseYearsByRatingKey shows !! r_rating_key r) target.

(** [getTop3ForYear] (lines 372-394): [yearRankings] and the titles it
    returns. *)
Definition yearRankings (currentYear : Z) (rankings : list RankingEntry)
    (shows : list ProcessedShow) (tab : Tab) : list RankingEntry :=
  take 3 (filter (λ r, releasedIn shows (targetYear currentYear tab) r = true)
            rankings).

Definition getTop3ForYear (currentYear : Z) (rankings : list RankingEntry)
    (shows : list ProcessedShow) (tab : Tab) : list string :=
  map r_title (yearRankings currentYear rankings shows tab).

End TV.

(** ** ComicBooksView.jsx: top 3 for a year

    (the revision that keeps one release year per series) *)

Module Comics.

(** An element of [allReadData] / [comics], with the fields that
    [getTop3ForYear] reads. *)
Record ProcessedComic : Type := mkProcessedComic {
  seriesId : Js.key;
  rating_key : Js.key;
  watchDate : option Js.date;
  year : Js.num;
}.

Section Host.

Variable localFullYear : Z → Z.

(** [comic.watchDate ? comic.watchDate.getFullYear() : (comic.year || null)];
    [None] is [null]. *)
Definition readYearOf (comic : ProcessedComic) : option Js.num :=
  match watchDate comic with
  | Some d => Some (Js.getFullYear localFullYear d)
  | None => if Js.truthy (year comic) then Some (year comic) else None
  end.

(** The callback of both [forEach] loops (lines 334-347 and 352-363). *)
Definition recordReadYear (readYears : gmap Js.key Js.num)
    (comic : ProcessedComic) : gmap Js.key Js.num :=
  let key := Js.key_or (seriesId comic) (rating_key comic) in
  if Js.key_truthy key then
    match readYearOf comic with
    | Some readYear =>
        let existing := readYears !! key in
        if negb (Js.truthy_opt existing)
           || match existing with
              | Some e => Js.gt readYear e
              | None => false
              end
        then <[key := readYear]> readYears
        else readYears
    | None => readYears
    end
  else readYears.

Definition readYearsByRatingKey (allReadData comics : list ProcessedComic)
  : gmap Js.key Js.num :=
  foldl recordReadYear (foldl recordReadYear ∅ allReadData) comics.

(** The predicate of [rankings.filter(...)] (lines 368-373). *)
Definition readIn (allReadData comics : list ProcessedComic)
    (target : Js.num) (r : RankingEntry) : bool :=
  Js.key_truthy (r_rating_key r)
  && Js.strict_eq_opt
       (readYearsByRatingKey allReadData comics !! r_rating_key r) target.

(** [getTop3ForYear] (lines 324-378). *)
Definition getTop3ForYear (currentYear : Z) (rankings : list RankingEntry)
    (allReadData comics : list ProcessedComic) (tab : Tab)
  : list RankingEntry :=
  take 3 (filter (λ r, readIn allReadData comics
                         (targetYear currentYear tab) r = true) rankings).

End Host.

End Comics.

(** ** ComicBooksView, the revision that tracks issue release years

    (the second document of [src/components/MoviesView.jsx],
    lines 520-1104): top 3 for a year. *)

Module ComicsByIssue.

(** An element of [allReadData], one read issue, with the fields that
    [getTop3ForYear] reads.  [None] is [undefined] for [readYear] and
    [null] or [undefined] for [issueReleaseYear]. *)
Record ProcessedComic : Type := mkProcessedComic {
  seriesId : Js.key;
  rating_key : Js.key;
  watchDate : option Js.date;
  year : Js.num;
  readYear : option Js.num;
  issueReleaseYear : option Js.num;
}.

Section Host.

Variable localFullYear : Z → Z.

(** [comic.readYear || (comic.watchDate ? comic.watchDate.getFullYear()
                                         : (comic.year || null))]. *)
Definition readYearOf (comic : ProcessedComic) : option Js.num :=
  if Js.truthy_opt (readYear comic) then readYear comic
  else match watchDate comic with
       | Some d => Some (Js.getFullYear localFullYear d)
       | None => if Js.truthy (year comic) then Some (year comic) else None
       end.

(** The test of line 904:
    [readYear === targetYear && issueReleaseYear !== null
     && issueReleaseYear === targetYear]. *)
Definition releasedAndReadIn (target : Js.num) (comic : ProcessedComic)
  : bool :=
  Js.strict_eq_opt (readYearOf comic) target
  && Js.strict_eq_opt (issueReleaseYear comic) target.

(** The callback of [allReadData.forEach(...)] (lines 888-907). *)
Definition recordEligible (target : Js.num) (eligibleSeries : gset Js.key)
    (comic : ProcessedComic) : gset Js.key :=
  let key := Js.key_or (seriesId comic) (rating_key comic) in
  if Js.key_truthy key then
    if releasedAndReadIn target comic then {[ key ]} ∪ eligibleSeries
    else eligibleSeries
  else eligibleSeries.

Definition eligibleSeries (target : Js.num)
    (allReadData : list ProcessedComic) : gset Js.key :=
  foldl (recordEligible target) ∅ allReadData.

(** The predicate of [rankings.filter(...)] (lines 912-916). *)
Definition hasEligibleIssue (allReadData : list ProcessedComic)
    (target : Js.num) (r : RankingEntry) : bool :=
  Js.key_truthy (r_rating_key r)
  && bool_decide (r_rating_key r ∈ eligibleSeries target allReadData).

(** [getTop3ForYear] (lines 877-921). *)
Definition getTop3ForYear (currentYear : Z) (rankings : list RankingEntry)
    (allReadData : list ProcessedComic) (tab : Tab) : list RankingEntry :=
  take 3 (filter (λ r, hasEligibleIssue allReadData
                         (targetYear currentYear tab) r = true) rankings).

End Host.

End ComicsByIssue.

(** ** utils/cache.js: the two-tier [DataCache] *)

Module Cache.

Section Values.

(** The cached payloads. *)
Context {V : Type}.

(** [{ value, timestamp }], in memory and in the object store. *)
Record Entry : Type := mkEntry {
  value : V;
  timestamp : Z;
}.

(** The cache object together with the browser's IndexedDB database
    ['MovieSiteCache'].
    - [memoryCache]: [this.memoryCache];
    - [db]: whether [this.db] has been set by [initDB];
    - [store]: the object store ['data'], keyed by [key];
    - [available]: whether [indexedDB.open] succeeds. *)
Record State : Type := mkState {
  memoryCache : gmap string Entry;
  db : bool;
  store : gmap string Entry;
  available : bool;
}.

Definition CACHE_EXPIRATION_MS : Z := 24 * 60 * 60 * 1000.

(** [initDB]: [None] when the promise rejects. *)
Definition initDB (st : State) : option State :=
  if db st then Some st
  else if available st then
    Some {| memoryCache := memoryCache st; db := true;
            store := store st; available := available st |}
  else None.

(** The first half of [get] (lines 35-43).  [inl v] is the early return
    of a memory hit. *)
Definition getMemory (now : Z) (key : string) (st : State) : V + State :=
  match memoryCache st !! key with
  | Some cached =>
      if bool_decide (now - timestamp cached < CACHE_EXPIRATION_MS)
      then inl (value cached)
      else inr {| memoryCache := delete key (memoryCache st); db := db st;
                  store := store st; available := available st |}
  | None => inr st
  end.

(** The second half of [get] (lines 46-78): [later] is the clock reading
    taken inside [onsuccess]. *)
Definition getIndexedDB (later : Z) (key : string) (st : State)
  : option V * State :=
  match initDB st with
  | None => (None, st)
  | Some st1 =>
      match store st1 !! key with
      | Some result =>
          if bool_decide (timestamp result = 0) then (None, st1)
          else
            let age := later - timestamp result in
            if bool_decide (age < CACHE_EXPIRATION_MS) then
              (Some (value result),
               {| memoryCache :=
                    <[key := {| value := value result;
                                timestamp := timestamp result |}]>
                      (memoryCache st1);
                  db := db st1; store := store st1;
                  available := available st1 |})
            else
              (None,
               {| memoryCache := memoryCache st1; db := db st1;
                  store := delete key (store st1);
                  available := available st1 |})
      | None => (None, st1)
      end
  end.

(** [get(key)]; [None] is the miss, [null]. *)
Definition get (now later : Z) (key : string) (st : State)
  : option V * State :=
  match getMemory now key st with
  | inl v => (Some v, st)
  | inr st1 => getIndexedDB later key st1
  end.

(** [set(key, value)]. *)
Definition set (now : Z) (key : string) (v : V) (st : State) : State :=
  let st1 :=
    {| memoryCache := <[key := {| value := v; timestamp := now |}]>
                        (memoryCache st);
       db := db st; store := store st; available := available st |} in
  match initDB st1 with
  | None => st1
  | Some st2 =>
      {| memoryCache := memoryCache st2; db := db st2;
         store := <[key := {| value := v; timestamp := now |}]> (store st2);
         available := available st2 |}
  end.

(** [clear()]. *)
Definition clear (st : State) : State :=
  {| memoryCache := ∅; db := db st;
     store := if db st then ∅ else store st;
     available := available st |}.

End Values.

Arguments Entry : clear implicits.
Arguments State : clear implicits.

End Cache.

(** ** server.js: the ranking endpoints *)

Module Server.

(** JSON values, as [express.json()] and [JSON.parse] produce them.
    (In its default strict mode [express.json()] itself answers 400 to a
    body whose top-level value is neither an object nor an array, before
    the handler runs; the handlers below are modelled for every body.) *)
#[warnings="-register-all"]
Inductive json : Type :=
| JNull
| JBool (b : bool)
| JNum (n : Z)
| JStr (s : string)
| JArr (items : list json)
| JObj (fields : list (string * json)).

(** The contents of a file of the data directory: the JSON text of a
    value, or text that [JSON.parse] rejects. *)
Inductive FileData : Type :=
| JsonText (v : json)
| Malformed.

(** The data directory.  [writable] tells whether [writeFileSync]
    succeeds; when it does not, it throws and leaves the files alone. *)
Record FS : Type := mkFS {
  files : gmap string FileData;
  writable : bool;
}.

Record Response : Type := mkResponse {
  status : Z;
  body : json;
}.

(** [res.json(v)] and [res.status(code).json(v)]. *)
Definition res_json (v : json) : Response := {| status := 200; body := v |}.
Definition res_status_json (code : Z) (v : json) : Response :=
  {| status := code; body := v |}.

(** [!rankings] on the request body; [None] is [undefined]. *)
Definition falsy (b : option json) : bool :=
  match b with
  | None | Some JNull | Some (JBool false) | Some (JNum 0)
  | Some (JStr EmptyString) => true
  | Some _ => false
  end.

(** [Array.isArray(rankings)], returning the items. *)
Definition asArray (b : option json) : option (list json) :=
  match b with
  | Some (JArr items) => Some items
  | _ => None
  end.

Section Paths.

(** [rankingsDir = join(__dirname, 'public', 'data')]. *)
Variable rankingsDir : string.

Definition join (dir name : string) : string :=
  (dir +:+ "/" +:+ name)%string.

(** [getRankingsPath] (lines 213-221). *)
Definition getRankingsPath (contentType : string) : string :=
  if decide (contentType = "tv"%string) then
    join rankingsDir "tv-rankings.json"
  else if decide (contentType = "comics"%string) then
    join rankingsDir "comic-rankings.json"
  else
    join rankingsDir "movie-rankings.json".

(** [app.get('/api/rankings/:contentType')] (lines 224-243).  Reading
    [rankings.length] for the log line throws on [null], which the
    [catch] turns into the 500 response. *)
Definition getRankings (contentType : string) (fs : FS) : Response :=
  let filePath := getRankingsPath contentType in
  match files fs !! filePath with
  | Some (JsonText JNull) | Some Malformed =>
      res_status_json 500 (JObj [("error"%string,
                                  JStr "Failed to read rankings")])
  | Some (JsonText rankings) => res_json rankings
  | None => res_json (JArr [])
  end.

(** [app.post('/api/rankings/:contentType')] (lines 246-275).  The 500
    response also carries [details: error.message], the host's text for
    the failed write, which is left out. *)
Definition postRankings (contentType : string) (reqBody : option json)
    (fs : FS) : Response * FS :=
  if falsy reqBody then
    (res_status_json 400 (JObj [("error"%string,
                                 JStr "No rankings data provided")]), fs)
  else
    match asArray reqBody with
    | None =>
        (res_status_json 400 (JObj [("error"%string,
                                     JStr "Rankings must be an array")]), fs)
    | Some rankings =>
        let filePath := getRankingsPath contentType in
        if writable fs then
          (res_json (JObj [("success"%string, JBool true);
                           ("count"%string,
                            JNum (Z.of_nat (length rankings)))]),
           {| files := <[filePath := JsonText (JArr rankings)]> (files fs);
              writable := writable fs |})
        else
          (res_status_json 500
             (JObj [("error"%string, JStr "Failed to save rankings")]), fs)
    end.

End Paths.

End Server.

(** ** AdminRankingTab.jsx: the ranking editor *)

Module Editor.

(** [currentRankings.some(r => r.rating_key === movie.rating_key)]. *)
Definition some_same_key (movie : RankingEntry)
    (currentRankings : list RankingEntry) : bool :=
  existsb (λ r, bool_decide (r_rating_key r = r_rating_key movie))
    currentRankings.

(** The state update of [addToRankings] (lines 196-206). *)
Definition addToRankings (movie : RankingEntry)
    (currentRankings : list RankingEntry) : list RankingEntry :=
  if some_same_key movie currentRankings then currentRankings
  else currentRankings ++ [movie].

(** The state update of [removeFromRankings] (lines 211-215). *)
Definition removeFromRankings (ratingKey : Js.key)
    (currentRankings : list RankingEntry) : list RankingEntry :=
  filter (λ r, r_rating_key r ≠ ratingKey) currentRankings.

(** [a.splice(start, 1)] for [0 <= start < a.length]. *)
Definition splice_remove {A : Type} (start : Z) (l : list A) : list A :=
  delete (Z.to_nat start) l.

(** [a.splice(start, 0, item)]: a negative [start] counts from the end,
    and the position is clamped to [0 .. a.length]. *)
Definition splice_insert {A : Type} (start : Z) (item : A) (l : list A)
  : list A :=
  let len := Z.of_nat (length l) in
  let actualStart :=
    if bool_decide (start < 0) then Z.max (len + start) 0
    else Z.min start len in
  take (Z.to_nat actualStart) l ++ item :: drop (Z.to_nat actualStart) l.

(** [handleDrop] (lines 157-192) as a function of the current list.
    [draggedIndex] is the component state ([None] is [null]) and
    [transferred] the integer read back from the drag data, which
    [handleDragStart] stored as [index.toString()] (or [-1] when the
    data is empty). *)
Definition handleDrop (draggedIndex : option Z) (transferred : Z)
    (dropIndex : Z) (currentRankings : list RankingEntry)
  : list RankingEntry :=
  let sourceIndex := default transferred draggedIndex in
  if bool_decide (sourceIndex = -1) || bool_decide (sourceIndex = dropIndex)
  then currentRankings
  else if bool_decide (sourceIndex < 0)
          || bool_decide (Z.of_nat (length currentRankings) <= sourceIndex)
  then currentRankings
  else
    match currentRankings !! Z.to_nat sourceIndex with
    | None => currentRankings
    | Some draggedItem =>
        let newRankings := splice_remove sourceIndex currentRankings in
        let adjustedDropIndex :=
          if bool_decide (sourceIndex < dropIndex) then dropIndex - 1
          else dropIndex in
        splice_insert adjustedDropIndex draggedItem newRankings
    end.

(** The editing operations of the tab. *)
Inductive Op : Type :=
| Add (movie : RankingEntry)
| Remove (ratingKey : Js.key)
| Drop (draggedIndex : option Z) (transferred : Z) (dropIndex : Z).

Definition apply (op : Op) (rankings : list RankingEntry)
  : list RankingEntry :=
  match op with
  | Add movie => addToRankings movie rankings
  | Remove ratingKey => removeFromRankings ratingKey rankings
  | Drop draggedIndex transferred dropIndex =>
      handleDrop draggedIndex transferred dropIndex rankings
  end.

(** The list after a sequence of operations, starting from the initial
    state [useState([])]. *)
Definition run (ops : list Op) : list RankingEntry :=
  foldl (λ rankings op, apply op rankings) [] ops.

End Editor.

(** ** Further parts of the sources *)

(** [new Set(iterable)] spread back into an array: the values in the
    order of their first occurrence (a [Set] compares with SameValueZero,
    under which [NaN] equals [NaN], as structural equality does here). *)
Module JsSet.

Definition add {A} `{EqDecision A} (seen : list A) (x : A) : list A :=
  if decide (x ∈ seen) then seen else seen ++ [x].

Definition of_list {A} `{EqDecision A} (l : list A) : list A :=
  foldl add [] l.

(** [set.size]. *)
Definition size {A} `{EqDecision A} (l : list A) : nat := length (of_list l).

End JsSet.

(** *** MoviesView.jsx: year tabs and year statistics *)

Module MoviesStats.

(** [[...new Set(deduplicatedMovies.map(m => m.year))]
      .sort((a, b) => b - a)] (line 245). *)
Definition uniqueYears (deduplicatedMovies : list Movies.ProcessedMovie)
  : list Js.num :=
  Js.sort (λ a b, Js.sub b a)
    (JsSet.of_list (map Movies.year deduplicatedMovies)).

(** [formatWatchTime] (lines 334-347).  [Math.floor(x / d)] is floor division,
    and [%] takes the sign of the dividend as [Z.rem] does. *)
Definition days (seconds : Z) : Z := seconds `div` 86400.
Definition hours (seconds : Z) : Z := (seconds `rem` 86400) `div` 3600.
Definition minutes (seconds : Z) : Z := (seconds `rem` 3600) `div` 60.

(** [`${n} ${unit}${n !== 1 ? 's' : ''}`]. *)
Definition plural (n : Z) (unit : string) : string :=
  (pretty n +:+ " " +:+ unit +:+ (if decide (n ≠ 1) then "s" else ""))%string.

Definition parts (seconds : Z) : list string :=
  let p1 := if decide (0 < days seconds)
            then [plural (days seconds) "day"] else [] in
  let p2 := if decide (0 < hours seconds)
            then p1 ++ [plural (hours seconds) "hour"] else p1 in
  if decide (0 < minutes seconds ∨ p2 = [])
  then p2 ++ [plural (minutes seconds) "minute"] else p2.

(** [parts.join(', ')]. *)
Fixpoint join (sep : string) (l : list string) : string :=
  match l with
  | [] => ""
  | [x] => x
  | x :: rest => (x +:+ sep +:+ join sep rest)%string
  end.

Definition formatWatchTime (seconds : Z) : string :=
  if decide (seconds = 0) then "0 minutes"%string
  else join ", " (parts seconds).

Section Host.

Variable localFullYear : Z → Z.
Variable stringToNumber : string → Js.num.

(** The record [{ count, totalWatchTime }] of [getYearStats]
    (lines 349-371), with the number of seconds behind the text. *)
Record YearStats : Type := mkYearStats {
  count : nat;
  totalSeconds : Z;
  totalWatchTime : string;
}.

(** [allWatchData.filter(m => watchYear === targetYear)]. *)
Definition allYearWatches (currentYear : Z)
    (allWatchData : list Movies.ProcessedMovie) (tab : Tab)
  : list Movies.ProcessedMovie :=
  filter (λ m, Js.strict_eq
                 (Movies.watchYearOf localFullYear stringToNumber m)
                 (targetYear currentYear tab) = true) allWatchData.

(** [reduce((sum, movie) => sum + (movie.duration || 0), 0)]. *)
Definition sumDurations (l : list Movies.ProcessedMovie) : Z :=
  foldl (λ sum movie, sum + Movies.duration (Movies.raw movie)) 0 l.

Definition getYearStats (currentYear : Z)
    (movies allWatchData : list Movies.ProcessedMovie) (tab : Tab)
  : YearStats :=
  let yearMovies := Movies.getMoviesByYear currentYear movies tab in
  let total := sumDurations (allYearWatches currentYear allWatchData tab) in
  {| count := JsSet.size
                (map (λ m, Movies.rating_key (Movies.raw m)) yearMovies);
     totalSeconds := total;
     totalWatchTime := formatWatchTime total |}.

End Host.

End MoviesStats.

(** *** utils/cache.js: the cache object over several calls *)

Module CacheSession.

Section Values.

Context {V : Type}.

(** [new DataCache()] (lines 3-8), as run by [export const cache] on each
    page load: no entry in memory, [db] is [null]; the browser's database
    is as earlier page loads left it. *)
Definition newCache (store : gmap string (Cache.Entry V)) (available : bool)
  : Cache.State V :=
  {| Cache.memoryCache := ∅; Cache.db := false;
     Cache.store := store; Cache.available := available |}.

(** A page reload: a new cache object over the same database. *)
Definition reload (st : Cache.State V) : Cache.State V :=
  newCache (Cache.store st) (Cache.available st).

(** The calls made on the cache object, with the clock readings that
    [Date.now()] returns inside them. *)
Inductive Op : Type :=
| OpGet (now later : Z) (key : string)
| OpSet (now : Z) (key : string) (v : V)
| OpClear.

Definition apply (op : Op) (st : Cache.State V) : Cache.State V :=
  match op with
  | OpGet now later key => (Cache.get now later key st).2
  | OpSet now key v => Cache.set now key v st
  | OpClear => Cache.clear st
  end.

Definition run (ops : list Op) (st : Cache.State V) : Cache.State V :=
  foldl (λ st op, apply op st) st ops.

(** The clock reading after the calls [ops], started at [clock]. *)
Definition clockAfter (clock : Z) (ops : list Op) : Z :=
  foldl (λ c op, match op with
                 | OpGet _ later _ => later
                 | OpSet now _ _ => now
                 | OpClear => c
                 end) clock ops.

End Values.

Arguments Op : clear implicits.

End CacheSession.


(** *** AdminRankingTab.jsx and RankingTab.jsx: the lists around the
    ranking *)

Module EditorLists.

(** [uniqueMovies] (lines 341-348): the first movie of each
    [rating_key], in order of first occurrence. *)
Definition uniqueMovies (movies : list RankingEntry) : list RankingEntry :=
  foldl (λ seen movie,
           if decide (r_rating_key movie ∈ map r_rating_key seen) then seen
           else seen ++ [movie]) [] movies.

(** [unrankedMovies] (lines 350-351). *)
Definition unrankedMovies (movies rankings : list RankingEntry)
  : list RankingEntry :=
  filter (λ m, r_rating_key m ∉ map r_rating_key rankings)
    (uniqueMovies movies).

(** The last path segment of the ranking endpoint that both tabs call
    in development. *)
Definition endpoint (contentType : string) : string :=
  if decide (contentType = "tv"%string) then "tv"
  else if decide (contentType = "comics"%string) then "comics"
  else "movies".

(** The static file that both tabs load in production, also the name
    under which [exportRankings] downloads the list. *)
Definition filename (contentType : string) : string :=
  if decide (contentType = "tv"%string) then "tv-rankings.json"
  else if decide (contentType = "comics"%string) then "comic-rankings.json"
  else "movie-rankings.json".

End EditorLists.


(** *** TVShowsView.jsx: the episode list and the statistics of a tab *)

Module TVStats.

(** An element of [allEpisodeWatches] (lines 293-309): the record
    spread, plus [watchDate] and [year]. *)
Record EpisodeWatch : Type := mkEpisodeWatch {
  episode : TV.Episode;
  watchDate : option Js.date;
  year : Js.num;
}.

(** [{ count, totalEpisodes, totalWatchTime }] of [getYearStats], with
    the number of seconds behind the text. *)
Record YearStats : Type := mkYearStats {
  count : nat;
  totalEpisodes : nat;
  totalSeconds : Z;
  totalWatchTime : string;
}.

Section Host.

Variable localFullYear : Z → Z.
Variable dateParse : string → option Z.
Variable stringToNumber : string → Js.num.

(** [later] is the clock reading that [new Date()] takes in this pass
    over the snapshot. *)
Definition allEpisodeWatches (later : Z) (showData : list TV.Episode)
  : list EpisodeWatch :=
  map (λ e, let watchDate := Js.watchDateOf dateParse later (TV.date e) in
            {| episode := e;
               watchDate := Some watchDate;
               year := Js.getFullYear localFullYear watchDate |})
    (filter (λ e, TV.media_type e = "episode"%string) showData).

(** [getShowsByYear] (lines 361-369). *)
Definition getShowsByYear (currentYear : Z) (shows : list TV.ProcessedShow)
    (tab : Tab) : list TV.ProcessedShow :=
  filter (λ s, Js.strict_eq (TV.p_year s) (targetYear currentYear tab) = true)
    shows.

(** [e.watchDate ? e.watchDate.getFullYear()
                  : new Date(e.date * 1000).getFullYear()]. *)
Definition watchYearOf (e : EpisodeWatch) : Js.num :=
  match watchDate e with
  | Some d => Js.getFullYear localFullYear d
  | None =>
      Js.getFullYear localFullYear
        (Js.new_Date_num
           (Js.mul (Js.dateToNumber stringToNumber (TV.date (episode e)))
                   (Js.Int 1000)))
  end.

Definition allYearEpisodes (currentYear : Z) (allWatchData : list EpisodeWatch)
    (tab : Tab) : list EpisodeWatch :=
  filter (λ e, Js.strict_eq (watchYearOf e) (targetYear currentYear tab)
               = true) allWatchData.

(** [getYearStats] (lines 396-439); its [formatWatchTime] has the text
    of the one in [MoviesView.jsx]. *)
Definition getYearStats (currentYear : Z) (shows : list TV.ProcessedShow)
    (allWatchData : list EpisodeWatch) (tab : Tab) : YearStats :=
  let yearShows := getShowsByYear currentYear shows tab in
  let episodes := allYearEpisodes currentYear allWatchData tab in
  let total :=
    foldl (λ sum e, sum + TV.duration (episode e)) 0 episodes in
  {| count := JsSet.size (map (λ s, TV.s_rating_key (TV.show s)) yearShows);
     totalEpisodes := length episodes;
     totalSeconds := total;
     totalWatchTime := MoviesStats.formatWatchTime total |}.

End Host.

End TVStats.

(** *** TVShowsView.jsx: [fetchTVShows] and the cache *)

Module TVLoad.

(** The value stored under the cache key (lines 318-322). *)
Record Payload : Type := mkPayload {
  processed : list TV.ProcessedShow;
  allWatchData : list TVStats.EpisodeWatch;
  years : list Js.num;
}.

(** The state set by one call of [fetchTVShows]: the arguments of
    [setShows], [setAllWatchData] and [setYears]. *)
Record Loaded : Type := mkLoaded {
  shows : list TV.ProcessedShow;
  l_allWatchData : list TVStats.EpisodeWatch;
  l_years : list Js.num;
}.

(** The clock readings of one call: the two inside [cache.get], the ones
    of the two passes over the snapshot, and the one inside
    [cache.set]. *)
Record Clock : Type := mkClock {
  atGet : Z;
  atGetStore : Z;
  atGroup : Z;
  atWatches : Z;
  atSet : Z;
}.

(** [IS_DEV ? 'tvshows-dev' : 'tvshows-prod']. *)
Definition cacheKey (IS_DEV : bool) : string :=
  if IS_DEV then "tvshows-dev"%string else "tvshows-prod"%string.

Section Host.

Variable localFullYear : Z → Z.
Variable dateParse : string → option Z.
Variable toLowerCase : string → string.
Variable trim : string → string.
Variable IS_DEV : bool.

(** [fetchTVShows] (lines 119-358) once the snapshot is fetched, on the
    array [showData] it holds and the cache object: the state it sets
    ([None] when it calls [setError] instead) and the cache object it
    leaves. *)
Definition fetchTVShows (clock : Clock) (showData : list TV.Episode)
    (cache : Cache.State Payload) : option Loaded * Cache.State Payload :=
  let (cachedData, cache) :=
    Cache.get (atGet clock) (atGetStore clock) (cacheKey IS_DEV) cache in
  match cachedData with
  | Some cachedData =>
      (Some {| shows := processed cachedData;
               l_allWatchData := allWatchData cachedData;
               l_years := years cachedData |}, cache)
  | None =>
      match showData with
      | [] => (None, cache)
      | _ :: _ =>
          let processedShows :=
            TV.processedShows localFullYear dateParse (atGroup clock)
              showData in
          let deduplicatedShows :=
            TV.displayShows toLowerCase trim processedShows in
          let allEpisodeWatches :=
            TVStats.allEpisodeWatches localFullYear dateParse
              (atWatches clock) showData in
          let uniqueYears :=
            Js.sort (λ a b, Js.sub b a)
              (JsSet.of_list (map TV.p_year deduplicatedShows)) in
          (Some {| shows := deduplicatedShows;
                   l_allWatchData := allEpisodeWatches;
                   l_years := uniqueYears |},
           Cache.set (atSet clock) (cacheKey IS_DEV)
             {| processed := processedShows;
                allWatchData := allEpisodeWatches;
                years := uniqueYears |} cache)
      end
  end.

(** The view mounted twice on the same snapshot, with the same cache
    object ([App] renders the view only while [currentView === 'tv'], and
    [cache] is one object per page): what each [fetchTVShows]
    displays. *)
Definition loadTwice (first second : Clock) (showData : list TV.Episode)
    (cache : Cache.State Payload) : option Loaded * option Loaded :=
  let load1 := fetchTVShows first showData cache in
  let load2 := fetchTVShows second showData load1.2 in
  (load1.1, load2.1).

End Host.

End TVLoad.


(** [new Map()] with [get] and [set]: a map that iterates in insertion
    order and keeps the position of a key whose value is replaced. *)
Module JsMap.

Section Map.

Context {K V : Type} `{EqDecision K}.

Fixpoint get (k : K) (m : list (K * V)) : option V :=
  match m with
  | [] => None
  | (k', v) :: m' => if decide (k' = k) then Some v else get k m'
  end.

Fixpoint set (k : K) (v : V) (m : list (K * V)) : list (K * V) :=
  match m with
  | [] => [(k, v)]
  | (k', v') :: m' =>
      if decide (k' = k) then (k, v) :: m' else (k', v') :: set k v m'
  end.

(** [Array.from(m.values())]. *)
Definition values (m : list (K * V)) : list V := map snd m.

End Map.

End JsMap.

(** *** ComicBooksView.jsx: one entry per series (lines 236-262) *)

Module ComicsList.

(** An element of [processedComics]: the fields of [Comics.ProcessedComic]
    and [date], the number [readDate.getTime()]. *)
Record Read : Type := mkRead {
  comic : Comics.ProcessedComic;
  date : Js.num;
}.

(** [comic.seriesId || comic.rating_key]. *)
Definition keyOf (c : Read) : Js.key :=
  Js.key_or (Comics.seriesId (comic c)) (Comics.rating_key (comic c)).

(** [comic.watchDate ? comic.watchDate.getTime() : (comic.date || 0)]. *)
Definition timeOf (c : Read) : Js.num :=
  match Comics.watchDate (comic c) with
  | Some d => Js.valueOf d
  | None => if Js.truthy (date c) then date c else Js.Int 0
  end.

(** The callback of [processedComics.forEach(...)] (lines 238-256). *)
Definition keepLatest (comicsBySeriesId : list (Js.key * Read)) (c : Read)
  : list (Js.key * Read) :=
  let key := keyOf c in
  if negb (Js.key_truthy key) then comicsBySeriesId
  else
    match JsMap.get key comicsBySeriesId with
    | None => JsMap.set key c comicsBySeriesId
    | Some existing =>
        if Js.gt (timeOf c) (timeOf existing)
        then JsMap.set key c comicsBySeriesId
        else comicsBySeriesId
    end.

Definition comicsBySeriesId (processedComics : list Read)
  : list (Js.key * Read) :=
  foldl keepLatest [] processedComics.

(** The comparator [(a, b) => b.watchDate - a.watchDate]; an absent
    [watchDate] coerces to [NaN]. *)
Definition byWatchDateDesc (a b : Read) : Js.num :=
  let number c := match Comics.watchDate (comic c) with
                  | Some d => Js.valueOf d
                  | None => Js.NaN
                  end in
  Js.sub (number b) (number a).

(** [deduplicatedComics] after the sort of line 262. *)
Definition deduplicatedComics (processedComics : list Read) : list Read :=
  Js.sort byWatchDateDesc (JsMap.values (comicsBySeriesId processedComics)).

End ComicsList.

(** *** MovieList.jsx: the order of the cards *)

Module MovieList.

Section Host.

Variable stringToNumber : string → Js.num.

(** [sortedMovies] (lines 6-10) for the movies view. *)
Definition sortedMovies (movies : list Movies.ProcessedMovie)
  : list Movies.ProcessedMovie :=
  match movies with
  | [] => []
  | _ => Js.sort (Movies.byDateDesc stringToNumber) movies
  end.

End Host.

End MovieList.


(** *** server.js: the poster proxy and the history proxy *)

Module Proxy.

(** The outcome of [await fetch(url)] followed by reading the body: the
    promise rejects, or a response arrives with its [ok] flag, its
    [content-type] header and, when the body can be read, the body. *)
Inductive Fetched (Body : Type) : Type :=
| Rejected
| Responded (ok : bool) (contentType : option string) (body : option Body).

Arguments Rejected {Body}.
Arguments Responded {Body} ok contentType body.

(** The requests of [/api/poster], one constructor per URL template:
    Tautulli [get_metadata], Tautulli [get_pms_image], and the Plex URL
    [`${PLEX_URL}${thumbPath}?X-Plex-Token=${PLEX_TOKEN}`]. *)
Inductive Request : Type :=
| TautulliMetadata (ratingKey : string)
| TautulliImage (thumbPath : string)
| PlexImage (thumbPath : string) (token : string).

(** What the handler sends. *)
Inductive Reply (Image : Type) : Type :=
| SendImage (contentType : string) (image : Image)
| SendError (status : Z) (error : string).

Arguments SendImage {Image} contentType image.
Arguments SendError {Image} status error.

(** A query parameter or an environment variable under [!x]. *)
Definition present (s : option string) : option string :=
  match s with
  | Some EmptyString | None => None
  | Some s => Some s
  end.

Section Poster.

Context {Image : Type}.

(** [PLEX_TOKEN], [None] when the variable is not set. *)
Variable PLEX_TOKEN : option string.

(** The answers of Tautulli and Plex.  [metadataThumb] is
    [metadataData.response?.data?.thumb] of the metadata request, a
    string when present; its outer [None] stands for a rejected request,
    a body that is not JSON or the body [null]. *)
Variable metadataThumb : string → option (option string).
Variable fetchImage : Request → Fetched Image.

(** [PLEX_TOKEN && PLEX_TOKEN !== 'your_plex_token_here']. *)
Definition plexToken : option string :=
  match present PLEX_TOKEN with
  | Some t => if decide (t = "your_plex_token_here"%string) then None
              else Some t
  | None => None
  end.

(** [headers.get('content-type') || 'image/jpeg']. *)
Definition contentTypeOf (header : option string) : string :=
  Js.str_or header "image/jpeg".

(** The part of the handler after [thumbPath] is known (lines 149-197),
    with the requests made so far. *)
Definition sendPoster (thumbPath : string) (log : list Request)
  : Reply Image * list Request :=
  let tautulli := TautulliImage thumbPath in
  match fetchImage tautulli with
  | Responded true contentType (Some image) =>
      (SendImage (contentTypeOf contentType) image, log ++ [tautulli])
  | _ =>
      match plexToken with
      | None =>
          (SendError 503
             "Poster unavailable - Plex token not configured. Tautulli proxy failed and Plex requires authentication.",
           log ++ [tautulli])
      | Some token =>
          let plex := PlexImage thumbPath token in
          (match fetchImage plex with
           | Rejected => SendError 500 "Failed to fetch poster"
           | Responded false _ _ => SendError 404 "Poster not found"
           | Responded true _ None => SendError 500 "Failed to fetch poster"
           | Responded true contentType (Some image) =>
               SendImage (contentTypeOf contentType) image
           end, log ++ [tautulli; plex])
      end
  end.

(** [app.get('/api/poster')] (lines 127-202) for the query parameters
    [thumb] and [ratingKey], each given at most once. *)
Definition getPoster (thumb ratingKey : option string)
  : Reply Image * list Request :=
  match present thumb, present ratingKey with
  | Some thumbPath, _ => sendPoster thumbPath []
  | None, Some key =>
      match metadataThumb key with
      | None => (SendError 500 "Failed to fetch poster", [TautulliMetadata key])
      | Some thumbPath =>
          match present thumbPath with
          | Some thumbPath => sendPoster thumbPath [TautulliMetadata key]
          | None => (SendError 404 "Poster not found", [TautulliMetadata key])
          end
      end
  | None, None => (SendError 404 "Poster not found", [])
  end.

End Poster.

End Proxy.


(** *** server.js: [app.get('/api/history')] (lines 38-107) *)

Module History.

Import Server.

(** [v.name] on a parsed JSON value other than [null]: [None] is
    [undefined].  The fields of a parsed object have distinct names. *)
Fixpoint field_of (name : string) (fields : list (string * json))
  : option json :=
  match fields with
  | [] => None
  | (n, v) :: rest => if decide (n = name) then Some v else field_of name rest
  end.

Definition prop (name : string) (v : json) : option json :=
  match v with
  | JObj fields => field_of name fields
  | _ => None
  end.

(** [o?.name]. *)
Definition opt_prop (name : string) (o : option json) : option json :=
  match o with
  | None | Some JNull => None
  | Some v => prop name v
  end.

(** [data.response?.data?.data] for [data] other than [null]. *)
Definition historyItems (data : json) : option json :=
  opt_prop "data" (opt_prop "data" (prop "response" data)).

(** [o.name = v] on an object that has the field. *)
Fixpoint set_field (name : string) (v : json) (fields : list (string * json))
  : list (string * json) :=
  match fields with
  | [] => [(name, v)]
  | (n, old) :: rest =>
      if decide (n = name) then (n, v) :: rest
      else (n, old) :: set_field name v rest
  end.

(** [data.response.data.data = items]. *)
Definition set_historyItems (items : json) (data : json) : json :=
  match data with
  | JObj top =>
      match field_of "response" top with
      | Some (JObj response) =>
          match field_of "data" response with
          | Some (JObj inner) =>
              JObj (set_field "response"
                      (JObj (set_field "data"
                               (JObj (set_field "data" items inner))
                               response)) top)
          | _ => data
          end
      | _ => data
      end
  | _ => data
  end.

(** [item.media_type === media_type]; [None] when the access throws. *)
Definition sameType (media_type : string) (item : json) : option bool :=
  match item with
  | JNull => None
  | _ => Some match prop "media_type" item with
              | Some (JStr s) => bool_decide (s = media_type)
              | _ => false
              end
  end.

(** [items.filter(item => item.media_type === media_type)]; [None] when
    the callback throws. *)
Fixpoint filterItems (media_type : string) (items : list json)
  : option (list json) :=
  match items with
  | [] => Some []
  | item :: rest =>
      match sameType media_type item with
      | None => None
      | Some keep =>
          match filterItems media_type rest with
          | None => None
          | Some kept => Some (if keep then item :: kept else kept)
          end
      end
  end.

(** Lines 81-86 on the parsed body; [None] when a [TypeError] is
    thrown. *)
Definition filterHistory (media_type : option string) (data : json)
  : option json :=
  match data with
  | JNull => None
  | _ =>
      match historyItems data, media_type with
      | Some found, Some wanted =>
          if falsy (Some found) then Some data
          else match found with
               | JArr items =>
                   match filterItems wanted items with
                   | Some kept => Some (set_historyItems (JArr kept) data)
                   | None => None
                   end
               | _ => None
               end
      | _, _ => Some data
      end
  end.

(** What Tautulli does with the request: the request is aborted after
    60 seconds, fails otherwise, or is answered, with the [ok] flag and
    the parsed body ([None] when the body is not JSON). *)
Inductive Upstream : Type :=
| Aborted
| Failed
| Answered (ok : bool) (body : option json).

Inductive Reply : Type :=
| Json (data : json)
| Error (status : Z) (error : string).

Section Handler.

(** Tautulli's answer to [get_history] with the given [media_type]
    parameter. *)
Variable tautulli : string → Upstream.

(** The handler, for a [media_type] query parameter given at most
    once. *)
Definition getHistory (media_type : option string) : Reply :=
  let asked := default "movie"%string (Proxy.present media_type) in
  match tautulli asked with
  | Aborted =>
      Error 504
        "Request timeout - Tautulli server is taking too long to respond"
  | Failed | Answered false _ | Answered true None =>
      Error 500 "Failed to fetch history"
  | Answered true (Some data) =>
      match filterHistory (Proxy.present media_type) data with
      | Some data' => Json data'
      | None => Error 500 "Failed to fetch history"
      end
  end.

End Handler.

End History.


(** *** The data fetch script (unnamed part 000): posters for the
    static site *)

Module FetchScript.

Import Proxy.

(** [batchSize]. *)
Definition batchSize : nat := 10.

(** The values that [i] takes in
    [for (let i = 0; i < n; i += batchSize)]. *)
Definition batchStarts (n : nat) : list nat :=
  map (λ j, j * batchSize)%nat (seq 0 ((n + (batchSize - 1)) / batchSize)).

(** [entries.slice(i, i + batchSize)] for each of them. *)
Definition batchesOf {A : Type} (entries : list A) : list (list A) :=
  map (λ i, take batchSize (drop i entries)) (batchStarts (length entries)).

(** The callback that fills [uniqueMovies] (lines 135-139) from the
    [rating_key] and [thumb] of a history record. *)
Definition recordThumb (uniqueMovies : list (Js.key * string))
    (movie : Js.key * option string) : list (Js.key * string) :=
  match present movie.2 with
  | Some thumb =>
      if Js.key_truthy movie.1
         && negb (bool_decide (is_Some (JsMap.get movie.1 uniqueMovies)))
      then JsMap.set movie.1 thumb uniqueMovies
      else uniqueMovies
  | None => uniqueMovies
  end.

(** [Array.from(uniqueMovies.entries())]. *)
Definition movieEntries (movies : list (Js.key * option string))
  : list (Js.key * string) :=
  foldl recordThumb [] movies.

Section Posters.

Context {Image : Type}.

(** The posters directory: the files it holds, and whether
    [writeFileSync] succeeds (it throws otherwise). *)
Record Dir : Type := mkDir {
  posters : gmap string Image;
  writable : bool;
}.

Variable PLEX_URL : option string.
Variable PLEX_TOKEN : option string.
Variable fetchImage : Request → Fetched Image.

(** [join(postersDir, `${ratingKey}.jpg`)]. *)
Variable posterPath : Js.key → string.

(** [PLEX_URL && PLEX_TOKEN && PLEX_TOKEN !== 'your_plex_token_here']. *)
Definition plexConfigured : option string :=
  match present PLEX_URL with
  | Some _ => plexToken PLEX_TOKEN
  | None => None
  end.

(** What one call of [downloadPoster] (lines 44-112) does, given whether
    the poster file exists when the call starts: the value it returns,
    the image it writes to the poster file (if any) and the requests it
    makes. *)
Definition downloadPoster (existing writable : bool)
    (thumbPath : option string) : bool * option Image * list Request :=
  if existing then (true, None, [])
  else
    match present thumbPath with
    | None => (false, None, [])
    | Some thumbPath =>
        let tautulli := TautulliImage thumbPath in
        match fetchImage tautulli, writable with
        | Responded true _ (Some image), true =>
            (true, Some image, [tautulli])
        | _, _ =>
            match plexConfigured with
            | Some token =>
                let plex := PlexImage thumbPath token in
                match fetchImage plex, writable with
                | Responded true _ (Some image), true =>
                    (true, Some image, [tautulli; plex])
                | _, _ => (false, None, [tautulli; plex])
                end
            | None => (false, None, [tautulli])
            end
        end
    end.

(** The counters of [generateStaticData] and the directory. *)
Record Progress : Type := mkProgress {
  dir : Dir;
  downloaded : nat;
  skipped : nat;
  errorCount : nat;
  requests : list Request;
}.

(** One call of a batch and the counting of its result (lines 152-162).
    The calls of a batch are started together, so each tests the
    existence of its file against the directory [atStart] as it is when
    the batch starts; the files are written as the downloads complete,
    here in the order of the batch. *)
Definition recordResult (atStart : Dir) (acc : Progress)
    (entry : Js.key * string) : Progress :=
  let existing :=
    bool_decide (is_Some (posters atStart !! posterPath entry.1)) in
  let '(success, image, log) :=
    downloadPoster existing (writable atStart) (Some entry.2) in
  {| dir :=
       match image with
       | Some image =>
           {| posters := <[posterPath entry.1 := image]> (posters (dir acc));
              writable := writable (dir acc) |}
       | None => dir acc
       end;
     downloaded := if success then S (downloaded acc) else downloaded acc;
     skipped := if success then skipped acc else S (skipped acc);
     errorCount := if success then errorCount acc else S (errorCount acc);
     requests := requests acc ++ log |}.

(** One batch (lines 150-162). *)
Definition downloadBatch (p : Progress) (batch : list (Js.key * string))
  : Progress :=
  foldl (recordResult (dir p)) p batch.

(** The loop of lines 141-168 over the entries of [uniqueMovies]. *)
Definition downloadAll (start : Dir) (entries : list (Js.key * string))
  : Progress :=
  foldl downloadBatch
    {| dir := start; downloaded := 0; skipped := 0; errorCount := 0;
       requests := [] |}
    (batchesOf entries).

End Posters.

End FetchScript.


(** *** MoviesView.jsx: the active tab *)

Module MoviesTab.

Section Host.

(** Host built-ins: [parseInt(s)] and [n.toString()] of an integer. *)
Variable parseInt : string → Js.num.
Variable toString : Z → string.

(** [y.toString()] of a year of [uniqueYears]. *)
Definition yearToString (y : Js.num) : string :=
  match y with
  | Js.Int z => toString z
  | Js.NaN => "NaN"
  end.

(** [getInitialTab] (lines 18-27) for the [tab] parameter of the URL. *)
Definition getInitialTab (tab : option string) : string :=
  default "current"%string (Proxy.present tab).

(** [uniqueYears.includes(x)]; [includes] finds [NaN]. *)
Definition includes (x : Js.num) (uniqueYears : list Js.num) : bool :=
  bool_decide (x ∈ uniqueYears).

(** The tab after a load (lines 262-275); [activeTab] is the tab before,
    which stays when no branch calls [setActiveTab]. *)
Definition tabAfterLoad (urlTab : option string) (currentYear : Z)
    (uniqueYears : list Js.num) (activeTab : string) : string :=
  let byDefault :=
    if includes (Js.Int currentYear) uniqueYears then "current"%string
    else match uniqueYears with
         | y :: _ => yearToString y
         | [] => activeTab
         end in
  match Proxy.present urlTab with
  | Some t =>
      if bool_decide (t = "ranking"%string) || bool_decide (t = "admin"%string)
         || includes (parseInt t) uniqueYears
      then if decide (t = toString currentYear) then "current"%string else t
      else byDefault
  | None => byDefault
  end.

(** The argument that the per-year helpers make of the active tab. *)
Definition tabOf (activeTab : string) : Tab :=
  if decide (activeTab = "current"%string) then TabCurrent
  else TabYear (parseInt activeTab).

End Host.

End MoviesTab.


(** *** config.js: the path of the static data *)

Module Config.

(** [s.endsWith('/')]; the slash is character 47. *)
Fixpoint endsWithSlash (s : string) : bool :=
  match s with
  | EmptyString => false
  | String c EmptyString => bool_decide (c = Ascii.ascii_of_nat 47)
  | String _ rest => endsWithSlash rest
  end.

(** [s.slice(0, -1)]: [s] without its last character. *)
Fixpoint sliceLast (s : string) : string :=
  match s with
  | EmptyString => EmptyString
  | String c EmptyString => EmptyString
  | String c rest => String c (sliceLast rest)
  end.

(** [import.meta.env.BASE_URL || '/']. *)
Definition BASE_URL (env : option string) : string := Js.str_or env "/".

(** [normalizedBase] (line 17). *)
Definition normalizedBase (env : option string) : string :=
  if decide (BASE_URL env = "/"%string) then EmptyString
  else if endsWithSlash (BASE_URL env) then sliceLast (BASE_URL env)
  else BASE_URL env.

(** [STATIC_DATA_PATH] (line 18). *)
Definition STATIC_DATA_PATH (env : option string) : string :=
  if decide (BASE_URL env = "/"%string) then "/data"%string
  else (normalizedBase env +:+ "/data")%string.

End Config.


(** ** Sample inputs, for running the model *)

Module Sample.

(** A host in the UTC time zone, whose [Date.parse] and [Number] reject
    every string. *)
Definition noDate : string → option Z := λ _, None.
Definition notANumber : string → Js.num := λ _, Js.NaN.

(** The ranking X, Y, Z of the specification's scenario; X was first
    watched in 2022 and again in 2023, Y and Z first in 2023. *)
Definition rankedXYZ : list RankingEntry :=
  [mkRankingEntry (Js.KStr "X") "X"; mkRankingEntry (Js.KStr "Y") "Y";
   mkRankingEntry (Js.KStr "Z") "Z"].

Definition watchedXYZ : list Movies.ProcessedMovie :=
  Movies.allWatchData
    (Movies.aggregate utcFullYear noDate notANumber 0
       [ {| Movies.date := Js.DateNumber 1690000000; Movies.title := Some "X"%string;
            Movies.rating_key := Js.KStr "X"; Movies.duration := 5400 |};
         {| Movies.date := Js.DateNumber 1685000000; Movies.title := Some "Z"%string;
            Movies.rating_key := Js.KStr "Z"; Movies.duration := 5400 |};
         {| Movies.date := Js.DateNumber 1680000000; Movies.title := Some "Y"%string;
            Movies.rating_key := Js.KStr "Y"; Movies.duration := 5400 |};
         {| Movies.date := Js.DateNumber 1660000000; Movies.title := Some "X"%string;
            Movies.rating_key := Js.KStr "X"; Movies.duration := 5400 |} ]).

(** Movie 1 watched on 2023-11-14 and again on 2024-03-09. *)
Definition movieEvent (k ts : Z) : Movies.Movie :=
  {| Movies.date := Js.DateNumber ts; Movies.title := Some "A"%string;
     Movies.rating_key := Js.KNum k; Movies.duration := 7200 |}.

Definition watchedTwice : list Movies.ProcessedMovie :=
  Movies.allWatchData
    (Movies.aggregate utcFullYear noDate notANumber 0
       [movieEvent 1 1700000000; movieEvent 1 1710000000]).

Definition rankedMovie : RankingEntry := mkRankingEntry (Js.KNum 1) "A".



(** An episode of show [k] titled [t], released in 2019, watched at
    [ts]. *)
Definition episodeOf (k : Z) (t : string) (ts : Z) : TV.Episode :=
  {| TV.media_type := "episode"; TV.grandparent_title := Some t;
     TV.parent_title := Some "Season 1"%string;
     TV.grandparent_rating_key := Js.KNum k;
     TV.parent_rating_key := Js.KNum (10 * k);
     TV.rating_key := Js.KNum ts;
     TV.date := Js.DateNumber ts; TV.duration := 1800;
     TV.thumb := None; TV.year := Some 2019 |}.

(** Show 7, released in 2019, with one episode watched on 2024-03-09. *)
Definition shows2024 : list TV.ProcessedShow :=
  TV.displayShows TV.asciiToLowerCase TV.asciiTrim
    (TV.processedShows utcFullYear noDate 0 [episodeOf 7 "Show" 1710000000]).

Definition rankedShow : RankingEntry := mkRankingEntry (Js.KNum 7) "Show".

(** The same series under two identities: show 7, "The Office", with two
    episodes, and show 8, " the office", with one later episode. *)
Definition officeEpisodes : list TV.Episode :=
  [episodeOf 7 "The Office" 1700000000; episodeOf 8 " the office" 1710000000;
   episodeOf 7 "The Office" 1700003600].

Definition officeShows : list TV.ProcessedShow :=
  TV.processedShows utcFullYear noDate 0 officeEpisodes.

(** One series that the media server holds twice, under the same title:
    show 7 with two episodes and show 8 with one later episode. *)
Definition officeTwice : list TV.Episode :=
  [episodeOf 7 "The Office" 1700000000; episodeOf 8 "The Office" 1710000000;
   episodeOf 7 "The Office" 1700003600].

End Sample.

(** Movie 1 watched on 2023-11-14 and on 2024-03-09, movie 2 on
    2024-01-11. *)
Module SampleHistory.

Definition events : list Movies.Movie :=
  [Sample.movieEvent 1 1700000000; Sample.movieEvent 2 1705000000;
   Sample.movieEvent 1 1710000000].

Definition aggregated : Movies.Aggregated :=
  Movies.aggregate utcFullYear Sample.noDate Sample.notANumber 0 events.

End SampleHistory.


(** A host whose [parseInt] reads the years 2023, 2024 and 2026. *)
Module SampleHost.

Definition toString (z : Z) : string := pretty z.

Definition parseInt (s : string) : Js.num :=
  if decide (s = "2023"%string) then Js.Int 2023
  else if decide (s = "2024"%string) then Js.Int 2024
  else if decide (s = "2026"%string) then Js.Int 2026
  else Js.NaN.

End SampleHost.


(** A data directory holding a movie ranking with one entry. *)
Module SampleFiles.

Definition dir : string := "/srv/public/data".

Definition entry (k : Z) (t : string) : Server.json :=
  Server.JObj [("rating_key"%string, Server.JNum k);
               ("title"%string, Server.JStr t)].

Definition disk : Server.FS :=
  {| Server.files :=
       {[ "/srv/public/data/movie-rankings.json"%string
            := Server.JsonText (Server.JArr [entry 1 "A"]) ]};
     Server.writable := true |}.

End SampleFiles.

(** ** Predicates used in the statements *)

(** No two neighbours of the list carry the same [rating_key]. *)
Definition NoAdjacentDuplicate (l : list Movies.ProcessedMovie) : Prop :=
  ∀ (i : nat) a b,
    l !! i = Some a → l !! S i = Some b →
    Movies.rating_key (Movies.raw a) ≠ Movies.rating_key (Movies.raw b).

(** The Unix timestamp of an event whose [date] is a number. *)
Definition timestampOf (m : Movies.ProcessedMovie) : Z :=
  match Movies.date (Movies.raw m) with
  | Js.DateNumber n => n
  | _ => 0
  end.

Definition HasNumericDate (m : Movies.ProcessedMovie) : Prop :=
  ∃ n, Movies.date (Movies.raw m) = Js.DateNumber n.

(** [b] is not more recent than [a]. *)
Definition NotAfter (a b : Movies.ProcessedMovie) : Prop :=
  timestampOf b ≤ timestampOf a.

(** [y] is the earliest year in which the movie [k] was watched. *)
Definition FirstWatchYear (watchYear : Movies.ProcessedMovie → Js.num)
    (allWatchData : list Movies.ProcessedMovie) (k : Js.key) (y : Z) : Prop :=
  (∃ m, m ∈ allWatchData ∧ Movies.rating_key (Movies.raw m) = k
        ∧ watchYear m = Js.Int y)
  ∧ (∀ m y', m ∈ allWatchData → Movies.rating_key (Movies.raw m) = k →
             watchYear m = Js.Int y' → y ≤ y').

(** Every watch event has a valid date in a year other than 0. *)
Definition ValidYears (watchYear : Movies.ProcessedMovie → Js.num)
    (allWatchData : list Movies.ProcessedMovie) : Prop :=
  ∀ m, m ∈ allWatchData → ∃ y, watchYear m = Js.Int y ∧ y ≠ 0.

(** The invariant of the title-merging loop after the objects of index
    below [k] have been visited. *)
Record MergeInvariant (toLowerCase trim : string → string)
    (heap : list TV.ProcessedShow) (k : nat)
    (st : TV.MergeState) : Prop := mkMergeInvariant {
  (* the title map points into the array, at objects of that title *)
  inv_byTitle : ∀ t r,
    TV.showsByTitle st !! t = Some r →
    r ∈ TV.deduplicatedShows st
    ∧ ∃ s, heap !! r = Some s
           ∧ TV.normalizedTitle toLowerCase trim s = t;
  (* every object of the array is the one registered for its title *)
  inv_array : ∀ r,
    r ∈ TV.deduplicatedShows st →
    ∃ s, heap !! r = Some s
         ∧ TV.showsByTitle st
             !! TV.normalizedTitle toLowerCase trim s = Some r;
  inv_NoDup : NoDup (TV.deduplicatedShows st);
  inv_visited : ∀ r, r ∈ TV.deduplicatedShows st → (r < k)%nat;
  (* no visited object beats the one registered for its title *)
  inv_best : ∀ j s,
    (j < k)%nat → heap !! j = Some s →
    ∃ r e,
      TV.showsByTitle st !! TV.normalizedTitle toLowerCase trim s
        = Some r
      ∧ heap !! r = Some e ∧ TV.better s e = false;
}.

(** A cache state as one cache object produces it while the clock reads
    at most [clock]: no timestamp lies in the future, and a copy in
    memory is never older than the copy of the same key in the object
    store. *)
Record Coherent {V : Type} (clock : Z) (st : Cache.State V) : Prop :=
  mkCoherent {
  coh_memory : ∀ key e,
    Cache.memoryCache st !! key = Some e → Cache.timestamp e ≤ clock;
  coh_store : ∀ key e,
    Cache.store st !! key = Some e → Cache.timestamp e ≤ clock;
  coh_tiers : ∀ key e e',
    Cache.memoryCache st !! key = Some e → Cache.store st !! key = Some e' →
    Cache.timestamp e' ≤ Cache.timestamp e;
}.

(** [b] is a year not later than the year [a]. *)
Definition YearNotAfter (a b : Js.num) : Prop :=
  ∃ x y, a = Js.Int x ∧ b = Js.Int y ∧ y ≤ x.

(** The sum of the durations of a list of episode records. *)
Definition durationOf (l : list TV.Episode) : Z :=
  foldr (λ e acc, TV.duration e + acc) 0 l.

(** The episode records of the snapshot that belong to the show of
    identity [k], in the order of the snapshot. *)
Definition episodesOf (showData : list TV.Episode) (k : Js.key)
  : list TV.Episode :=
  filter (λ e, TV.media_type e = "episode"%string ∧ TV.showKeyOf e = k)
    showData.

(** What the grouping loop has accumulated in the value [s] of the key
    [k] once the records [showData] have been visited. *)
Record Accumulated (watchDate : TV.Episode → Js.date)
    (showData : list TV.Episode) (k : Js.key) (s : TV.Show) : Prop :=
  mkAccumulated {
  acc_key : TV.s_rating_key s = k;
  acc_episodes : TV.episodes s = episodesOf showData k;
  acc_first_record : ∃ e0 rest,
    TV.episodes s = e0 :: rest ∧ TV.s_title s = TV.showTitleOf e0;
  acc_duration : TV.totalDuration s = durationOf (TV.episodes s);
  acc_last : ∃ e, e ∈ TV.episodes s ∧ TV.lastWatched s = watchDate e;
  acc_last_max : ∀ e,
    e ∈ TV.episodes s →
    Js.gt (Js.valueOf (watchDate e)) (Js.valueOf (TV.lastWatched s)) = false;
  acc_first : ∃ e, e ∈ TV.episodes s ∧ TV.firstWatched s = watchDate e;
  acc_first_min : ∀ e,
    e ∈ TV.episodes s →
    Js.lt (Js.valueOf (watchDate e)) (Js.valueOf (TV.firstWatched s)) = false;
}.

(** The show [b] was last watched not later than the show [a]. *)
Definition ShowNotAfter (a b : TV.ProcessedShow) : Prop :=
  ∃ x y, TV.watchDate a = Js.Instant x ∧ TV.watchDate b = Js.Instant y
         ∧ y ≤ x.

(** The clock readings of the calls [ops] never run backwards, starting
    from the reading [clock]. *)
Fixpoint Chronological {V : Type} (clock : Z)
    (ops : list (CacheSession.Op V)) : Prop :=
  match ops with
  | [] => True
  | CacheSession.OpGet now later _ :: ops =>
      clock ≤ now ∧ now ≤ later ∧ Chronological later ops
  | CacheSession.OpSet now _ _ :: ops => clock ≤ now ∧ Chronological now ops
  | CacheSession.OpClear :: ops => Chronological clock ops
  end.

(** What holds of the progress record of the poster loop once the
    entries [finished] have been processed, starting from the directory
    [start]. *)
Definition Processed {Image : Type} (posterPath : Js.key → string)
    (start : FetchScript.Dir (Image := Image))
    (finished : list (Js.key * string))
    (p : FetchScript.Progress (Image := Image)) : Prop :=
  (FetchScript.downloaded p + FetchScript.skipped p = length finished)%nat
  ∧ FetchScript.errorCount p = FetchScript.skipped p
  ∧ FetchScript.writable (FetchScript.dir p) = FetchScript.writable start
  ∧ (∀ path image,
       FetchScript.posters start !! path = Some image →
       FetchScript.posters (FetchScript.dir p) !! path = Some image)
  ∧ (∀ path,
       is_Some (FetchScript.posters (FetchScript.dir p) !! path) →
       is_Some (FetchScript.posters start !! path)
       ∨ ∃ entry, entry ∈ finished ∧ path = posterPath entry.1).

(** [y] is the latest year in which the series [k] was read. *)
Definition LatestReadYear (readYear : Comics.ProcessedComic → option Js.num)
    (reads : list Comics.ProcessedComic) (k : Js.key) (y : Z) : Prop :=
  (∃ c, c ∈ reads
        ∧ Js.key_or (Comics.seriesId c) (Comics.rating_key c) = k
        ∧ readYear c = Some (Js.Int y))
  ∧ (∀ c y', c ∈ reads →
             Js.key_or (Comics.seriesId c) (Comics.rating_key c) = k →
             readYear c = Some (Js.Int y') → y' ≤ y).

(** Every read has a valid date in a year other than 0. *)
Definition ValidReadYears (readYear : Comics.ProcessedComic → option Js.num)
    (reads : list Comics.ProcessedComic) : Prop :=
  ∀ c, c ∈ reads → ∃ y, readYear c = Some (Js.Int y) ∧ y ≠ 0.


(** * Properties *)

(** ** The sort model *)

Lemma sort_insert_Permutation {A} (cmp : A → A → Js.num) x l :
  Js.sort_insert cmp x l ≡ₚ x :: l.
Proof.
  induction l as [|y l IH]; simpl; [done|].
  destruct (Js.positive_result (cmp x y)); [|done].
  rewrite IH. apply Permutation_swap.
Qed.

Lemma sort_Permutation {A} (cmp : A → A → Js.num) l : Js.sort cmp l ≡ₚ l.
Proof.
  induction l as [|x l IH]; simpl; [done|].
  unfold Js.sort in *. simpl. rewrite sort_insert_Permutation. by rewrite IH.
Qed.

Lemma sort_length {A} (cmp : A → A → Js.num) l :
  length (Js.sort cmp l) = length l.
Proof. apply Permutation_length, sort_Permutation. Qed.

Example utcFullYear_2023 : utcFullYear 1700000000000 = 2023.
Proof. reflexivity. Qed.

Example utcFullYear_new_year :
  utcFullYear 1704067199999 = 2023 ∧ utcFullYear 1704067200000 = 2024.
Proof. split; reflexivity. Qed.

(** ** Movies: collapsing consecutive duplicates *)

Section MoviesDedup.

Import Movies.

Local Abbreviation key m := (rating_key (raw m)).

(** The first element that [dedupFrom previous] keeps differs from
    [previous]. *)
Lemma dedupFrom_head previous l x out :
  dedupFrom previous l = x :: out → key x ≠ key previous.
Proof.
  revert previous. induction l as [|current rest IH]; intros previous; simpl.
  - discriminate.
  - destruct (decide (key current ≠ key previous)) as [Hne|Heq].
    + intros [= <- _]. exact Hne.
    + intros Hd. apply dec_stable in Heq. rewrite <- Heq. by eapply IH.
Qed.

Lemma NoAdjacentDuplicate_cons x y l :
  key x ≠ key y → NoAdjacentDuplicate (y :: l) → NoAdjacentDuplicate (x :: y :: l).
Proof.
  intros Hxy Hl [|i] a b; simpl.
  - by intros [= <-] [= <-].
  - apply Hl.
Qed.

Lemma NoAdjacentDuplicate_tail x l :
  NoAdjacentDuplicate (x :: l) → NoAdjacentDuplicate l.
Proof. intros Hl i a b. apply (Hl (S i)). Qed.

Lemma NoAdjacentDuplicate_single x : NoAdjacentDuplicate [x].
Proof. intros [|i] a b; simpl; [done|]. by destruct i. Qed.

Lemma dedupFrom_NoAdjacentDuplicate previous l :
  NoAdjacentDuplicate (previous :: dedupFrom previous l).
Proof.
  revert previous. induction l as [|current rest IH]; intros previous; simpl.
  - apply NoAdjacentDuplicate_single.
  - destruct (decide (key current ≠ key previous)) as [Hne|Heq].
    + apply NoAdjacentDuplicate_cons; [done|apply IH].
    + apply dec_stable in Heq.
      destruct (dedupFrom current rest) as [|x out] eqn:Hd.
      * apply NoAdjacentDuplicate_single.
      * apply NoAdjacentDuplicate_cons.
        -- rewrite <- Heq. intros Hx. by eapply dedupFrom_head.
        -- specialize (IH current). rewrite Hd in IH.
           by eapply NoAdjacentDuplicate_tail.
Qed.

Lemma deduplicate_NoAdjacentDuplicate l :
  NoAdjacentDuplicate (deduplicate l).
Proof.
  destruct l as [|first rest]; simpl.
  - by intros i a b.
  - apply dedupFrom_NoAdjacentDuplicate.
Qed.

(** On a list without adjacent duplicates the loop keeps everything. *)
Lemma dedupFrom_fixed previous l :
  NoAdjacentDuplicate (previous :: l) → dedupFrom previous l = l.
Proof.
  revert previous. induction l as [|current rest IH]; intros previous Hl; simpl.
  - done.
  - destruct (decide (key current ≠ key previous)) as [Hne|Heq].
    + f_equal. apply IH. by eapply NoAdjacentDuplicate_tail.
    + exfalso. apply Heq. intros E. by apply (Hl 0%nat previous current).
Qed.

Lemma deduplicate_fixed l : NoAdjacentDuplicate l → deduplicate l = l.
Proof.
  destruct l as [|first rest]; simpl; [done|].
  intros Hl. f_equal. by apply dedupFrom_fixed.
Qed.

Lemma dedupFrom_sublist previous l : dedupFrom previous l `sublist_of` l.
Proof.
  revert previous. induction l as [|current rest IH]; intros previous; simpl.
  - done.
  - destruct (decide _); [apply sublist_skip|apply sublist_cons]; apply IH.
Qed.

Lemma deduplicate_sublist l : deduplicate l `sublist_of` l.
Proof.
  destruct l as [|first rest]; simpl; [done|].
  apply sublist_skip, dedupFrom_sublist.
Qed.



End MoviesDedup.

Section MoviesAggregate.

Import Movies.

Variable localFullYear : Z → Z.
Variable dateParse : string → option Z.
Variable stringToNumber : string → Js.num.

Local Abbreviation processMovie := (Movies.processMovie localFullYear dateParse).
Local Abbreviation aggregate :=
  (Movies.aggregate localFullYear dateParse stringToNumber).

(** C3.  The display list built from the sorted events has no two
    neighbours with the same [rating_key], collapsing it again changes
    nothing, and the complete sorted event list is kept next to it: it is
    a rearrangement of all processed events, and the display list is a
    sublist of it.  The first two facts hold for every input list, sorted
    or not. *)
Theorem consecutive_dedup_idempotent_full_list_kept :
  (∀ l : list ProcessedMovie,
      NoAdjacentDuplicate (deduplicate l)
      ∧ deduplicate (deduplicate l) = deduplicate l)
  ∧ (∀ (now : Z) (movieData : list Movie),
      let agg := aggregate now movieData in
      allWatchData agg ≡ₚ map (processMovie now) movieData
      ∧ length (allWatchData agg) = length movieData
      ∧ deduplicatedMovies agg = deduplicate (allWatchData agg)
      ∧ deduplicatedMovies agg `sublist_of` allWatchData agg).
Proof.
  split.
  - intros l. split.
    + apply deduplicate_NoAdjacentDuplicate.
    + apply deduplicate_fixed, deduplicate_NoAdjacentDuplicate.
  - intros now movieData agg. subst agg. unfold Movies.aggregate. simpl.
    split_and!.
    + apply sort_Permutation.
    + by rewrite sort_length, length_map.
    + done.
    + apply deduplicate_sublist.
Qed.


End MoviesAggregate.



(** With numeric dates, as the history service delivers them, the sort
    puts the most recent event first. *)
Section MoviesSorted.

Import Movies.

Variable stringToNumber : string → Js.num.

Local Abbreviation byDateDesc := (Movies.byDateDesc stringToNumber).

Lemma byDateDesc_numeric a b :
  HasNumericDate a → HasNumericDate b →
  Js.positive_result (byDateDesc a b)
  = bool_decide (timestampOf a < timestampOf b).
Proof.
  intros [ta Ha] [tb Hb]. unfold Movies.byDateDesc, timestampOf.
  rewrite Ha, Hb. simpl. apply bool_decide_ext. lia.
Qed.

Lemma sort_insert_descending x l :
  HasNumericDate x → Forall HasNumericDate l →
  StronglySorted NotAfter l →
  StronglySorted NotAfter (Js.sort_insert byDateDesc x l).
Proof.
  intros Hx Hl Hsorted. induction Hsorted as [|y l Hsorted IH Hy]; simpl.
  - repeat constructor.
  - apply Forall_cons in Hl as [Hny Hl].
    rewrite byDateDesc_numeric by done. case_bool_decide as Hlt.
    + constructor; [by apply IH|].
      rewrite sort_insert_Permutation. constructor; [|done].
      unfold NotAfter. lia.
    + constructor; [by constructor|]. constructor.
      * unfold NotAfter. lia.
      * eapply Forall_impl; [exact Hy|]. unfold NotAfter. intros z Hz. lia.
Qed.

Lemma sort_descending l :
  Forall HasNumericDate l → StronglySorted NotAfter (Js.sort byDateDesc l).
Proof.
  induction l as [|x l IH]; intros Hl; [constructor|].
  apply Forall_cons in Hl as [Hx Hl]. unfold Js.sort. simpl.
  apply sort_insert_descending; [done| |by apply IH].
  fold (Js.sort byDateDesc l). by rewrite sort_Permutation.
Qed.

End MoviesSorted.

(** The scenario of the specification: events A, A (same day) and B
    (later) give the display list B, A while both A events stay in the
    complete list. *)
Example dedup_scenario :
  let ev k ts := {| Movies.date := Js.DateNumber ts; Movies.title := None;
                    Movies.rating_key := Js.KStr k; Movies.duration := 0 |} in
  let agg := Movies.aggregate utcFullYear (λ _, None) (λ _, Js.NaN) 0
               [ev "A" 1704067200; ev "A" 1704067200; ev "B" 1717200000] in
  map (λ m, Movies.rating_key (Movies.raw m)) (Movies.deduplicatedMovies agg)
    = [Js.KStr "B"; Js.KStr "A"]
  ∧ map (λ m, Movies.rating_key (Movies.raw m)) (Movies.allWatchData agg)
    = [Js.KStr "B"; Js.KStr "A"; Js.KStr "A"].
Proof. split; reflexivity. Qed.

(** ** Top 3 of a year *)

(** The shape shared by the three views: filter the ranking list, keep
    the first three. *)
Lemma take3_filter_shape {A} (P : A → Prop) `{!∀ x, Decision (P x)}
    (l : list A) :
  let out := take 3 (filter P l) in
  out `sublist_of` l
  ∧ (length out ≤ 3)%nat
  ∧ Forall P out
  ∧ out `prefix_of` filter P l
  ∧ (∀ x, x ∈ l → P x → x ∉ out → length out = 3%nat).
Proof.
  intros out. subst out. split_and!.
  - etrans; [apply sublist_take|apply sublist_filter].
  - rewrite length_take. lia.
  - apply Forall_forall. intros x Hx.
    apply subseteq_take in Hx. by apply list_elem_of_filter in Hx as [? _].
  - apply prefix_take.
  - intros x Hx HP Hout.
    destruct (decide (length (filter P l) ≤ 3)%nat) as [Hle|Hgt].
    + exfalso. apply Hout. rewrite take_ge by done.
      by apply list_elem_of_filter.
    + rewrite length_take. lia.
Qed.

Section Top3.

Variable localFullYear : Z → Z.
Variable stringToNumber : string → Js.num.
Variable currentYear : Z.
Variable rankings : list RankingEntry.
Variable tab : Tab.

(** C1.  In each view (movies, TV, and both revisions of the comics
    view) the top 3 of a year is the ranking list filtered by that view's
    eligibility test and cut after three entries: a sublist of the
    ranking list (same relative order), of length at most 3, all of whose
    entries are eligible, and which misses an eligible ranked entry only
    when it is full.  The TV view returns the titles of the entries so
    selected. *)
Theorem top3_is_filtered_ranking_prefix :
  (∀ allWatchData : list Movies.ProcessedMovie,
     let eligible r :=
       Movies.firstWatchedIn localFullYear stringToNumber allWatchData
         (targetYear currentYear tab) r = true in
     let out :=
       Movies.getTop3ForYear localFullYear stringToNumber currentYear
         rankings allWatchData tab in
     out = take 3 (filter eligible rankings)
     ∧ out `sublist_of` rankings
     ∧ (length out ≤ 3)%nat
     ∧ Forall eligible out
     ∧ (∀ r, r ∈ rankings → eligible r → r ∉ out → length out = 3%nat))
  ∧ (∀ shows : list TV.ProcessedShow,
     let eligible r :=
       TV.releasedIn shows (targetYear currentYear tab) r = true in
     let picked := TV.yearRankings currentYear rankings shows tab in
     let out := TV.getTop3ForYear currentYear rankings shows tab in
     out = map r_title picked
     ∧ picked = take 3 (filter eligible rankings)
     ∧ picked `sublist_of` rankings
     ∧ out `sublist_of` map r_title rankings
     ∧ (length out ≤ 3)%nat
     ∧ Forall eligible picked
     ∧ (∀ r, r ∈ rankings → eligible r → r ∉ picked → length out = 3%nat))
  ∧ (∀ allReadData comics : list Comics.ProcessedComic,
     let eligible r :=
       Comics.readIn localFullYear allReadData comics
         (targetYear currentYear tab) r = true in
     let out :=
       Comics.getTop3ForYear localFullYear currentYear rankings
         allReadData comics tab in
     out = take 3 (filter eligible rankings)
     ∧ out `sublist_of` rankings
     ∧ (length out ≤ 3)%nat
     ∧ Forall eligible out
     ∧ (∀ r, r ∈ rankings → eligible r → r ∉ out → length out = 3%nat))
  ∧ (∀ allReadData : list ComicsByIssue.ProcessedComic,
     let eligible r :=
       ComicsByIssue.hasEligibleIssue localFullYear allReadData
         (targetYear currentYear tab) r = true in
     let out :=
       ComicsByIssue.getTop3ForYear localFullYear currentYear rankings
         allReadData tab in
     out = take 3 (filter eligible rankings)
     ∧ out `sublist_of` rankings
     ∧ (length out ≤ 3)%nat
     ∧ Forall eligible out
     ∧ (∀ r, r ∈ rankings → eligible r → r ∉ out → length out = 3%nat)).
Proof.
  split_and!.
  - intros allWatchData eligible out.
    destruct (take3_filter_shape eligible rankings) as (?&?&?&?&?).
    by split_and!.
  - intros shows eligible picked out.
    destruct (take3_filter_shape eligible rankings) as (Hs&Hl&?&?&Hc).
    split_and!; try done.
    + subst out. unfold TV.getTop3ForYear. by apply (fmap_sublist r_title).
    + subst out. unfold TV.getTop3ForYear. by rewrite length_map.
    + intros r ???. subst out. unfold TV.getTop3ForYear.
      rewrite length_map. by eapply Hc.
  - intros allReadData comics eligible out.
    destruct (take3_filter_shape eligible rankings) as (?&?&?&?&?).
    by split_and!.
  - intros allReadData eligible out.
    destruct (take3_filter_shape eligible rankings) as (?&?&?&?&?).
    by split_and!.
Qed.

End Top3.

(** The scenario of the specification: ranking X, Y, Z with Y and Z
    eligible for 2023 gives Y, Z; X is left out and the order of the
    ranking is kept. *)
Lemma top3_scenario :
  let out := Movies.getTop3ForYear utcFullYear Sample.notANumber 2026
               Sample.rankedXYZ Sample.watchedXYZ (TabYear (Js.Int 2023)) in
  map r_title out = ["Y"; "Z"]%string
  ∧ out `sublist_of` Sample.rankedXYZ
  ∧ (length out ≤ 3)%nat.
Proof.
  intros out.
  destruct (top3_is_filtered_ranking_prefix utcFullYear Sample.notANumber
              2026 Sample.rankedXYZ (TabYear (Js.Int 2023)))
    as (Hmovies & _).
  destruct (Hmovies Sample.watchedXYZ) as (_ & Hsub & Hlen & _).
  split_and!; [reflexivity|apply Hsub|apply Hlen].
Defined.

(** ** Eligibility for the top 3 *)

Section MoviesEligibility.

Import Movies.

Variable localFullYear : Z → Z.
Variable stringToNumber : string → Js.num.

Local Abbreviation key m := (rating_key (raw m)).
Local Abbreviation watchYearOf :=
  (Movies.watchYearOf localFullYear stringToNumber).
Local Abbreviation firstWatchDates :=
  (Movies.firstWatchDates localFullYear stringToNumber).
Local Abbreviation recordFirstWatch :=
  (Movies.recordFirstWatch localFullYear stringToNumber).

Lemma FirstWatchYear_unique all k y1 y2 :
  FirstWatchYear watchYearOf all k y1 → FirstWatchYear watchYearOf all k y2 →
  y1 = y2.
Proof.
  intros [(m1&?&?&?) Hmin1] [(m2&?&?&?) Hmin2].
  pose proof (Hmin1 m2 y2). pose proof (Hmin2 m1 y1). naive_solver lia.
Qed.

Lemma FirstWatchYear_snoc_other all m k y :
  key m ≠ k →
  FirstWatchYear watchYearOf (all ++ [m]) k y
  ↔ FirstWatchYear watchYearOf all k y.
Proof.
  intros Hne. unfold FirstWatchYear. split.
  - intros [(m' & Hm' & Hk & Hy) Hmin]. split.
    + exists m'. split_and!; try done.
      apply elem_of_app in Hm' as [?| ->%list_elem_of_singleton]; [done|].
      by destruct Hne.
    + intros m'' y' Hin. apply Hmin, elem_of_app. by left.
  - intros [(m' & Hm' & Hk & Hy) Hmin]. split.
    + exists m'. split_and!; try done. apply elem_of_app. by left.
    + intros m'' y' [?| ->%list_elem_of_singleton]%elem_of_app; [by apply Hmin|].
      intros. by destruct Hne.
Qed.

(** What the map holds after the [forEach], when every event has a valid
    year. *)
Lemma firstWatchDates_lookup all k :
  ValidYears watchYearOf all →
  match firstWatchDates all !! k with
  | None => Js.key_truthy k = false ∨ ∀ m, m ∈ all → key m ≠ k
  | Some v =>
      Js.key_truthy k = true
      ∧ ∃ y, v = Js.Int y ∧ y ≠ 0 ∧ FirstWatchYear watchYearOf all k y
  end.
Proof.
  induction all as [|m all IH] using rev_ind; intros Hvalid.
  { right. intros m Hm. by apply elem_of_nil in Hm. }
  assert (ValidYears watchYearOf all) as Hvalid'.
  { intros m' Hm'. apply Hvalid, elem_of_app. by left. }
  specialize (IH Hvalid').
  destruct (Hvalid m) as (ym & Hym & Hym0).
  { apply elem_of_app. right. by left. }
  unfold Movies.firstWatchDates in *. rewrite foldl_snoc.
  set (acc := foldl recordFirstWatch ∅ all) in *.
  destruct (decide (key m = k)) as [Hk|Hk].
  2:{ (* another movie: the entry of [k] is untouched *)
      assert (recordFirstWatch acc m !! k = acc !! k) as ->.
      { unfold Movies.recordFirstWatch.
        repeat case_match; try done; by rewrite lookup_insert_ne. }
      destruct (acc !! k) as [v|].
      - destruct IH as (Hk1 & y & -> & Hy0 & HF). split; [done|].
        exists y. split_and!; try done.
        by apply FirstWatchYear_snoc_other.
      - destruct IH as [?|Hno]; [by left|]. right.
        intros m' [?| ->%list_elem_of_singleton]%elem_of_app; [by apply Hno|done]. }
  subst k. unfold Movies.recordFirstWatch.
  destruct (Js.key_truthy (key m)) eqn:Htruthy.
  2:{ destruct (acc !! key m) as [v|]; [|by left].
      destruct IH as [? _]. congruence. }
  rewrite Hym.
  destruct (acc !! key m) as [v|] eqn:Hacc.
  - destruct IH as (_ & y & -> & Hy0 & [(m0 & Hm0 & Hk0 & Hy0') Hmin]).
    simpl. rewrite (bool_decide_eq_false_2 (y = 0)) by done. simpl.
    case_bool_decide as Hlt.
    + (* the new event is earlier *)
      rewrite lookup_insert_eq. split; [done|].
      exists ym. split_and!; try done. split.
      * exists m. split_and!; try done. apply elem_of_app. right. by left.
      * intros m' y' [Hin| ->%list_elem_of_singleton]%elem_of_app Hkey Hy'.
        -- specialize (Hmin m' y' Hin Hkey Hy'). lia.
        -- rewrite Hym in Hy'. injection Hy' as <-. lia.
    + rewrite Hacc. split; [done|].
      exists y. split_and!; try done. split.
      * exists m0. split_and!; try done. apply elem_of_app. by left.
      * intros m' y' [Hin| ->%list_elem_of_singleton]%elem_of_app Hkey Hy'.
        -- by apply (Hmin m' y' Hin Hkey Hy').
        -- rewrite Hym in Hy'. injection Hy' as <-. lia.
  - simpl. rewrite lookup_insert_eq. split; [done|].
    destruct IH as [?|Hno]; [congruence|].
    exists ym. split_and!; try done. split.
    + exists m. split_and!; try done. apply elem_of_app. right. by left.
    + intros m' y' [Hin| ->%list_elem_of_singleton]%elem_of_app Hkey Hy'.
      * by destruct (Hno m' Hin).
      * rewrite Hym in Hy'. injection Hy' as <-. lia.
Qed.

End MoviesEligibility.

Section TVEligibility.

Import TV.

Local Abbreviation key s := (s_rating_key (show s)).

(** What the map of release years holds after the [forEach], for shows
    with pairwise distinct identities. *)
Lemma releaseYearsByRatingKey_lookup (shows : list ProcessedShow) k y :
  NoDup (map (λ s, key s) shows) →
  releaseYearsByRatingKey shows !! k = Some y
  ↔ Js.key_truthy k = true ∧ y ≠ 0
    ∧ ∃ s, s ∈ shows ∧ key s = k ∧ releaseYear s = Some y.
Proof.
  revert k y. induction shows as [|s shows IH] using rev_ind; intros k y Hnd.
  { unfold releaseYearsByRatingKey. simpl. rewrite lookup_empty. split.
    - discriminate.
    - intros (_ & _ & s & Hs & _). by apply elem_of_nil in Hs. }
  rewrite map_app in Hnd. apply NoDup_app in Hnd as (Hnd & Hfresh & _).
  assert (∀ k y, releaseYearsByRatingKey shows !! k = Some y
                 ↔ Js.key_truthy k = true ∧ y ≠ 0
                   ∧ ∃ s, s ∈ shows ∧ key s = k ∧ releaseYear s = Some y)
    as IH' by (intros; by apply IH).
  clear IH. rename IH' into IH.
  assert (∀ s', s' ∈ shows → key s' ≠ key s) as Hother.
  { intros s' Hs' E. apply (Hfresh (key s')).
    - by apply (list_elem_of_fmap_2 (λ s, key s)).
    - rewrite E. left. }
  unfold releaseYearsByRatingKey in *. rewrite foldl_snoc.
  set (acc := foldl recordReleaseYear ∅ shows) in *.
  destruct (decide (key s = k)) as [Hk|Hk].
  2:{ assert (recordReleaseYear acc s !! k = acc !! k) as ->.
      { unfold recordReleaseYear.
        repeat case_match; try done; by rewrite lookup_insert_ne. }
      rewrite IH. split.
      - intros (? & ? & s' & Hs' & ? & ?). split_and!; try done.
        exists s'. split_and!; try done. apply elem_of_app. by left.
      - intros (? & ? & s' & Hs' & ? & ?). split_and!; try done.
        exists s'. split_and!; try done.
        apply elem_of_app in Hs' as [?| ->%list_elem_of_singleton]; done. }
  subst k.
  assert (acc !! key s = None) as Hnone.
  { destruct (acc !! key s) as [y'|] eqn:E; [|done].
    apply IH in E as (_ & _ & s' & Hs' & Hk' & _). by destruct (Hother s' Hs'). }
  unfold recordReleaseYear. split.
  - destruct (releaseYear s) as [ys|] eqn:Hrel.
    2:{ rewrite Hnone. discriminate. }
    destruct (Js.key_truthy (key s)) eqn:Htruthy; simpl.
    2:{ rewrite Hnone. discriminate. }
    case_bool_decide as Hz; simpl.
    { rewrite Hnone. discriminate. }
    rewrite lookup_insert_eq. intros [= <-]. split_and!; try done.
    exists s. split_and!; try done. apply elem_of_app. right. left.
  - intros (Htruthy & Hy & s' & Hs' & Hk' & Hrel).
    apply elem_of_app in Hs' as [Hs'| ->%list_elem_of_singleton].
    { by destruct (Hother s' Hs'). }
    rewrite Hrel, Htruthy. simpl.
    rewrite (bool_decide_eq_false_2 (y = 0)) by done. simpl.
    by rewrite lookup_insert_eq.
Qed.

End TVEligibility.

(** C2, as the code has it.  For movies a ranked title passes the filter
    of a year exactly when that year is the earliest year in which it was
    watched (over all watch events with its [rating_key], given valid
    watch dates); for TV exactly when the release year recorded for the
    show equals that year, whatever the years in which it was watched
    (given shows with distinct identities, as the grouping produces). *)
Theorem top3_eligibility_first_watch_or_release_year
    (localFullYear : Z → Z) (stringToNumber : string → Js.num) :
  (∀ (allWatchData : list Movies.ProcessedMovie) (target : Js.num)
     (r : RankingEntry),
     ValidYears (Movies.watchYearOf localFullYear stringToNumber)
       allWatchData →
     Movies.firstWatchedIn localFullYear stringToNumber allWatchData target r
       = true
     ↔ Js.key_truthy (r_rating_key r) = true
       ∧ ∃ y, target = Js.Int y
              ∧ FirstWatchYear
                  (Movies.watchYearOf localFullYear stringToNumber)
                  allWatchData (r_rating_key r) y)
  ∧ (∀ (shows : list TV.ProcessedShow) (target : Js.num) (r : RankingEntry),
     NoDup (map (λ s, TV.s_rating_key (TV.show s)) shows) →
     TV.releasedIn shows target r = true
     ↔ Js.key_truthy (r_rating_key r) = true
       ∧ ∃ y, target = Js.Int y ∧ y ≠ 0
              ∧ ∃ s, s ∈ shows
                     ∧ TV.s_rating_key (TV.show s) = r_rating_key r
                     ∧ TV.releaseYear s = Some y).
Proof.
  split.
  - intros all target r Hvalid. unfold Movies.firstWatchedIn.
    pose proof (firstWatchDates_lookup localFullYear stringToNumber
                  all (r_rating_key r) Hvalid) as Hlook.
    destruct (Movies.firstWatchDates _ _ all !! r_rating_key r) as [v|]; simpl.
    + destruct Hlook as (Htruthy & y & -> & Hy0 & HF). split.
      * destruct target as [|t]; simpl; [done|].
        intros ->%bool_decide_eq_true. eauto.
      * intros (_ & y' & -> & HF'). simpl. apply bool_decide_eq_true.
        by eapply FirstWatchYear_unique.
    + split; [done|]. intros (Htruthy & y & -> & (m & Hm & Hk & _) & _).
      destruct Hlook as [?|Hno]; [congruence|]. by destruct (Hno m Hm).
  - intros shows target r Hnd. unfold TV.releasedIn.
    destruct (TV.releaseYearsByRatingKey shows !! r_rating_key r) as [y|]
      eqn:Hlook; simpl.
    + apply releaseYearsByRatingKey_lookup in Hlook as (Htruthy & Hy0 & Hs);
        [|done].
      split.
      * destruct target as [|t]; simpl; [done|].
        intros ->%bool_decide_eq_true. eauto.
      * intros (_ & y' & -> & Hy' & Hs'). simpl. apply bool_decide_eq_true.
        assert (TV.releaseYearsByRatingKey shows !! r_rating_key r = Some y')
          as E' by (by apply releaseYearsByRatingKey_lookup).
        assert (TV.releaseYearsByRatingKey shows !! r_rating_key r = Some y)
          as E by (by apply releaseYearsByRatingKey_lookup).
        congruence.
    + split; [done|]. intros (Htruthy & y & -> & Hy0 & Hs).
      assert (TV.releaseYearsByRatingKey shows !! r_rating_key r = Some y)
        as E by (by apply releaseYearsByRatingKey_lookup).
      congruence.
Qed.

Lemma top3_eligibility_witness :
  Movies.firstWatchedIn utcFullYear Sample.notANumber Sample.watchedTwice
    (Js.Int 2023) Sample.rankedMovie = true
  ∧ TV.releasedIn Sample.shows2024 (Js.Int 2019) Sample.rankedShow = true.
Proof.
  destruct (top3_eligibility_first_watch_or_release_year utcFullYear
              Sample.notANumber) as [Hmovies Htv].
  split.
  - apply Hmovies.
    + intros m Hm. vm_compute in Hm.
      apply elem_of_cons in Hm as [->|Hm]; [by exists 2024|].
      apply elem_of_cons in Hm as [->|Hm]; [by exists 2023|].
      by apply elem_of_nil in Hm.
    + split; [reflexivity|]. exists 2023. split; [reflexivity|]. split.
      * eexists. split; [vm_compute; right; left|split; reflexivity].
      * intros m y' Hm _ Hy. vm_compute in Hm.
        apply elem_of_cons in Hm as [->|Hm]; [vm_compute in Hy; by simplify_eq|].
        apply elem_of_cons in Hm as [->|Hm]; [vm_compute in Hy; by simplify_eq|].
        by apply elem_of_nil in Hm.
  - apply Htv.
    + vm_compute. apply NoDup_cons. split; [apply not_elem_of_nil|apply NoDup_nil; done].
    + split; [reflexivity|]. exists 2019. split; [reflexivity|]. split; [done|].
      eexists. split; [vm_compute; left|split; reflexivity].
Defined.

(** C2, counterexample.  Movie 1 was watched in 2024, yet it fails the
    2024 filter because it was first watched in 2023; show 7 was watched
    in 2024, yet it fails the 2024 filter because it was released in
    2019.  Neither appears in the 2024 top 3. *)
Lemma watched_in_year_does_not_make_eligible :
  (∃ m, m ∈ Sample.watchedTwice
        ∧ Movies.rating_key (Movies.raw m) = r_rating_key Sample.rankedMovie
        ∧ Movies.watchYearOf utcFullYear Sample.notANumber m = Js.Int 2024)
  ∧ Movies.firstWatchedIn utcFullYear Sample.notANumber Sample.watchedTwice
      (Js.Int 2024) Sample.rankedMovie = false
  ∧ Movies.getTop3ForYear utcFullYear Sample.notANumber 2026
      [Sample.rankedMovie] Sample.watchedTwice (TabYear (Js.Int 2024)) = []
  ∧ (∃ s, s ∈ Sample.shows2024
          ∧ TV.s_rating_key (TV.show s) = r_rating_key Sample.rankedShow
          ∧ TV.p_year s = Js.Int 2024)
  ∧ TV.releasedIn Sample.shows2024 (Js.Int 2024) Sample.rankedShow = false
  ∧ TV.getTop3ForYear 2026 [Sample.rankedShow] Sample.shows2024
      (TabYear (Js.Int 2024)) = [].
Proof.
  split_and!.
  - eexists. split; [vm_compute; left|split; reflexivity].
  - reflexivity.
  - reflexivity.
  - eexists. split; [vm_compute; left|split; reflexivity].
  - reflexivity.
  - reflexivity.
Qed.

(** ** TV: grouping episodes by show *)

Section TVGrouping.

Import TV.

Variable localFullYear : Z → Z.
Variable dateParse : string → option Z.

Local Abbreviation groupEpisode := (TV.groupEpisode dateParse).
Local Abbreviation buildShowMap := (TV.buildShowMap dateParse).

Lemma showMap_get_None k (m : ShowMap) :
  showMap_get k m = None ↔ (k ∉ map fst m).
Proof.
  induction m as [|[k' v] m IH]; simpl.
  - split; [intros _; apply not_elem_of_nil|done].
  - destruct (decide (k' = k)) as [->|Hne].
    + split; [done|]. intros Hk. destruct Hk. left.
    + rewrite IH, not_elem_of_cons. simpl. split; [by split|by intros []].
Qed.

Lemma showMap_get_app_fresh k v (m : ShowMap) :
  (k ∉ map fst m) → showMap_get k (m ++ [(k, v)]) = Some v.
Proof.
  induction m as [|[k' v'] m IH]; simpl; intros Hk.
  - by rewrite decide_True.
  - apply not_elem_of_cons in Hk as [Hne Hk].
    rewrite decide_False by done. by apply IH.
Qed.

Lemma showMap_set_app_fresh k v v' (m : ShowMap) :
  (k ∉ map fst m) → showMap_set k v' (m ++ [(k, v)]) = m ++ [(k, v')].
Proof.
  induction m as [|[k' v''] m IH]; simpl; intros Hk.
  - by rewrite decide_True.
  - apply not_elem_of_cons in Hk as [Hne Hk].
    rewrite decide_False by done. by rewrite IH.
Qed.

Lemma showMap_set_fresh k v (m : ShowMap) :
  (k ∉ map fst m) → showMap_set k v m = m ++ [(k, v)].
Proof.
  induction m as [|[k' v'] m IH]; simpl; intros Hk; [done|].
  apply not_elem_of_cons in Hk as [Hne Hk].
  rewrite decide_False by done. by rewrite IH.
Qed.

Lemma showMap_get_Some k v (m : ShowMap) :
  showMap_get k m = Some v →
  ∃ m1 m2, m = m1 ++ (k, v) :: m2 ∧ (k ∉ map fst m1)
           ∧ (∀ v', showMap_set k v' m = m1 ++ (k, v') :: m2).
Proof.
  induction m as [|[k' v0] m IH]; simpl; [done|].
  destruct (decide (k' = k)) as [->|Hne].
  - intros [= ->]. exists [], m. split_and!; [done|apply not_elem_of_nil|done].
  - intros (m1 & m2 & -> & Hk & Hset)%IH.
    exists ((k', v0) :: m1), m2. split_and!; [done| |].
    + simpl. apply not_elem_of_cons. by split.
    + intros v'. simpl. by rewrite Hset.
Qed.

(** The effect of one episode record on the map: either its show is
    already there and receives the episode at the end of its list, or a
    new show holding just this episode is appended. *)
Lemma groupEpisode_episode now (m : ShowMap) e :
  media_type e = "episode"%string →
  (∃ m1 old m2 new,
      m = m1 ++ (showKeyOf e, old) :: m2
      ∧ groupEpisode now m e = m1 ++ (showKeyOf e, new) :: m2
      ∧ episodes new = (episodes old ++ [e])
      ∧ s_rating_key new = s_rating_key old)
  ∨ ((showKeyOf e ∉ map fst m)
     ∧ ∃ new, groupEpisode now m e = m ++ [(showKeyOf e, new)]
              ∧ episodes new = [e]
              ∧ s_rating_key new = showKeyOf e).
Proof.
  intros Hep. unfold TV.groupEpisode. rewrite decide_False by (by intros []).
  unfold showMap_has.
  destruct (showMap_get (showKeyOf e) m) as [old|] eqn:Hget.
  - left. rewrite bool_decide_eq_true_2 by eauto. rewrite Hget.
    apply showMap_get_Some in Hget as (m1 & m2 & -> & Hfresh & Hset).
    rewrite Hset. eexists m1, old, m2, _. split_and!; done.
  - right. rewrite bool_decide_eq_false_2 by (by intros [? ?]).
    apply showMap_get_None in Hget.
    rewrite showMap_set_fresh by done.
    rewrite showMap_get_app_fresh by done.
    rewrite showMap_set_app_fresh by done.
    split; [done|]. eexists. split_and!; done.
Qed.

Lemma groupEpisode_other now (m : ShowMap) e :
  media_type e ≠ "episode"%string → groupEpisode now m e = m.
Proof. intros Hne. unfold TV.groupEpisode. by rewrite decide_True. Qed.

(** The invariant of the grouping loop. *)
Lemma buildShowMap_invariant now (showData : list Episode) :
  let m := buildShowMap now showData in
  concat (map (λ kv, episodes kv.2) m)
    ≡ₚ filter (λ e, media_type e = "episode"%string) showData
  ∧ NoDup (map fst m)
  ∧ (∀ k s, (k, s) ∈ m →
       s_rating_key s = k ∧ ∀ e, e ∈ episodes s → showKeyOf e = k).
Proof.
  induction showData as [|e showData IH] using rev_ind; simpl.
  { split_and!; [done|apply NoDup_nil; done|].
    intros k s Hin. by apply elem_of_nil in Hin. }
  destruct IH as (Hperm & Hnd & Hkeys).
  unfold TV.buildShowMap in *. rewrite foldl_snoc, filter_app.
  set (m := foldl (groupEpisode now) [] showData) in *.
  destruct (decide (media_type e = "episode"%string)) as [Hep|Hne].
  2:{ rewrite groupEpisode_other, filter_singleton_False, app_nil_r by done.
      done. }
  rewrite filter_singleton_True by done.
  destruct (groupEpisode_episode now m e Hep)
    as [(m1 & old & m2 & new & Hm & -> & Hnew & Hkey)
       |(Hfresh & new & -> & Hnew & Hkey)].
  - rewrite Hm in Hperm, Hnd, Hkeys.
    rewrite !map_app, !concat_app in *. simpl in *.
    split_and!.
    + rewrite Hnew, <- Hperm. solve_Permutation.
    + done.
    + intros k s [Hin|[Hin|Hin]%elem_of_cons]%elem_of_app.
      * apply Hkeys, elem_of_app. by left.
      * injection Hin as -> ->.
        destruct (Hkeys (showKeyOf e) old) as [Hk Heps].
        { apply elem_of_app. right. left. }
        split; [congruence|]. intros e'. rewrite Hnew.
        intros [?| ->%list_elem_of_singleton]%elem_of_app; [by apply Heps|done].
      * apply Hkeys, elem_of_app. right. by right.
  - rewrite !map_app, !concat_app. simpl. split_and!.
    + rewrite Hnew, app_nil_r. simpl. by rewrite Hperm.
    + apply NoDup_app. split_and!; [done| |apply NoDup_singleton].
      intros k Hk ->%list_elem_of_singleton. done.
    + intros k s [Hin|Hin%list_elem_of_singleton]%elem_of_app.
      * by apply Hkeys.
      * injection Hin as -> ->. split; [done|]. intros e'. rewrite Hnew.
        by intros ->%list_elem_of_singleton.
Qed.

Lemma sum_list_length_concat {A} (ls : list (list A)) :
  sum_list (map length ls) = length (concat ls).
Proof.
  induction ls as [|l ls IH]; simpl; [done|].
  rewrite length_app. by rewrite IH.
Qed.

(** C4.  After grouping, the episode counts of the shows add up to the
    number of episode records of the snapshot: the groups, put together,
    are a rearrangement of the episode records (so when the records are
    pairwise distinct no record is in two groups or twice in one), the
    shows have pairwise distinct identities, and every episode sits in
    the group of its own show identity. *)
Theorem episode_counts_sum_to_episode_events (now : Z)
    (showData : list Episode) :
  let shows := TV.processedShows localFullYear dateParse now showData in
  let episodeEvents :=
    filter (λ e, media_type e = "episode"%string) showData in
  sum_list (map episodeCount shows) = length episodeEvents
  ∧ concat (map (λ s, episodes (show s)) shows) ≡ₚ episodeEvents
  ∧ (NoDup showData → NoDup (concat (map (λ s, episodes (show s)) shows)))
  ∧ NoDup (map (λ s, s_rating_key (show s)) shows)
  ∧ (∀ s, s ∈ shows →
       episodeCount s = length (episodes (show s))
       ∧ ∀ e, e ∈ episodes (show s) → showKeyOf e = s_rating_key (show s)).
Proof.
  intros shows episodeEvents. subst shows episodeEvents.
  destruct (buildShowMap_invariant now showData) as (Hperm & Hnd & Hkeys).
  unfold TV.processedShows, showMap_values.
  set (m := buildShowMap now showData) in *.
  assert (map (λ s, episodes (show s)) (map (processShow localFullYear) (map snd m))
          = map (λ kv, episodes kv.2) m) as Hgroups.
  { rewrite !map_map. done. }
  assert (map (λ s, s_rating_key (show s)) (map (processShow localFullYear) (map snd m))
          = map fst m) as Hids.
  { rewrite !map_map. apply map_ext_in. intros [k s] Hin. simpl.
    apply list_elem_of_In in Hin. by apply Hkeys in Hin as [? _]. }
  split_and!.
  - rewrite <- (Permutation_length Hperm), <- sum_list_length_concat.
    f_equal. rewrite !map_map. done.
  - by rewrite Hgroups.
  - intros Hdistinct. rewrite Hgroups, Hperm. by apply NoDup_filter.
  - by rewrite Hids.
  - intros s (s0 & -> & Hin)%list_elem_of_fmap. split; [done|].
    apply list_elem_of_fmap in Hin as ([k s1] & -> & Hin). simpl.
    apply Hkeys in Hin as [<- Heps]. done.
Qed.

End TVGrouping.

(** ** TV: merging shows that share a title *)

Section TVMerge.

Import TV.

Variable toLowerCase : string → string.
Variable trim : string → string.

Local Abbreviation ntitle := (normalizedTitle toLowerCase trim).
Local Abbreviation MergeInvariant := (MergeInvariant toLowerCase trim).
Local Abbreviation mergeShow := (mergeShow toLowerCase trim).
Local Abbreviation mergeRefs := (mergeRefs toLowerCase trim).
Local Abbreviation mergeByTitle := (mergeByTitle toLowerCase trim).
Local Abbreviation displayShows := (displayShows toLowerCase trim).

Lemma better_irrefl s : better s s = false.
Proof.
  unfold better. rewrite bool_decide_eq_false_2 by lia.
  destruct (Js.valueOf (watchDate s)) as [|ms]; simpl.
  - by rewrite andb_false_r.
  - rewrite (bool_decide_eq_false_2 (ms < ms)) by lia. by rewrite andb_false_r.
Qed.

(** When [show] replaces [existing], whatever did not beat [existing]
    does not beat [show]. *)
Lemma better_trans s show existing :
  better show existing = true → better s existing = false →
  better s show = false.
Proof.
  unfold better, Js.gt, Js.lt. intros H1 H2.
  apply orb_true_iff in H1. apply orb_false_iff in H2 as [H2a H2b].
  apply bool_decide_eq_false in H2a. apply andb_false_iff in H2b.
  apply orb_false_iff. split.
  - apply bool_decide_eq_false.
    destruct H1 as [H1%bool_decide_eq_true|[H1%bool_decide_eq_true _]%andb_true_iff];
      lia.
  - apply andb_false_iff.
    destruct (decide (episodeCount s = episodeCount show)) as [E|NE];
      [right|left; by apply bool_decide_eq_false].
    destruct H1 as [H1%bool_decide_eq_true|[H1%bool_decide_eq_true H1d]%andb_true_iff];
      [lia|].
    destruct H2b as [H2b%bool_decide_eq_false|H2b]; [lia|].
    destruct (Js.valueOf (watchDate s)) as [|ds],
             (Js.valueOf (watchDate show)) as [|dw],
             (Js.valueOf (watchDate existing)) as [|de]; try done.
    apply bool_decide_eq_true in H1d. apply bool_decide_eq_false in H2b.
    apply bool_decide_eq_false. lia.
Qed.

Lemma indexOf_elem_of r (l : list Ref) :
  r ∈ l → ∃ index, indexOf r l = Some index ∧ l !! index = Some r.
Proof.
  induction l as [|x l IH]; [by intros ?%elem_of_nil|].
  intros Hin. simpl. destruct (decide (x = r)) as [->|Hne].
  - by exists 0%nat.
  - apply elem_of_cons in Hin as [?|Hin]; [congruence|].
    destruct (IH Hin) as (index & -> & Hlook). by exists (S index).
Qed.

Lemma insert_split {A} (l : list A) index old x :
  l !! index = Some old →
  ∃ l1 l2, l = l1 ++ old :: l2 ∧ <[index := x]> l = l1 ++ x :: l2.
Proof.
  intros Hlook. exists (take index l), (drop (S index) l). split.
  - by rewrite take_drop_middle.
  - apply insert_take_drop. by eapply lookup_lt_Some.
Qed.

(** One round of the loop keeps the invariant. *)
Lemma mergeShow_invariant heap k st show :
  heap !! k = Some show →
  MergeInvariant heap k st →
  MergeInvariant heap (S k) (mergeShow heap st k).
Proof.
  intros Hk [HA HB HC HE HD]. unfold mergeShow. rewrite Hk.
  set (t := ntitle show).
  assert (k ∉ deduplicatedShows st) as Hfresh.
  { intros Hin. apply HE in Hin. lia. }
  destruct (showsByTitle st !! t) as [er|] eqn:Hbt.
  - destruct (HA t er Hbt) as (Her_in & existing & Hheap_er & Htitle_er).
    rewrite Hheap_er. destruct (better show existing) eqn:Hbetter.
    + destruct (indexOf_elem_of er _ Her_in) as (index & -> & Hlook).
      destruct (insert_split _ index er k Hlook) as (l1 & l2 & Hdd & ->).
      rewrite Hdd in HC, Hfresh.
      apply NoDup_app in HC as (HC1 & HC12 & [HCer HC2]%NoDup_cons).
      apply not_elem_of_app in Hfresh as [Hk1 [_ Hk2]%not_elem_of_cons].
      assert (∀ r, r ∈ l1 ++ k :: l2 → r ≠ k →
                   r ∈ deduplicatedShows st ∧ r ≠ er) as Hold.
      { intros r [Hr|[?|Hr]%elem_of_cons]%elem_of_app Hne; [|done|].
        - split; [rewrite Hdd; apply elem_of_app; by left|].
          intros ->. apply (HC12 er Hr). left.
        - split; [rewrite Hdd; apply elem_of_app; right; by right|].
          by intros ->. }
      constructor; simpl.
      * intros t' r. rewrite lookup_insert. case_decide as Ht.
        -- intros [= <-]. subst t'. split; [apply elem_of_app; right; left|].
           by exists show.
        -- intros Hr. destruct (HA t' r Hr) as (Hin & s & Hs & Hts).
           split; [|by exists s]. rewrite Hdd in Hin.
           apply elem_of_app in Hin as [Hin|[->|Hin]%elem_of_cons].
           ++ apply elem_of_app. by left.
           ++ congruence.
           ++ apply elem_of_app. right. by right.
      * intros r Hr. destruct (decide (r = k)) as [->|Hne].
        -- exists show. split; [done|]. fold t. by rewrite lookup_insert_eq.
        -- destruct (Hold r Hr Hne) as [Hin Hner].
           destruct (HB r Hin) as (s & Hs & Hreg). exists s. split; [done|].
           rewrite lookup_insert_ne; [done|]. intros E. fold t in E.
           rewrite <- E in Hreg. congruence.
      * apply NoDup_app. split_and!; [done| |apply NoDup_cons; by split].
        intros r Hr [->|Hr2]%elem_of_cons; [done|].
        apply (HC12 r Hr). by right.
      * intros r Hr. destruct (decide (r = k)) as [->|Hne]; [lia|].
        destruct (Hold r Hr Hne) as [Hin _]. apply HE in Hin. lia.
      * intros j s Hj Hs. destruct (decide (j = k)) as [->|Hne].
        -- assert (s = show) as -> by congruence.
           exists k, show. fold t. rewrite lookup_insert_eq.
           split_and!; [done..|apply better_irrefl].
        -- destruct (HD j s) as (r & e & Hreg & He & Hbest); [lia|done|].
           destruct (decide (t = ntitle s)) as [E|NE].
           ++ rewrite <- E in Hreg |- *. exists k, show.
              rewrite lookup_insert_eq. split_and!; [done..|].
              assert (e = existing) as -> by congruence.
              by eapply better_trans.
           ++ exists r, e. by rewrite lookup_insert_ne.
    + constructor; try done.
      * intros r Hr. apply HE in Hr. lia.
      * intros j s Hj Hs. destruct (decide (j = k)) as [->|Hne].
        -- assert (s = show) as -> by congruence. by exists er, existing.
        -- apply (HD j s); [lia|done].
  - constructor; simpl.
    + intros t' r. rewrite lookup_insert. case_decide as Ht.
      * intros [= <-]. subst t'. split; [apply elem_of_app; right; left|].
        by exists show.
      * intros Hr. destruct (HA t' r Hr) as (Hin & Hs).
        split; [apply elem_of_app; by left|done].
    + intros r [Hr| ->%list_elem_of_singleton]%elem_of_app.
      * destruct (HB r Hr) as (s & Hs & Hreg). exists s. split; [done|].
        rewrite lookup_insert_ne; [done|]. intros E. fold t in E.
        rewrite <- E in Hreg. congruence.
      * exists show. split; [done|]. fold t. by rewrite lookup_insert_eq.
    + apply NoDup_app. split_and!; [done| |apply NoDup_singleton].
      by intros r Hr ->%list_elem_of_singleton.
    + intros r [Hr| ->%list_elem_of_singleton]%elem_of_app; [|lia].
      apply HE in Hr. lia.
    + intros j s Hj Hs. destruct (decide (j = k)) as [->|Hne].
      * assert (s = show) as -> by congruence.
        exists k, show. fold t. rewrite lookup_insert_eq.
        split_and!; [done..|apply better_irrefl].
      * destruct (HD j s) as (r & e & Hreg & He & Hbest); [lia|done|].
        exists r, e. rewrite lookup_insert_ne; [done|].
        intros E. fold t in E. rewrite <- E in Hreg. congruence.
Qed.

Lemma merge_loop_invariant heap (n : nat) :
  (n ≤ length heap)%nat →
  MergeInvariant heap n
    (foldl (mergeShow heap) {| deduplicatedShows := []; showsByTitle := ∅ |}
       (seq 0 n)).
Proof.
  induction n as [|n IH]; intros Hn.
  - constructor; simpl.
    + intros t r. by rewrite lookup_empty.
    + by intros r ?%elem_of_nil.
    + apply NoDup_nil. done.
    + by intros r ?%elem_of_nil.
    + intros j s Hj. lia.
  - rewrite seq_S, foldl_snoc. simpl.
    destruct (lookup_lt_is_Some_2 heap n) as [show Hshow]; [lia|].
    apply (mergeShow_invariant _ _ _ show); [done|]. apply IH. lia.
Qed.

Lemma better_false_inv a e :
  better a e = false →
  (episodeCount a ≤ episodeCount e)%nat
  ∧ (episodeCount a = episodeCount e →
     Js.gt (Js.valueOf (watchDate a)) (Js.valueOf (watchDate e)) = false).
Proof.
  unfold better. intros [H1%bool_decide_eq_false H2]%orb_false_iff.
  split; [lia|]. intros E. by rewrite bool_decide_eq_true_2 in H2.
Qed.

Lemma NoDup_map_inj_on {A B} (f : A → B) (l : list A) x y :
  NoDup (map f l) → x ∈ l → y ∈ l → f x = f y → x = y.
Proof.
  induction l as [|z l IH]; simpl; [by intros _ ?%elem_of_nil|].
  intros [Hz Hnd]%NoDup_cons [->|Hx]%elem_of_cons [->|Hy]%elem_of_cons E.
  - done.
  - destruct Hz. rewrite E. by apply (list_elem_of_fmap_2 f).
  - destruct Hz. rewrite <- E. by apply (list_elem_of_fmap_2 f).
  - by apply IH.
Qed.

(** The array after the loop. *)
Lemma mergeByTitle_spec heap :
  NoDup (map (λ s, ntitle s) (mergeByTitle heap))
  ∧ (∀ e, e ∈ mergeByTitle heap → e ∈ heap)
  ∧ (∀ a, a ∈ heap →
       ∃ e, e ∈ mergeByTitle heap ∧ ntitle e = ntitle a ∧ better a e = false).
Proof.
  destruct (merge_loop_invariant heap (length heap)) as [HA HB HC HE HD];
    [done|].
  unfold mergeByTitle, mergeRefs.
  set (st := foldl (mergeShow heap) _ _) in *.
  split_and!.
  - clear HA HE HD. induction (deduplicatedShows st) as [|r dd IH]; simpl.
    { apply NoDup_nil. done. }
    apply NoDup_cons in HC as [Hr HC].
    destruct (HB r) as (s & Hs & Hreg); [left|]. rewrite Hs. simpl.
    apply NoDup_cons. split.
    + intros (e & Htitle & (r' & Hr' & He)%list_elem_of_omap)%list_elem_of_fmap.
      destruct (HB r') as (s' & Hs' & Hreg'); [by right|].
      assert (e = s') as -> by congruence.
      rewrite Htitle in Hreg. assert (r = r') as -> by congruence. done.
    + apply IH; [|done]. intros r' Hr'. apply HB. by right.
  - intros e (r & Hr & He)%list_elem_of_omap.
    apply list_elem_of_lookup. by exists r.
  - intros a (j & Hj)%list_elem_of_lookup.
    destruct (HD j a) as (r & e & Hreg & He & Hbest); [|done|].
    { by eapply lookup_lt_Some. }
    destruct (HA _ _ Hreg) as (Hin & s & Hs & Htitle).
    assert (s = e) as -> by congruence.
    exists e. split_and!; [|done..].
    apply list_elem_of_omap. by exists r.
Qed.

(** Two objects of one title, the first at least as good as the second:
    the loop keeps the first. *)
Lemma mergeByTitle_pair a b :
  ntitle a = ntitle b → better b a = false → mergeByTitle [a; b] = [a].
Proof.
  intros Htitle Hbetter.
  unfold mergeByTitle, TV.mergeByTitle, TV.mergeRefs. simpl.
  unfold TV.mergeShow at 2. simpl. rewrite lookup_empty. simpl.
  unfold TV.mergeShow. simpl. rewrite <- Htitle, lookup_insert_eq. simpl.
  rewrite Hbetter. done.
Qed.

(** The list shown after a fresh load, whatever the host's [toLowerCase]
    and [trim] do: there is exactly one entry per normalized title; it is
    one of the grouped shows, and among the grouped shows of that title
    none has more episodes, and none with as many episodes has a later
    last-watched date.  So of two shows whose titles agree up to case and
    surrounding blanks only one is shown: the one with more episodes, or
    with equal counts the one watched more recently. *)
Theorem same_title_shows_merge_into_best (heap : list ProcessedShow) :
  let shown := displayShows heap in
  NoDup (map (λ s, ntitle s) shown)
  ∧ (∀ e, e ∈ shown → e ∈ heap)
  ∧ (∀ a, a ∈ heap → ∃ e, e ∈ shown ∧ ntitle e = ntitle a)
  ∧ (∀ a e, a ∈ heap → e ∈ shown → ntitle a = ntitle e →
       (episodeCount a ≤ episodeCount e)%nat
       ∧ (episodeCount a = episodeCount e →
          Js.gt (Js.valueOf (watchDate a)) (Js.valueOf (watchDate e))
            = false)).
Proof.
  intros shown. subst shown. unfold displayShows.
  destruct (mergeByTitle_spec heap) as (Hnd & Hsub & Hbest).
  pose proof (sort_Permutation byWatchDateDesc (mergeByTitle heap)) as Hperm.
  split_and!.
  - assert (map (λ s, ntitle s) (Js.sort byWatchDateDesc (mergeByTitle heap))
            ≡ₚ map (λ s, ntitle s) (mergeByTitle heap)) as ->
      by (by apply Permutation_map).
    done.
  - intros e He. apply Hsub. by rewrite <- Hperm.
  - intros a Ha. destruct (Hbest a Ha) as (e & He & Htitle & _).
    exists e. split; [by rewrite Hperm|done].
  - intros a e Ha He Htitle. rewrite Hperm in He.
    destruct (Hbest a Ha) as (e' & He' & Htitle' & Hbetter).
    assert (e' = e) as ->; [|by apply better_false_inv].
    apply (NoDup_map_inj_on (λ s : ProcessedShow, ntitle s) (mergeByTitle heap));
      [done..|congruence].
Qed.

End TVMerge.

(** ** The client cache *)

Section CacheExpiry.

Import Cache.

Context {V : Type}.

Implicit Types (st : State V) (key : string).

(** C6.  At a [get] whose clock readings are [now] and then [later]:
    when every copy of the entry of [key] (in memory, in the object
    store) is at least 24 hours old, the call returns the miss and leaves
    no entry of [key] in memory; the copy in the object store is deleted
    as well, provided the database can be opened and the copy carries a
    non-zero timestamp (the test [result.timestamp] skips a zero).
    Entries of other keys are untouched. *)
Theorem expired_entry_is_missed_and_deleted st key (now later : Z) :
  now ≤ later →
  (∀ e, memoryCache st !! key = Some e →
        CACHE_EXPIRATION_MS ≤ now - timestamp e) →
  (∀ e, store st !! key = Some e →
        CACHE_EXPIRATION_MS ≤ now - timestamp e) →
  let result := (get now later key st).1 in
  let st' := (get now later key st).2 in
  result = None
  ∧ memoryCache st' !! key = None
  ∧ (∀ e, store st !! key = Some e → timestamp e ≠ 0 →
          db st || available st = true → store st' !! key = None)
  ∧ (∀ key', key' ≠ key →
       memoryCache st' !! key' = memoryCache st !! key'
       ∧ store st' !! key' = store st !! key').
Proof.
  intros Hclock Hmem Hstore. unfold get, getMemory.
  assert (∃ st1, (match memoryCache st !! key with
                  | Some cached =>
                      if bool_decide (now - timestamp cached
                                      < CACHE_EXPIRATION_MS)
                      then inl (value cached)
                      else inr {| memoryCache := delete key (memoryCache st);
                                  db := db st; store := store st;
                                  available := available st |}
                  | None => inr st
                  end) = inr st1
                 ∧ memoryCache st1 !! key = None
                 ∧ (∀ key', key' ≠ key →
                      memoryCache st1 !! key' = memoryCache st !! key')
                 ∧ db st1 = db st ∧ store st1 = store st
                 ∧ available st1 = available st)
    as (st1 & -> & Hmem1 & Hmem1' & Hdb & Hst & Hav).
  { destruct (memoryCache st !! key) as [cached|] eqn:Hlook.
    - specialize (Hmem cached eq_refl).
      rewrite bool_decide_eq_false_2 by lia.
      eexists. split; [done|]. simpl. split_and!; try done.
      + apply lookup_delete_eq.
      + intros key' Hne. by rewrite lookup_delete_ne.
    - exists st. by split_and!. }
  assert (∀ key', key' ≠ key →
            memoryCache st1 !! key' = memoryCache st !! key'
            ∧ store st1 !! key' = store st !! key') as Hsame.
  { intros key' Hne. split; [by apply Hmem1'|by rewrite Hst]. }
  assert (∀ key', key' ≠ key →
            memoryCache st1 !! key' = memoryCache st !! key'
            ∧ delete key (store st1) !! key' = store st !! key') as Hdel.
  { intros key' Hne. split; [by apply Hmem1'|].
    by rewrite lookup_delete_ne, Hst. }
  unfold getIndexedDB, initDB. rewrite Hdb, Hav.
  destruct (db st) eqn:Edb; simpl.
  - destruct (store st1 !! key) as [result|] eqn:Hres; rewrite Hst in Hres.
    + specialize (Hstore result Hres). case_bool_decide as Hz; simpl.
      * split_and!; try done. intros e He. congruence.
      * rewrite bool_decide_eq_false_2 by lia. simpl. split_and!; try done.
        intros. apply lookup_delete_eq.
    + simpl. split_and!; try done. intros e He. congruence.
  - destruct (available st) eqn:Eav; simpl.
    + destruct (store st1 !! key) as [result|] eqn:Hres; rewrite Hst in Hres.
      * specialize (Hstore result Hres). case_bool_decide as Hz; simpl.
        -- split_and!; try done. intros e He. congruence.
        -- rewrite bool_decide_eq_false_2 by lia. simpl. split_and!; try done.
           intros. apply lookup_delete_eq.
      * simpl. split_and!; try done. intros e He. congruence.
    + split_and!; done.
Qed.

(** *** States reached by one cache object

    [set] stamps both copies with the same clock reading and [get] copies
    the stored entry into memory, so with a clock that does not run
    backwards the copy in memory is never older than the stored one: when
    the copy in memory is expired, so is the stored copy. *)

Local Ltac lookup_cases :=
  repeat match goal with
    | H : <[_:=_]> _ !! _ = Some _ |- _ =>
        rewrite lookup_insert in H; case_decide; simplify_eq
    | H : delete _ _ !! _ = Some _ |- _ =>
        rewrite lookup_delete in H; case_decide; simplify_eq
    end.

Local Ltac by_coherence Hm Hs Ht :=
  intros; lookup_cases; simpl;
  first [ lia
        | by eapply Ht
        | etrans; [by eapply Hm|lia]
        | etrans; [by eapply Hs|lia] ].

Lemma set_Coherent clock st key (now : Z) (v : V) :
  clock ≤ now → Coherent clock st → Coherent now (set now key v st).
Proof.
  intros Hclock [Hm Hs Ht]. unfold set, initDB. simpl.
  destruct (db st) eqn:Edb; [|destruct (available st) eqn:Eav];
    constructor; simpl; by_coherence Hm Hs Ht.
Qed.

Lemma get_Coherent clock st key (now later : Z) :
  clock ≤ now → now ≤ later → Coherent clock st →
  Coherent later (get now later key st).2.
Proof.
  intros Hclock Hlater [Hm Hs Ht].
  unfold get, getMemory.
  destruct (memoryCache st !! key) as [cached|] eqn:Hlook.
  - case_bool_decide; simpl; [constructor; by_coherence Hm Hs Ht|].
    unfold getIndexedDB, initDB. simpl.
    destruct (db st) eqn:Edb; [|destruct (available st) eqn:Eav]; simpl;
      try (destruct (store st !! key) as [result|] eqn:Hres; simpl;
           [repeat case_bool_decide; simpl|]).
    all: constructor; simpl; by_coherence Hm Hs Ht.
  - unfold getIndexedDB, initDB. simpl.
    destruct (db st) eqn:Edb; [|destruct (available st) eqn:Eav]; simpl;
      try (destruct (store st !! key) as [result|] eqn:Hres; simpl;
           [repeat case_bool_decide; simpl|]).
    all: constructor; simpl; by_coherence Hm Hs Ht.
Qed.

Lemma clear_Coherent clock st : Coherent clock st → Coherent clock (clear st).
Proof.
  intros [Hm Hs Ht]. unfold clear. constructor; simpl.
  - intros k e. by rewrite lookup_empty.
  - intros k e. destruct (db st); [by rewrite lookup_empty|by eapply Hs].
  - intros k e e'. by rewrite lookup_empty.
Qed.

Lemma Coherent_expired clock st key e (now : Z) :
  Coherent clock st →
  memoryCache st !! key = Some e →
  CACHE_EXPIRATION_MS ≤ now - timestamp e →
  ∀ e', store st !! key = Some e' → CACHE_EXPIRATION_MS ≤ now - timestamp e'.
Proof.
  intros [_ _ Ht] Hm Hexp e' Hs. specialize (Ht key e e' Hm Hs). lia.
Qed.

End CacheExpiry.

(** An entry written by [set] at clock reading 1000 and read back a day
    and a second later. *)
Lemma expired_entry_witness :
  let st0 : Cache.State string :=
    {| Cache.memoryCache := ∅; Cache.db := false; Cache.store := ∅;
       Cache.available := true |} in
  let st := Cache.set 1000 "movies-prod" "payload"%string st0 in
  let after := Cache.get 86401000 86401005 "movies-prod" st in
  Cache.memoryCache st !! "movies-prod"%string
    = Some {| Cache.value := "payload"%string; Cache.timestamp := 1000 |}
  ∧ after.1 = None
  ∧ Cache.memoryCache after.2 !! "movies-prod"%string = None
  ∧ Cache.store after.2 !! "movies-prod"%string = None.
Proof.
  intros st0 st after.
  destruct (expired_entry_is_missed_and_deleted st "movies-prod"
              86401000 86401005) as (Hmiss & Hmem & Hstore & _).
  - lia.
  - intros e He. vm_compute in He. injection He as <-. vm_compute. discriminate.
  - intros e He. vm_compute in He. injection He as <-. vm_compute. discriminate.
  - split_and!; [reflexivity|exact Hmiss|exact Hmem|].
    apply (Hstore {| Cache.value := "payload"%string; Cache.timestamp := 1000 |});
      [reflexivity|discriminate|reflexivity].
Defined.

(** When only the copy in memory is expired and the object store holds a
    younger one (written by another tab), the call deletes the copy in
    memory and returns the younger value. *)
Example expired_memory_copy_younger_store_copy :
  let st : Cache.State string :=
    {| Cache.memoryCache :=
         {[ "k"%string := {| Cache.value := "old"%string;
                             Cache.timestamp := 1000 |} ]};
       Cache.db := true;
       Cache.store :=
         {[ "k"%string := {| Cache.value := "new"%string;
                             Cache.timestamp := 80000000 |} ]};
       Cache.available := true |} in
  (Cache.get 86401000 86401005 "k" st).1 = Some "new"%string.
Proof. reflexivity. Qed.

(** A copy in the object store whose timestamp is 0 is reported as a miss
    but stays in the store. *)
Example zero_timestamp_copy_is_not_deleted :
  let st : Cache.State string :=
    {| Cache.memoryCache := ∅; Cache.db := true;
       Cache.store :=
         {[ "k"%string := {| Cache.value := "v"%string;
                             Cache.timestamp := 0 |} ]};
       Cache.available := true |} in
  (Cache.get 86401000 86401005 "k" st).1 = None
  ∧ Cache.store (Cache.get 86401000 86401005 "k" st).2 !! "k"%string
    = Some {| Cache.value := "v"%string; Cache.timestamp := 0 |}.
Proof. split; reflexivity. Qed.

(** ** The ranking endpoints *)

Section Rankings.

Import Server.

Variable rankingsDir : string.

Local Abbreviation getRankingsPath := (Server.getRankingsPath rankingsDir).
Local Abbreviation getRankings := (Server.getRankings rankingsDir).
Local Abbreviation postRankings := (Server.postRankings rankingsDir).

(** C7.  A body that is not an array (or no body at all) is answered with
    status 400 and the files stay as they were.  An array body, when the
    file system accepts the write, replaces the contents of the ranking
    file of the content type by that array, leaves every other file
    alone, and is answered with [{ success: true, count }] where [count]
    is the length of the array. *)
Theorem post_rankings_accepts_arrays_only (contentType : string) (fs : FS) :
  (∀ reqBody : option json,
     asArray reqBody = None →
     status (postRankings contentType reqBody fs).1 = 400
     ∧ (postRankings contentType reqBody fs).2 = fs)
  ∧ (∀ items : list json,
     writable fs = true →
     let out := postRankings contentType (Some (JArr items)) fs in
     out.1 = {| status := 200;
                body := JObj [("success"%string, JBool true);
                              ("count"%string,
                               JNum (Z.of_nat (length items)))] |}
     ∧ files out.2 !! getRankingsPath contentType
       = Some (JsonText (JArr items))
     ∧ (∀ path, path ≠ getRankingsPath contentType →
                files out.2 !! path = files fs !! path)).
Proof.
  split.
  - intros reqBody Hnot. unfold Server.postRankings.
    destruct (falsy reqBody); [done|]. by rewrite Hnot.
  - intros items Hw out. subst out. unfold Server.postRankings. simpl.
    rewrite Hw. simpl. split_and!.
    + done.
    + apply lookup_insert_eq.
    + intros path Hne. by rewrite lookup_insert_ne.
Qed.

(** C9.  A content type other than ['tv'] and ['comics'] resolves to the
    movie ranking file: GET and POST behave exactly as for ['movies'],
    GET returns what that file holds, and a successful POST overwrites
    it. *)
Theorem unknown_content_type_uses_movie_rankings (contentType : string) :
  contentType ≠ "tv"%string →
  contentType ≠ "comics"%string →
  getRankingsPath contentType
    = Server.join rankingsDir "movie-rankings.json"
  ∧ (∀ fs, getRankings contentType fs = getRankings "movies" fs)
  ∧ (∀ reqBody fs,
       postRankings contentType reqBody fs = postRankings "movies" reqBody fs)
  ∧ (∀ fs rankings,
       files fs !! Server.join rankingsDir "movie-rankings.json"
         = Some (JsonText rankings) →
       rankings ≠ JNull →
       getRankings contentType fs = {| status := 200; body := rankings |})
  ∧ (∀ fs items,
       writable fs = true →
       files (postRankings contentType (Some (JArr items)) fs).2
         !! Server.join rankingsDir "movie-rankings.json"
       = Some (JsonText (JArr items))).
Proof.
  intros Htv Hcomics.
  assert (getRankingsPath contentType
          = Server.join rankingsDir "movie-rankings.json") as Hpath.
  { unfold Server.getRankingsPath. by rewrite !decide_False. }
  assert (getRankingsPath "movies"
          = Server.join rankingsDir "movie-rankings.json") as Hmovies.
  { reflexivity. }
  split_and!.
  - done.
  - intros fs. unfold Server.getRankings. by rewrite Hpath, Hmovies.
  - intros reqBody fs. unfold Server.postRankings. by rewrite Hpath, Hmovies.
  - intros fs rankings Hfile Hnn. unfold Server.getRankings.
    rewrite Hpath, Hfile. by destruct rankings.
  - intros fs items Hw. unfold Server.postRankings. simpl. rewrite Hw. simpl.
    rewrite Hpath. apply lookup_insert_eq.
Qed.

End Rankings.

(** The scenario of the specification: POST with body ["not an array"]
    is rejected and the file is unchanged; an array of two entries is
    saved. *)
Lemma post_rankings_witness :
  let post := Server.postRankings SampleFiles.dir "movies" in
  let twoEntries := [SampleFiles.entry 2 "B"; SampleFiles.entry 1 "A"] in
  Server.status (post (Some (Server.JStr "not an array")) SampleFiles.disk).1
    = 400
  ∧ (post (Some (Server.JStr "not an array")) SampleFiles.disk).2
    = SampleFiles.disk
  ∧ Server.body (post (Some (Server.JArr twoEntries)) SampleFiles.disk).1
    = Server.JObj [("success"%string, Server.JBool true);
                   ("count"%string, Server.JNum 2)]
  ∧ Server.files (post (Some (Server.JArr twoEntries)) SampleFiles.disk).2
      !! "/srv/public/data/movie-rankings.json"%string
    = Some (Server.JsonText (Server.JArr twoEntries)).
Proof.
  intros post twoEntries.
  destruct (post_rankings_accepts_arrays_only SampleFiles.dir "movies"
              SampleFiles.disk) as [Hreject Haccept].
  destruct (Hreject (Some (Server.JStr "not an array"))) as [H400 Hsame];
    [reflexivity|].
  destruct (Haccept twoEntries) as (Hres & Hfile & _); [reflexivity|].
  split_and!; [exact H400|exact Hsame| |exact Hfile].
  subst post. by rewrite Hres.
Defined.

Lemma unknown_content_type_witness :
  Server.getRankingsPath SampleFiles.dir "books"
    = "/srv/public/data/movie-rankings.json"%string
  ∧ Server.getRankings SampleFiles.dir "books" SampleFiles.disk
    = {| Server.status := 200;
         Server.body := Server.JArr [SampleFiles.entry 1 "A"] |}
  ∧ Server.files
      (Server.postRankings SampleFiles.dir "books"
         (Some (Server.JArr [])) SampleFiles.disk).2
      !! "/srv/public/data/movie-rankings.json"%string
    = Some (Server.JsonText (Server.JArr [])).
Proof.
  destruct (unknown_content_type_uses_movie_rankings SampleFiles.dir "books")
    as (Hpath & _ & _ & Hget & Hpost); [discriminate..|].
  split_and!.
  - exact Hpath.
  - apply Hget; [reflexivity|discriminate].
  - apply (Hpost SampleFiles.disk []). reflexivity.
Defined.

(** ** The ranking editor *)

Section EditorInvariant.

Import Editor.

Local Abbreviation keys l := (map r_rating_key l).

Lemma some_same_key_elem_of movie (l : list RankingEntry) :
  some_same_key movie l = true ↔ r_rating_key movie ∈ keys l.
Proof.
  unfold some_same_key. rewrite existsb_exists. split.
  - intros (r & Hr & E%bool_decide_eq_true). rewrite <- E.
    apply (list_elem_of_fmap_2 r_rating_key). by apply list_elem_of_In.
  - intros (r & E & Hr)%list_elem_of_fmap. exists r.
    split; [by apply list_elem_of_In|by apply bool_decide_eq_true].
Qed.

Lemma addToRankings_NoDup movie (l : list RankingEntry) :
  NoDup (keys l) → NoDup (keys (addToRankings movie l)).
Proof.
  intros Hnd. unfold addToRankings.
  destruct (some_same_key movie l) eqn:Hsome; [done|].
  rewrite map_app. simpl. apply NoDup_app. split_and!.
  - done.
  - intros k Hk ->%list_elem_of_singleton.
    apply some_same_key_elem_of in Hk. congruence.
  - apply NoDup_singleton.
Qed.

Lemma removeFromRankings_NoDup ratingKey (l : list RankingEntry) :
  NoDup (keys l) → NoDup (keys (removeFromRankings ratingKey l)).
Proof.
  intros Hnd.
  assert (keys (removeFromRankings ratingKey l) `sublist_of` keys l) as Hsub
    by apply (fmap_sublist r_rating_key), sublist_filter.
  by eapply sublist_NoDup.
Qed.

Lemma splice_insert_Permutation {A} (start : Z) (item : A) (l : list A) :
  splice_insert start item l ≡ₚ item :: l.
Proof.
  unfold splice_insert.
  set (s := Z.to_nat _). rewrite <- Permutation_middle.
  by rewrite take_drop.
Qed.

(** Dropping only rearranges the list. *)
Lemma handleDrop_Permutation draggedIndex transferred dropIndex
    (l : list RankingEntry) :
  handleDrop draggedIndex transferred dropIndex l ≡ₚ l.
Proof.
  unfold handleDrop.
  destruct (_ || _); [done|]. destruct (_ || _); [done|].
  destruct (l !! _) as [draggedItem|] eqn:Hlook; [|done].
  rewrite splice_insert_Permutation. unfold splice_remove.
  symmetry. by apply delete_Permutation.
Qed.

Lemma handleDrop_NoDup draggedIndex transferred dropIndex
    (l : list RankingEntry) :
  NoDup (keys l) →
  NoDup (keys (handleDrop draggedIndex transferred dropIndex l)).
Proof.
  intros Hnd.
  assert (keys (handleDrop draggedIndex transferred dropIndex l) ≡ₚ keys l)
    as -> by apply Permutation_map, handleDrop_Permutation.
  done.
Qed.

(** C8.  Adding an entry whose identity is already ranked changes
    nothing; adding, removing and dropping each keep the identities of
    the list pairwise distinct; hence the list reached from the empty
    initial state by any sequence of these operations never holds an
    identity twice. *)
Theorem rankings_never_hold_an_identity_twice :
  (∀ movie (l : list RankingEntry),
     r_rating_key movie ∈ keys l → addToRankings movie l = l)
  ∧ (∀ op (l : list RankingEntry),
       NoDup (keys l) → NoDup (keys (apply op l)))
  ∧ (∀ ops : list Op, NoDup (keys (run ops))).
Proof.
  assert (∀ op (l : list RankingEntry),
            NoDup (keys l) → NoDup (keys (apply op l))) as Hstep.
  { intros [movie|ratingKey|draggedIndex transferred dropIndex] l Hnd; simpl.
    - by apply addToRankings_NoDup.
    - by apply removeFromRankings_NoDup.
    - by apply handleDrop_NoDup. }
  split_and!.
  - intros movie l Hin. unfold addToRankings.
    apply some_same_key_elem_of in Hin. by rewrite Hin.
  - exact Hstep.
  - intros ops. unfold run.
    induction ops as [|op ops IH] using rev_ind; simpl.
    + apply NoDup_nil. done.
    + rewrite foldl_snoc. by apply Hstep.
Qed.

End EditorInvariant.

(** Moving the first entry onto the slot of the third: it lands just
    before that slot. *)
Example drop_before_slot :
  let e k := mkRankingEntry (Js.KNum k) "t" in
  Editor.handleDrop (Some 0) 0 2 [e 1; e 2; e 3; e 4] = [e 2; e 1; e 3; e 4]
  ∧ Editor.handleDrop (Some 3) 3 1 [e 1; e 2; e 3; e 4]
    = [e 1; e 4; e 2; e 3].
Proof. split; reflexivity. Qed.

Lemma rankings_invariant_witness :
  let e k := mkRankingEntry (Js.KNum k) "t" in
  Editor.addToRankings (e 2) [e 1; e 2] = [e 1; e 2]
  ∧ NoDup (map r_rating_key
             (Editor.apply (Editor.Drop (Some 0) 0 2) [e 1; e 2; e 3]))
  ∧ NoDup (map r_rating_key
             (Editor.run [Editor.Add (e 1); Editor.Add (e 2);
                          Editor.Add (e 1); Editor.Drop None 1 0;
                          Editor.Remove (Js.KNum 2)])).
Proof.
  intros e.
  destruct rankings_never_hold_an_identity_twice as (Hadd & Hstep & Hrun).
  split_and!.
  - apply Hadd. simpl. right. left.
  - apply Hstep. simpl.
    repeat (apply NoDup_cons; split;
            [rewrite ?elem_of_cons, ?elem_of_nil; intros H; intuition congruence|]).
    apply NoDup_nil. done.
  - apply Hrun.
Defined.

(** ** Runs of the TV model on the sample snapshot *)

Lemma episode_counts_witness :
  map TV.episodeCount Sample.officeShows = [2%nat; 1%nat]
  ∧ length (filter (λ e, TV.media_type e = "episode"%string)
              Sample.officeEpisodes) = 3%nat
  ∧ NoDup (concat (map (λ s, TV.episodes (TV.show s)) Sample.officeShows)).
Proof.
  destruct (episode_counts_sum_to_episode_events utcFullYear Sample.noDate 0
              Sample.officeEpisodes) as (Hsum & _ & Hdistinct & _).
  split_and!.
  - reflexivity.
  - rewrite <- Hsum. reflexivity.
  - apply Hdistinct. apply (bool_decide_unpack _). vm_compute. exact I.
Defined.

Lemma same_title_witness :
  let shown :=
    TV.displayShows TV.asciiToLowerCase TV.asciiTrim Sample.officeShows in
  map (λ s, TV.s_rating_key (TV.show s)) shown = [Js.KNum 7]
  ∧ Forall (λ a,
      Forall (λ e,
        TV.normalizedTitle TV.asciiToLowerCase TV.asciiTrim a
          = TV.normalizedTitle TV.asciiToLowerCase TV.asciiTrim e →
        (TV.episodeCount a ≤ TV.episodeCount e)%nat)
        shown)
      Sample.officeShows.
Proof.
  destruct (same_title_shows_merge_into_best TV.asciiToLowerCase TV.asciiTrim
              Sample.officeShows) as (_ & _ & _ & Hbest).
  split; [reflexivity|].
  apply Forall_forall. intros a Ha. apply Forall_forall. intros e He Htitle.
  by apply (Hbest a e Ha He Htitle).
Defined.

(** A value written by [set] is what [get] returns while it is younger
    than 24 hours. *)
Lemma get_after_set {V} (st : Cache.State V) key (v : V) (t now later : Z) :
  now - t < Cache.CACHE_EXPIRATION_MS →
  (Cache.get now later key (Cache.set t key v st)).1 = Some v.
Proof.
  intros Hfresh. unfold Cache.get, Cache.getMemory.
  assert (Cache.memoryCache (Cache.set t key v st) !! key
          = Some {| Cache.value := v; Cache.timestamp := t |}) as ->.
  { unfold Cache.set, Cache.initDB. simpl.
    destruct (Cache.db st); [|destruct (Cache.available st)]; simpl;
      apply lookup_insert_eq. }
  simpl. by rewrite bool_decide_eq_true_2.
Qed.

(** C5.  The snapshot [Sample.officeTwice] holds one series under two
    identities of the same title: show 7 with two episodes and show 8
    with one.  Loaded when the cache has no live entry, the view shows
    the merged list, show 7 alone.  Mounted again while the entry
    written by that load is younger than 24 hours, it shows both
    identities, two entries of one normalized title, whatever the
    host's [toLowerCase] and [trim] do: the entry holds
    [processedShows], the list from before the merge, where
    [fetchMovies] and [fetchComicBooks] store the deduplicated list they
    display. *)
Theorem second_load_shows_both_identities
    (toLowerCase trim : string → string) (IS_DEV : bool)
    (first second : TVLoad.Clock) (cache : Cache.State TVLoad.Payload) :
  (Cache.get (TVLoad.atGet first) (TVLoad.atGetStore first)
     (TVLoad.cacheKey IS_DEV) cache).1 = None →
  TVLoad.atGet second - TVLoad.atSet first < Cache.CACHE_EXPIRATION_MS →
  let loads :=
    TVLoad.loadTwice utcFullYear Sample.noDate toLowerCase trim IS_DEV
      first second Sample.officeTwice cache in
  let key s := TV.s_rating_key (TV.show s) in
  (∃ a, TVLoad.shows <$> loads.1 = Some [a]
        ∧ key a = Js.KNum 7 ∧ TV.episodeCount a = 2%nat)
  ∧ (∃ a b, TVLoad.shows <$> loads.2 = Some [a; b]
            ∧ key a = Js.KNum 7 ∧ key b = Js.KNum 8
            ∧ TV.normalizedTitle toLowerCase trim a
                = TV.normalizedTitle toLowerCase trim b
            ∧ TV.episodeCount a = 2%nat ∧ TV.episodeCount b = 1%nat).
Proof.
  intros Hmiss Hfresh loads key. subst loads.
  unfold TVLoad.loadTwice, TVLoad.fetchTVShows.
  destruct (Cache.get (TVLoad.atGet first) _ _ cache) as [cached cache1].
  simpl in Hmiss. subst cached.
  assert (∃ a b,
            TV.processedShows utcFullYear Sample.noDate (TVLoad.atGroup first)
              Sample.officeTwice = [a; b]
            ∧ key a = Js.KNum 7 ∧ key b = Js.KNum 8
            ∧ TV.s_title (TV.show a) = TV.s_title (TV.show b)
            ∧ TV.episodeCount a = 2%nat ∧ TV.episodeCount b = 1%nat)
    as (a & b & Hshows & Ha & Hb & Htitle & Hna & Hnb).
  { eexists _, _. split; [reflexivity|]. by split_and!. }
  assert (TV.normalizedTitle toLowerCase trim a
          = TV.normalizedTitle toLowerCase trim b) as Hnorm.
  { unfold TV.normalizedTitle. by rewrite Htitle. }
  change Sample.officeTwice
    with (Sample.episodeOf 7 "The Office" 1700000000
          :: tail Sample.officeTwice).
  cbv beta iota zeta.
  change (Sample.episodeOf 7 "The Office" 1700000000
          :: tail Sample.officeTwice) with Sample.officeTwice.
  rewrite Hshows. split.
  - exists a. simpl. unfold TV.displayShows.
    rewrite (mergeByTitle_pair toLowerCase trim a b Hnorm).
    + by split_and!.
    + unfold TV.better. rewrite Hna, Hnb. reflexivity.
  - exists a, b. cbn [fst snd].
    match goal with
    | |- context [Cache.get ?n ?l ?k (Cache.set ?t ?k ?v ?st)] =>
        pose proof (get_after_set st k v t n l Hfresh) as Hhit;
        destruct (Cache.get n l k (Cache.set t k v st)) as [cached cache2]
    end.
    simpl in Hhit. subst cached. by split_and!.
Qed.

Lemma second_load_witness :
  let first := TVLoad.mkClock 1000 1001 1002 1003 1004 in
  let second := TVLoad.mkClock 3600000 3600001 3600002 3600003 3600004 in
  let loads :=
    TVLoad.loadTwice utcFullYear Sample.noDate TV.asciiToLowerCase
      TV.asciiTrim false first second Sample.officeTwice
      (CacheSession.newCache ∅ true) in
  map (λ s, TV.s_rating_key (TV.show s)) ∘ TVLoad.shows <$> loads.1
    = Some [Js.KNum 7]
  ∧ map (λ s, TV.s_rating_key (TV.show s)) ∘ TVLoad.shows <$> loads.2
    = Some [Js.KNum 7; Js.KNum 8].
Proof.
  intros first second loads.
  destruct (second_load_shows_both_identities TV.asciiToLowerCase
              TV.asciiTrim false first second (CacheSession.newCache ∅ true))
    as ((a & H1 & Ha & _) & (a' & b' & H2 & Ha' & Hb' & _)).
  - reflexivity.
  - vm_compute. reflexivity.
  - fold loads in H1, H2.
    destruct (loads.1) as [l1|]; [|discriminate H1].
    destruct (loads.2) as [l2|]; [|discriminate H2].
    simpl in *. injection H1 as ->. injection H2 as ->. simpl.
    by rewrite Ha, Ha', Hb'.
Defined.

(** The comics view of [ComicBooksView.jsx] filters on the year of the
    most recent read and consults no release year; the revision that
    tracks issue release years requires an issue both released and read
    in the year. *)
Example comics_eligibility_by_revision :
  let read ts := {| Comics.seriesId := Js.KStr "S1";
                    Comics.rating_key := Js.KStr "S1";
                    Comics.watchDate := Some (Js.Instant (ts * 1000));
                    Comics.year := Js.Int (utcFullYear (ts * 1000)) |} in
  let issue ts released :=
    {| ComicsByIssue.seriesId := Js.KStr "S1";
       ComicsByIssue.rating_key := Js.KStr "S1";
       ComicsByIssue.watchDate := Some (Js.Instant (ts * 1000));
       ComicsByIssue.year := Js.Int (utcFullYear (ts * 1000));
       ComicsByIssue.readYear := Some (Js.Int (utcFullYear (ts * 1000)));
       ComicsByIssue.issueReleaseYear := Some (Js.Int released) |} in
  let saga := mkRankingEntry (Js.KStr "S1") "Saga" in
  Comics.getTop3ForYear utcFullYear 2026 [saga]
    [read 1710000000; read 1700000000] [read 1710000000]
    (TabYear (Js.Int 2024)) = [saga]
  ∧ Comics.getTop3ForYear utcFullYear 2026 [saga]
      [read 1710000000; read 1700000000] [read 1710000000]
      (TabYear (Js.Int 2023)) = []
  ∧ ComicsByIssue.getTop3ForYear utcFullYear 2026 [saga]
      [issue 1710000000 2021; issue 1700000000 2023]
      (TabYear (Js.Int 2024)) = []
  ∧ ComicsByIssue.getTop3ForYear utcFullYear 2026 [saga]
      [issue 1710000000 2021; issue 1700000000 2023]
      (TabYear (Js.Int 2023)) = [saga].
Proof. split_and!; reflexivity. Qed.

(** * Further properties *)

(** ** Sets and sorting *)

Lemma JsSet_of_list_spec {A} `{EqDecision A} (l : list A) :
  NoDup (JsSet.of_list l) ∧ ∀ x, x ∈ JsSet.of_list l ↔ x ∈ l.
Proof.
  unfold JsSet.of_list.
  induction l as [|y l [Hnd Hin]] using rev_ind; simpl.
  { split; [apply NoDup_nil; done|done]. }
  rewrite foldl_snoc. set (acc := foldl JsSet.add [] l) in *.
  unfold JsSet.add. destruct (decide (y ∈ acc)) as [Hy|Hy].
  - split; [done|]. intros x. rewrite elem_of_app, list_elem_of_singleton, Hin.
    split; [by left|]. intros [?| ->]; [done|]. by apply Hin.
  - split.
    + apply NoDup_app. split_and!; [done| |apply NoDup_singleton].
      by intros x Hx ->%list_elem_of_singleton.
    + intros x. rewrite !elem_of_app, Hin. done.
Qed.

(** A sort by a comparator that decides a total preorder [R] on the
    elements that satisfy [P] yields an [R]-sorted list. *)
Lemma sort_StronglySorted {A} (cmp : A → A → Js.num) (R : relation A)
    (P : A → Prop) (l : list A) :
  (∀ x y, P x → P y → Js.positive_result (cmp x y) = true → R y x) →
  (∀ x y, P x → P y → Js.positive_result (cmp x y) = false → R x y) →
  (∀ x y z, P x → P y → P z → R x y → R y z → R x z) →
  Forall P l →
  StronglySorted R (Js.sort cmp l).
Proof.
  intros Hpos Hneg Htrans.
  assert (∀ x l, P x → Forall P l → StronglySorted R l →
                 StronglySorted R (Js.sort_insert cmp x l)) as Hins.
  { intros x l' Hx Hl' Hsorted.
    induction Hsorted as [|y l' Hsorted IH Hy]; simpl.
    - repeat constructor.
    - apply Forall_cons in Hl' as [HPy Hl'].
      destruct (Js.positive_result (cmp x y)) eqn:Hc.
      + constructor; [by apply IH|].
        rewrite sort_insert_Permutation. constructor; [|done]. by apply Hpos.
      + constructor; [by constructor|]. constructor; [by apply Hneg|].
        rewrite Forall_forall in Hy, Hl'. apply Forall_forall. intros z Hz.
        apply (Htrans x y z); auto. }
  induction l as [|x l IH]; intros Hl; [constructor|].
  apply Forall_cons in Hl as [Hx Hl]. unfold Js.sort. simpl.
  apply Hins; [done| |by apply IH].
  fold (Js.sort cmp l). by rewrite sort_Permutation.
Qed.

Lemma StronglySorted_sublist {A} (R : relation A) (l1 l2 : list A) :
  l1 `sublist_of` l2 → StronglySorted R l2 → StronglySorted R l1.
Proof.
  induction 1 as [|x l1 l2 Hsub IH|x l1 l2 Hsub IH]; intros Hs.
  - constructor.
  - apply StronglySorted_inv in Hs as [Hs Hx].
    constructor; [by apply IH|].
    rewrite Forall_forall in Hx. apply Forall_forall. intros y Hy.
    apply Hx. by eapply sublist_subseteq.
  - apply StronglySorted_inv in Hs as [Hs _]. by apply IH.
Qed.

(** ** Movies: order, year tabs and year statistics *)

Section MoviesTabs.

Import Movies MoviesStats.

Variable localFullYear : Z → Z.
Variable dateParse : string → option Z.
Variable stringToNumber : string → Js.num.

Local Abbreviation aggregate :=
  (Movies.aggregate localFullYear dateParse stringToNumber).

(** X1.  When every record of the snapshot carries a numeric [date], the
    complete list and the display list are both ordered from the most
    recent event to the oldest. *)
Theorem watch_events_most_recent_first (now : Z) (movieData : list Movie) :
  Forall (λ m, ∃ n, date m = Js.DateNumber n) movieData →
  StronglySorted NotAfter (allWatchData (aggregate now movieData))
  ∧ StronglySorted NotAfter (deduplicatedMovies (aggregate now movieData)).
Proof.
  intros Hnum.
  assert (StronglySorted NotAfter (allWatchData (aggregate now movieData)))
    as Hall.
  { unfold Movies.aggregate. simpl. apply sort_descending.
    apply Forall_forall. intros p (m & -> & Hm)%list_elem_of_fmap.
    rewrite Forall_forall in Hnum. by apply Hnum. }
  split; [done|].
  eapply StronglySorted_sublist; [|exact Hall].
  unfold Movies.aggregate. simpl. apply deduplicate_sublist.
Qed.

Lemma year_tabs_parts (movies : list ProcessedMovie) :
  NoDup (uniqueYears movies)
  ∧ (∀ y, y ∈ uniqueYears movies ↔ ∃ m, m ∈ movies ∧ year m = y).
Proof.
  unfold uniqueYears.
  destruct (JsSet_of_list_spec (map year movies)) as [Hnd Hin].
  pose proof (sort_Permutation (λ a b, Js.sub b a)
                (JsSet.of_list (map year movies))) as Hperm.
  split.
  - by rewrite Hperm.
  - intros y. rewrite Hperm, Hin, list_elem_of_fmap.
    split; [intros (m & -> & ?); eauto|intros (m & ? & <-); eauto].
Qed.

(** X2.  The year tabs hold every year of a displayed movie exactly once;
    when all displayed movies have valid dates the tabs run from the
    latest year to the earliest. *)
Theorem year_tabs_hold_each_year_once (movies : list ProcessedMovie) :
  NoDup (uniqueYears movies)
  ∧ (∀ y, y ∈ uniqueYears movies ↔ ∃ m, m ∈ movies ∧ year m = y)
  ∧ (Forall (λ m, year m ≠ Js.NaN) movies →
     StronglySorted YearNotAfter (uniqueYears movies)).
Proof.
  unfold uniqueYears.
  destruct (JsSet_of_list_spec (map year movies)) as [Hnd Hin].
  pose proof (sort_Permutation (λ a b, Js.sub b a)
                (JsSet.of_list (map year movies))) as Hperm.
  split_and!.
  - by rewrite Hperm.
  - intros y. rewrite Hperm, Hin, list_elem_of_fmap.
    split; [intros (m & -> & ?); eauto|intros (m & ? & <-); eauto].
  - intros Hvalid.
    apply (sort_StronglySorted _ _ (λ y, y ≠ Js.NaN)).
    + intros [|x] [|y] ?? Hc; try done. simpl in Hc.
      apply bool_decide_eq_true in Hc. exists y, x. split_and!; [done..|lia].
    + intros [|x] [|y] ?? Hc; try done. simpl in Hc.
      apply bool_decide_eq_false in Hc. exists x, y. split_and!; [done..|lia].
    + intros a b c _ _ _ (x & y & -> & -> & ?) (y' & z & [= <-] & -> & ?).
      exists x, z. split_and!; [done..|lia].
    + apply Forall_forall. intros y (m & -> & Hm)%Hin%list_elem_of_fmap.
      rewrite Forall_forall in Hvalid. by apply Hvalid.
Qed.

Lemma bucket_of_one (m : ProcessedMovie) (ys : list Js.num) :
  NoDup ys → year m ∈ ys →
  concat (map (λ y, filter (λ m, Js.strict_eq (year m) y = true) [m]) ys)
  = filter (λ m, year m ≠ Js.NaN) [m].
Proof.
  induction ys as [|y ys IH]; intros Hnd Hin; [by apply elem_of_nil in Hin|].
  apply NoDup_cons in Hnd as [Hy Hnd]. simpl.
  destruct (decide (year m = y)) as [<-|Hne].
  - assert (concat (map (λ y, filter (λ m, Js.strict_eq (year m) y = true) [m]) ys)
            = []) as ->.
    { clear IH Hin Hnd. induction ys as [|y ys IH]; simpl; [done|].
      apply not_elem_of_cons in Hy as [Hne Hy].
      rewrite filter_cons_False, filter_nil; [by apply IH|].
      destruct (year m) as [|x], y as [|z]; simpl; try done.
      rewrite bool_decide_eq_false_2; [done|congruence]. }
    rewrite app_nil_r. destruct (year m) as [|x] eqn:E.
    + rewrite !filter_cons_False, !filter_nil; [done|by rewrite E; intros []|].
      rewrite E. done.
    + rewrite !filter_cons_True; [done|by rewrite E|].
      rewrite E. simpl. by apply bool_decide_eq_true.
  - apply elem_of_cons in Hin as [?|Hin]; [done|].
    rewrite (filter_cons_False _ m), filter_nil; [by apply IH|].
    destruct (year m) as [|x], y as [|z]; simpl; try done.
    rewrite bool_decide_eq_false_2; [done|congruence].
Qed.

Lemma buckets_cons (m : ProcessedMovie) (l : list ProcessedMovie)
    (ys : list Js.num) :
  concat (map (λ y, filter (λ m, Js.strict_eq (year m) y = true) (m :: l)) ys)
  ≡ₚ concat (map (λ y, filter (λ m, Js.strict_eq (year m) y = true) [m]) ys)
     ++ concat (map (λ y, filter (λ m, Js.strict_eq (year m) y = true) l) ys).
Proof.
  induction ys as [|y ys IH]; simpl; [done|].
  rewrite IH. rewrite (filter_cons _ m l), (filter_cons _ m []), filter_nil.
  destruct (decide (Js.strict_eq (year m) y = true)); simpl.
  - f_equiv. apply Permutation_app_swap_app.
  - apply Permutation_app_swap_app.
Qed.

(** X3.  The year tabs split the display list: the buckets of the tabs,
    put together, are a rearrangement of the displayed movies that have a
    valid date, so each of these is shown under exactly one tab; every
    tab of a valid year shows at least one movie, and the tab made from
    an invalid date shows none. *)
Theorem year_tabs_split_display_list (currentYear : Z)
    (movies : list ProcessedMovie) :
  concat (map (λ y, getMoviesByYear currentYear movies (TabYear y))
            (uniqueYears movies))
    ≡ₚ filter (λ m, year m ≠ Js.NaN) movies
  ∧ (∀ z, Js.Int z ∈ uniqueYears movies →
          getMoviesByYear currentYear movies (TabYear (Js.Int z)) ≠ [])
  ∧ getMoviesByYear currentYear movies (TabYear Js.NaN) = [].
Proof.
  destruct (year_tabs_parts movies) as (Hnd & Hin).
  unfold getMoviesByYear. simpl. split_and!.
  - assert (∀ l : list ProcessedMovie,
              (∀ m, m ∈ l → year m ∈ uniqueYears movies) →
              concat (map (λ y, filter (λ m, Js.strict_eq (year m) y = true) l)
                        (uniqueYears movies))
              ≡ₚ filter (λ m, year m ≠ Js.NaN) l) as Hgen.
    { induction l as [|m l IH]; intros Hl.
      - clear Hnd Hin Hl. simpl.
        induction (uniqueYears movies) as [|y ys IH]; simpl; [done|].
        by rewrite filter_nil.
      - rewrite buckets_cons, bucket_of_one, IH.
        + rewrite (filter_cons _ m l), (filter_cons _ m []), filter_nil.
          by case_decide.
        + intros m' Hm'. apply Hl. by right.
        + done.
        + apply Hl. left. }
    apply Hgen. intros m Hm. apply Hin. eauto.
  - intros z (m & Hm & Hy)%Hin Hempty.
    assert (m ∈ filter (λ m, Js.strict_eq (year m) (Js.Int z) = true) movies)
      as Hbucket.
    { apply list_elem_of_filter. split; [|done]. rewrite Hy. simpl.
      by apply bool_decide_eq_true. }
    rewrite Hempty in Hbucket. by apply elem_of_nil in Hbucket.
  - clear Hnd Hin. induction movies as [|m l IH]; [done|].
    rewrite filter_cons_False; [done|]. by destruct (year m).
Qed.

Lemma filter_sublist_mono {A} (P : A → Prop) `{!∀ x, Decision (P x)}
    (l1 l2 : list A) :
  l1 `sublist_of` l2 → filter P l1 `sublist_of` filter P l2.
Proof.
  induction 1 as [|x l1 l2 Hsub IH|x l1 l2 Hsub IH].
  - done.
  - rewrite !filter_cons. case_decide; [by constructor|done].
  - rewrite filter_cons. case_decide; [by constructor|done].
Qed.

Lemma filter_ext_elem_of {A} (P Q : A → Prop) `{!∀ x, Decision (P x)}
    `{!∀ x, Decision (Q x)} (l : list A) :
  (∀ x, x ∈ l → P x ↔ Q x) → filter P l = filter Q l.
Proof.
  induction l as [|x l IH]; intros Hext; [done|].
  rewrite !filter_cons, IH by (intros y Hy; apply Hext; by right).
  destruct (decide (P x)) as [HP|HP], (decide (Q x)) as [HQ|HQ]; try done.
  - destruct HQ. apply Hext; [left|done].
  - destruct HP. apply Hext; [left|done].
Qed.

Lemma JsSet_size_le {A} `{EqDecision A} (l : list A) :
  (JsSet.size l ≤ length l)%nat.
Proof.
  unfold JsSet.size, JsSet.of_list.
  induction l as [|y l IH] using rev_ind; simpl; [done|].
  rewrite foldl_snoc, length_app. simpl.
  set (acc := foldl JsSet.add [] l) in *.
  unfold JsSet.add. destruct (decide (y ∈ acc)); [lia|].
  rewrite length_app. simpl. lia.
Qed.

Lemma JsSet_size_zero {A} `{EqDecision A} (l : list A) :
  JsSet.size l = 0%nat ↔ l = [].
Proof.
  unfold JsSet.size. destruct (JsSet_of_list_spec l) as [_ Hin]. split.
  - intros Hz%nil_length_inv. destruct l as [|x l]; [done|].
    specialize (Hin x). rewrite Hz in Hin.
    exfalso. eapply not_elem_of_nil. apply Hin. left.
  - by intros ->.
Qed.

Lemma JsSet_of_list_NoDup {A} `{EqDecision A} (l : list A) :
  NoDup l → JsSet.of_list l = l.
Proof.
  unfold JsSet.of_list.
  induction l as [|y l IH] using rev_ind; intros Hnd; simpl; [done|].
  apply NoDup_app in Hnd as (Hl & Hy & _).
  rewrite foldl_snoc, IH by done. unfold JsSet.add.
  rewrite decide_False; [done|]. intros Hin. apply (Hy y Hin). left.
Qed.

Lemma sumDurations_cons (m : ProcessedMovie) (l : list ProcessedMovie) :
  sumDurations (m :: l) = duration (raw m) + sumDurations l.
Proof.
  unfold sumDurations. simpl.
  assert (∀ a, foldl (λ sum movie, sum + duration (raw movie)) a l
               = a + foldl (λ sum movie, sum + duration (raw movie)) 0 l)
    as Hacc.
  { induction l as [|x l IH]; intros a; simpl; [lia|].
    rewrite (IH (a + _)), (IH (0 + _)). lia. }
  apply Hacc.
Qed.

Lemma sumDurations_sublist (l1 l2 : list ProcessedMovie) :
  Forall (λ m, 0 ≤ duration (raw m)) l2 →
  l1 `sublist_of` l2 → sumDurations l1 ≤ sumDurations l2.
Proof.
  intros Hpos Hsub.
  induction Hsub as [|x l1 l2 Hsub IH|x l1 l2 Hsub IH].
  - done.
  - apply Forall_cons in Hpos as [_ Hpos].
    rewrite !sumDurations_cons. specialize (IH Hpos). lia.
  - apply Forall_cons in Hpos as [Hx Hpos].
    rewrite sumDurations_cons. specialize (IH Hpos). lia.
Qed.

(** X4.  The statistics of a tab, computed from the two lists that
    [fetchMovies] produces: every movie displayed under the tab is one of
    the watch events that the watch time adds up, so with durations that
    are not negative the total is at least the time of the displayed
    movies; the count is the number of distinct identities displayed, at
    least 1 when a movie is displayed and at most their number; a tab
    without watch events shows ["0 minutes"]. *)
Theorem year_stats_cover_displayed_movies (currentYear now : Z)
    (movieData : list Movie) (tab : Tab) :
  let agg := aggregate now movieData in
  let shown := getMoviesByYear currentYear (deduplicatedMovies agg) tab in
  let watched :=
    allYearWatches localFullYear stringToNumber currentYear
      (allWatchData agg) tab in
  let stats :=
    getYearStats localFullYear stringToNumber currentYear
      (deduplicatedMovies agg) (allWatchData agg) tab in
  shown `sublist_of` watched
  ∧ (count stats ≤ length shown)%nat
  ∧ (count stats = 0%nat ↔ shown = [])
  ∧ (NoDup (map (λ m, rating_key (raw m)) shown) →
     count stats = length shown)
  ∧ (Forall (λ m, 0 ≤ duration m) movieData →
     sumDurations shown ≤ totalSeconds stats)
  ∧ (watched = [] → totalWatchTime stats = "0 minutes"%string).
Proof.
  intros agg shown watched stats.
  assert (∀ p, p ∈ allWatchData agg → ∃ m, m ∈ movieData
            ∧ p = processMovie localFullYear dateParse now m) as Hall.
  { intros p Hp. unfold agg, Movies.aggregate in Hp. simpl in Hp.
    rewrite sort_Permutation in Hp.
    apply list_elem_of_fmap in Hp as (m & -> & Hm). eauto. }
  assert (watched
          = filter (λ m, Js.strict_eq (year m) (targetYear currentYear tab)
                         = true) (allWatchData agg)) as Hwatched.
  { unfold watched, allYearWatches. apply filter_ext_elem_of.
    intros p (m & _ & ->)%Hall. done. }
  assert (shown `sublist_of` watched) as Hsub.
  { rewrite Hwatched. apply filter_sublist_mono.
    unfold agg, Movies.aggregate. simpl. apply deduplicate_sublist. }
  assert (count stats = JsSet.size (map (λ m, rating_key (raw m)) shown))
    as Hcount by reflexivity.
  assert (totalSeconds stats = sumDurations watched) as Htotal
    by reflexivity.
  assert (totalWatchTime stats = formatWatchTime (sumDurations watched))
    as Htext by reflexivity.
  rewrite Hcount, Htotal, Htext. split_and!.
  - done.
  - etrans; [apply JsSet_size_le|]. by rewrite length_map.
  - rewrite JsSet_size_zero. split; [apply map_eq_nil|by intros ->].
  - intros Hnd. unfold JsSet.size.
    by rewrite JsSet_of_list_NoDup, length_map.
  - intros Hpos. apply sumDurations_sublist; [|done].
    apply Forall_forall. intros p Hp. rewrite Hwatched in Hp.
    apply list_elem_of_filter in Hp as [_ (m & Hm & ->)%Hall]. simpl.
    rewrite Forall_forall in Hpos. by apply Hpos.
  - by intros ->.
Qed.

End MoviesTabs.

(** The sample history, most recent first. *)
Lemma watch_events_witness :
  map timestampOf (Movies.allWatchData SampleHistory.aggregated)
    = [1710000000; 1705000000; 1700000000]
  ∧ StronglySorted NotAfter (Movies.allWatchData SampleHistory.aggregated)
  ∧ StronglySorted NotAfter (Movies.deduplicatedMovies SampleHistory.aggregated).
Proof.
  split; [reflexivity|].
  apply (watch_events_most_recent_first utcFullYear Sample.noDate
           Sample.notANumber 0 SampleHistory.events).
  repeat constructor; eexists; reflexivity.
Defined.


(** X5.  [formatWatchTime] on a number of seconds that is not negative:
    the days, hours (below 24) and minutes (below 60) it prints add up to
    the watch time rounded down to the whole minute; below one minute the
    text is ["0 minutes"], and from one minute on the text lists the
    units that are not zero, in the order days, hours, minutes. *)
Theorem watch_time_text_is_whole_minutes (seconds : Z) :
  0 ≤ seconds →
  let d := MoviesStats.days seconds in
  let h := MoviesStats.hours seconds in
  let m := MoviesStats.minutes seconds in
  d * 86400 + h * 3600 + m * 60 = 60 * (seconds `div` 60)
  ∧ 0 ≤ d ∧ 0 ≤ h < 24 ∧ 0 ≤ m < 60
  ∧ (seconds < 60 → MoviesStats.formatWatchTime seconds = "0 minutes"%string)
  ∧ (60 ≤ seconds →
     MoviesStats.formatWatchTime seconds
     = MoviesStats.join ", "
         ((if decide (d = 0) then [] else [MoviesStats.plural d "day"])
          ++ (if decide (h = 0) then [] else [MoviesStats.plural h "hour"])
          ++ (if decide (m = 0) then []
              else [MoviesStats.plural m "minute"]))).
Proof.
  intros Hpos d h m.
  assert (d = seconds `div` 86400) as Hd by reflexivity.
  assert (h = (seconds `mod` 86400) `div` 3600) as Hh.
  { unfold h, MoviesStats.hours. by rewrite Z.rem_mod_nonneg by lia. }
  assert (m = (seconds `mod` 3600) `div` 60) as Hm.
  { unfold m, MoviesStats.minutes. by rewrite Z.rem_mod_nonneg by lia. }
  assert (d * 86400 + h * 3600 + m * 60 = 60 * (seconds `div` 60)
          ∧ 0 ≤ d ∧ 0 ≤ h < 24 ∧ 0 ≤ m < 60) as (Hsum & Hd0 & Hh0 & Hm0).
  { rewrite Hd, Hh, Hm. clear -Hpos. Z.div_mod_to_equations. lia. }
  split_and!; try done; try lia.
  - intros Hsmall. unfold MoviesStats.formatWatchTime.
    case_decide; [done|].
    assert (d = 0 ∧ h = 0 ∧ m = 0) as (Ed & Eh & Em).
    { rewrite Hd, Hh, Hm. clear -Hpos Hsmall. Z.div_mod_to_equations. lia. }
    unfold MoviesStats.parts. fold d h m. rewrite Ed, Eh, Em. reflexivity.
  - intros Hlarge. unfold MoviesStats.formatWatchTime.
    rewrite decide_False by lia. f_equal.
    assert (d ≠ 0 ∨ h ≠ 0 ∨ m ≠ 0) as Hsome.
    { rewrite Hd, Hh, Hm. clear -Hpos Hlarge. Z.div_mod_to_equations. lia. }
    unfold MoviesStats.parts. fold d h m.
    destruct (decide (0 < d)), (decide (0 < h)), (decide (d = 0)),
      (decide (h = 0)), (decide (m = 0)); try lia; simpl;
      case_decide as Hor; simpl; try done; exfalso;
      first [lia | destruct Hor as [?|?]; (lia || done) | apply Hor; left; lia].
Qed.

Lemma watch_time_text_witness :
  MoviesStats.formatWatchTime 93784 = "1 day, 2 hours, 3 minutes"%string
  ∧ MoviesStats.formatWatchTime 59 = "0 minutes"%string
  ∧ MoviesStats.days 93784 * 86400 + MoviesStats.hours 93784 * 3600
    + MoviesStats.minutes 93784 * 60 = 60 * (93784 `div` 60).
Proof.
  destruct (watch_time_text_is_whole_minutes 93784) as (Hsum & _); [lia|].
  destruct (watch_time_text_is_whole_minutes 59) as (_ & _ & _ & _ & Hsmall & _);
    [lia|].
  split_and!; [reflexivity|apply Hsmall; lia|exact Hsum].
Defined.

(** ** TV: what a show accumulates from its episodes *)

Section TVShows.

Import TV.

Variable localFullYear : Z → Z.
Variable dateParse : string → option Z.

Local Abbreviation groupEpisode := (TV.groupEpisode dateParse).
Local Abbreviation buildShowMap := (TV.buildShowMap dateParse).
Local Abbreviation watchDateAt now :=
  (λ e : Episode, Js.watchDateOf dateParse now (date e)).

Lemma lt_irrefl (n : Js.num) : Js.lt n n = false.
Proof. destruct n; simpl; [done|]. apply bool_decide_eq_false. lia. Qed.

Lemma lt_false_trans (a b c : Js.num) :
  Js.lt a b = false → Js.lt c b = true → Js.lt a c = false.
Proof.
  destruct a, b, c; simpl; try done.
  intros H1%bool_decide_eq_false H2%bool_decide_eq_true.
  apply bool_decide_eq_false. lia.
Qed.

Lemma gt_false_trans (a b c : Js.num) :
  Js.gt a b = false → Js.gt c b = true → Js.gt a c = false.
Proof.
  unfold Js.gt. destruct a, b, c; simpl; try done.
  intros H1%bool_decide_eq_false H2%bool_decide_eq_true.
  apply bool_decide_eq_false. lia.
Qed.

(** One episode record, field by field: its show either exists and is
    updated in place, or is appended as a new show made from the
    record. *)
Lemma groupEpisode_step now (m : ShowMap) e :
  media_type e = "episode"%string →
  let wd := watchDateAt now e in
  (∃ m1 old m2,
      m = m1 ++ (showKeyOf e, old) :: m2
      ∧ groupEpisode now m e
        = m1 ++ (showKeyOf e,
                 {| s_rating_key := s_rating_key old;
                    s_title := s_title old;
                    episodes := episodes old ++ [e];
                    firstWatched :=
                      if Js.lt (Js.valueOf wd) (Js.valueOf (firstWatched old))
                      then wd else firstWatched old;
                    lastWatched :=
                      if Js.gt (Js.valueOf wd) (Js.valueOf (lastWatched old))
                      then wd else lastWatched old;
                    totalDuration := totalDuration old + duration e;
                    s_thumb := s_thumb old |}) :: m2)
  ∨ ((showKeyOf e ∉ map fst m)
     ∧ groupEpisode now m e
       = m ++ [(showKeyOf e,
                {| s_rating_key := showKeyOf e;
                   s_title := showTitleOf e;
                   episodes := [e];
                   firstWatched := wd;
                   lastWatched := wd;
                   totalDuration := 0 + duration e;
                   s_thumb := thumb e |})]).
Proof.
  intros Hep wd. unfold TV.groupEpisode. rewrite decide_False by (by intros []).
  unfold showMap_has.
  destruct (showMap_get (showKeyOf e) m) as [old|] eqn:Hget.
  - left. rewrite bool_decide_eq_true_2 by eauto. rewrite Hget.
    apply showMap_get_Some in Hget as (m1 & m2 & -> & Hfresh & Hset).
    rewrite Hset. by exists m1, old, m2.
  - right. rewrite bool_decide_eq_false_2 by (by intros [? ?]).
    apply showMap_get_None in Hget.
    rewrite showMap_set_fresh by done.
    rewrite showMap_get_app_fresh by done.
    rewrite showMap_set_app_fresh by done.
    split; [done|]. simpl. fold wd. unfold Js.gt.
    by rewrite lt_irrefl.
Qed.

Lemma durationOf_snoc (l : list Episode) (e : Episode) :
  durationOf (l ++ [e]) = durationOf l + duration e.
Proof. induction l as [|x l IH]; simpl; [lia|]. rewrite IH. lia. Qed.

Lemma episodesOf_snoc_same (showData : list Episode) (e : Episode) :
  media_type e = "episode"%string →
  episodesOf (showData ++ [e]) (showKeyOf e)
  = episodesOf showData (showKeyOf e) ++ [e].
Proof.
  intros Hep. unfold episodesOf.
  rewrite filter_app. rewrite filter_singleton_True by done. done.
Qed.

Lemma episodesOf_snoc_other (showData : list Episode) (e : Episode) k :
  media_type e ≠ "episode"%string ∨ showKeyOf e ≠ k →
  episodesOf (showData ++ [e]) k = episodesOf showData k.
Proof.
  intros Hne. unfold episodesOf.
  rewrite filter_app. rewrite filter_singleton_False, app_nil_r; [done..|].
  intros [? ?]. by destruct Hne.
Qed.

(** The invariant of the grouping loop, show by show. *)
Lemma buildShowMap_accumulates now (showData : list Episode) :
  let m := buildShowMap now showData in
  (∀ k s, (k, s) ∈ m → Accumulated (watchDateAt now) showData k s)
  ∧ (∀ e, e ∈ showData → media_type e = "episode"%string →
          showKeyOf e ∈ map fst m).
Proof.
  induction showData as [|e showData IH] using rev_ind; simpl.
  { split; [intros k s Hin|intros e Hin]; by apply elem_of_nil in Hin. }
  destruct IH as (Hacc & Hcover).
  destruct (buildShowMap_invariant dateParse now showData) as (_ & Hnd & _).
  unfold TV.buildShowMap in *. rewrite foldl_snoc.
  set (m := foldl (groupEpisode now) [] showData) in *.
  destruct (decide (media_type e = "episode"%string)) as [Hep|Hne].
  2:{ rewrite groupEpisode_other by done. split.
      - intros k s [Hk Heps Hfirst Hdur Hl Hlmax Hf Hfmin]%Hacc.
        constructor; try done.
        rewrite episodesOf_snoc_other by (by left). done.
      - intros e' [Hin| ->%list_elem_of_singleton]%elem_of_app Hep';
          [by apply Hcover|done]. }
  destruct (groupEpisode_step now m e Hep)
    as [(m1 & old & m2 & Hm & ->)|(Hfresh & ->)].
  - (* the show exists *)
    rewrite Hm in Hnd, Hacc, Hcover.
    rewrite map_app in Hnd. simpl in Hnd.
    apply NoDup_app in Hnd as (_ & Hm1 & [Hm2 _]%NoDup_cons).
    destruct (Hacc (showKeyOf e) old)
      as [Hk Heps (e0 & rest & Hlist & Htitle) Hdur
          (el & Hel & Hlast) Hlmax (ef & Hef & Hfirst) Hfmin].
    { apply elem_of_app. right. left. }
    split.
    + intros k s [Hin|[Hin|Hin]%elem_of_cons]%elem_of_app.
      * assert (showKeyOf e ≠ k) as Hother.
        { intros <-. apply (Hm1 (showKeyOf e)); [|left].
          apply (list_elem_of_fmap_2 fst) in Hin. done. }
        destruct (Hacc k s) as [? ? ? ? ? ? ? ?];
          [apply elem_of_app; by left|].
        constructor; try done.
        rewrite episodesOf_snoc_other by (by right). done.
      * injection Hin as -> ->. constructor; simpl.
        -- done.
        -- rewrite episodesOf_snoc_same by done. by rewrite Heps.
        -- exists e0, (rest ++ [e]). by rewrite Hlist.
        -- rewrite durationOf_snoc, Hdur. done.
        -- destruct (Js.gt _ _).
           ++ exists e. split; [|done]. apply elem_of_app. right. left.
           ++ exists el. split; [|done]. apply elem_of_app. by left.
        -- intros e' [He'| ->%list_elem_of_singleton]%elem_of_app.
           ++ destruct (Js.gt (Js.valueOf (watchDateAt now e))
                          (Js.valueOf (lastWatched old))) eqn:Hgt;
                [|by apply Hlmax].
              eapply gt_false_trans; [by apply Hlmax|done].
           ++ destruct (Js.gt (Js.valueOf (watchDateAt now e))
                          (Js.valueOf (lastWatched old))) eqn:Hgt;
                [|done].
              unfold Js.gt. apply lt_irrefl.
        -- destruct (Js.lt _ _).
           ++ exists e. split; [|done]. apply elem_of_app. right. left.
           ++ exists ef. split; [|done]. apply elem_of_app. by left.
        -- intros e' [He'| ->%list_elem_of_singleton]%elem_of_app.
           ++ destruct (Js.lt (Js.valueOf (watchDateAt now e))
                          (Js.valueOf (firstWatched old))) eqn:Hlt;
                [|by apply Hfmin].
              eapply lt_false_trans; [by apply Hfmin|done].
           ++ destruct (Js.lt (Js.valueOf (watchDateAt now e))
                          (Js.valueOf (firstWatched old))) eqn:Hlt;
                [|done].
              apply lt_irrefl.
      * assert (showKeyOf e ≠ k) as Hother.
        { intros <-. apply Hm2.
          apply (list_elem_of_fmap_2 fst) in Hin. done. }
        destruct (Hacc k s) as [? ? ? ? ? ? ? ?];
          [apply elem_of_app; right; by right|].
        constructor; try done.
        rewrite episodesOf_snoc_other by (by right). done.
    + intros e' [Hin| ->%list_elem_of_singleton]%elem_of_app Hep'.
      * specialize (Hcover e' Hin Hep').
        by rewrite map_app in *.
      * rewrite map_app. simpl. apply elem_of_app. right. left.
  - (* a new show *)
    split.
    + intros k s [Hin|Hin%list_elem_of_singleton]%elem_of_app.
      * assert (showKeyOf e ≠ k) as Hother.
        { intros <-. apply Hfresh.
          apply (list_elem_of_fmap_2 fst) in Hin. done. }
        destruct (Hacc k s Hin) as [? ? ? ? ? ? ? ?].
        constructor; try done.
        rewrite episodesOf_snoc_other by (by right). done.
      * injection Hin as -> ->.
        assert (episodesOf showData (showKeyOf e) = []) as Hnone.
        { destruct (episodesOf showData (showKeyOf e)) as [|x l] eqn:E;
            [done|].
          assert (x ∈ episodesOf showData (showKeyOf e)) as Hx
            by (rewrite E; left).
          apply list_elem_of_filter in Hx as [[Hxe Hxk] Hx].
          destruct Hfresh. rewrite <- Hxk. by apply Hcover. }
        constructor; simpl.
        -- done.
        -- rewrite episodesOf_snoc_same by done. by rewrite Hnone.
        -- by exists e, [].
        -- lia.
        -- exists e. split; [left|done].
        -- intros e' ->%list_elem_of_singleton. unfold Js.gt. apply lt_irrefl.
        -- exists e. split; [left|done].
        -- intros e' ->%list_elem_of_singleton. apply lt_irrefl.
    + intros e' [Hin| ->%list_elem_of_singleton]%elem_of_app Hep'.
      * rewrite map_app. apply elem_of_app. left. by apply Hcover.
      * rewrite map_app. simpl. apply elem_of_app. right. left.
Qed.

Lemma processedShows_accumulated now (showData : list Episode)
    (s : ProcessedShow) :
  s ∈ TV.processedShows localFullYear dateParse now showData →
  ∃ sh, s = processShow localFullYear sh
        ∧ Accumulated (watchDateAt now) showData (s_rating_key sh) sh.
Proof.
  unfold TV.processedShows, showMap_values.
  intros (sh & -> & ([k sh'] & -> & Hin)%list_elem_of_fmap)%list_elem_of_fmap.
  exists sh'. split; [done|]. simpl.
  destruct (buildShowMap_accumulates now showData) as [Hacc _].
  specialize (Hacc k sh' Hin). by rewrite (acc_key _ _ _ _ Hacc).
Qed.

(** X6.  Each show holds, in the order of the snapshot, exactly the
    episode records of its identity, and at least one; its title and its
    release year are those of the first of these records, its duration is
    the sum of their durations and its episode count is their number.
    Every episode record has its show in the list. *)
Theorem shows_hold_their_episodes_in_snapshot_order (now : Z)
    (showData : list Episode) :
  let shows := TV.processedShows localFullYear dateParse now showData in
  (∀ s, s ∈ shows →
     episodes (show s) = episodesOf showData (s_rating_key (show s))
     ∧ (∃ e0 rest,
          episodes (show s) = e0 :: rest
          ∧ s_title (show s) = showTitleOf e0
          ∧ releaseYear s = (if decide (year e0 = Some 0) then None
                             else year e0))
     ∧ p_duration s = durationOf (episodes (show s))
     ∧ episodeCount s
       = length (episodesOf showData (s_rating_key (show s))))
  ∧ (∀ e, e ∈ showData → media_type e = "episode"%string →
          ∃ s, s ∈ shows ∧ s_rating_key (show s) = showKeyOf e
               ∧ e ∈ episodes (show s)).
Proof.
  intros shows. split.
  - intros s (sh & -> & [_ Heps (e0 & rest & Hlist & Htitle) Hdur
                          _ _ _ _])%processedShows_accumulated.
    simpl. split_and!.
    + done.
    + exists e0, rest. split_and!; try done.
      rewrite Hlist. by destruct (year e0) as [[| |]|].
    + done.
    + by rewrite Heps.
  - intros e He Hep.
    destruct (buildShowMap_accumulates now showData) as [Hacc Hcover].
    specialize (Hcover e He Hep).
    apply list_elem_of_fmap in Hcover as ([k sh] & Hk & Hin). simpl in Hk.
    subst k. specialize (Hacc _ _ Hin) as [Hkey Heps _ _ _ _ _ _].
    exists (processShow localFullYear sh). split_and!.
    + unfold shows, TV.processedShows, showMap_values.
      apply (list_elem_of_fmap_2 (processShow localFullYear)).
      by apply (list_elem_of_fmap_2 snd) in Hin.
    + done.
    + simpl. rewrite Heps. by apply list_elem_of_filter.
Qed.

(** X7.  The date of a show is the watch date of one of its episodes,
    and no episode of the show compares later; [firstWatched] is the
    watch date of one of its episodes, and no episode compares earlier.
    (A comparison with an Invalid Date is false, so a show whose first
    record has an invalid date keeps that date.)  The year of the show is
    the year of its date. *)
Theorem show_dates_are_extremes_of_its_episodes (now : Z)
    (showData : list Episode) (s : ProcessedShow) :
  s ∈ TV.processedShows localFullYear dateParse now showData →
  (∃ e, e ∈ episodes (show s) ∧ watchDate s = watchDateAt now e)
  ∧ (∀ e, e ∈ episodes (show s) →
          Js.gt (Js.valueOf (watchDateAt now e)) (Js.valueOf (watchDate s))
          = false)
  ∧ (∀ e t t', e ∈ episodes (show s) → watchDate s = Js.Instant t →
               watchDateAt now e = Js.Instant t' → t' ≤ t)
  ∧ (∃ e, e ∈ episodes (show s)
          ∧ firstWatched (show s) = watchDateAt now e)
  ∧ (∀ e, e ∈ episodes (show s) →
          Js.lt (Js.valueOf (watchDateAt now e))
                (Js.valueOf (firstWatched (show s))) = false)
  ∧ p_year s = Js.getFullYear localFullYear (watchDate s).
Proof.
  intros (sh & -> & [_ _ _ _ Hl Hlmax Hf Hfmin])%processedShows_accumulated.
  simpl. split_and!; try done.
  intros e t t' He Ht Ht'. specialize (Hlmax e He).
  rewrite Ht, Ht' in Hlmax. simpl in Hlmax.
  apply bool_decide_eq_false in Hlmax. lia.
Qed.

End TVShows.

Lemma show_dates_witness :
  map (λ s, TV.watchDate s) Sample.officeShows
    = [Js.Instant 1700003600000; Js.Instant 1710000000000]
  ∧ ∀ e, e ∈ [Sample.episodeOf 7 "The Office" 1700000000;
              Sample.episodeOf 7 "The Office" 1700003600] →
         Js.gt (Js.valueOf (Js.watchDateOf Sample.noDate 0 (TV.date e)))
               (Js.Int 1700003600000) = false.
Proof.
  split; [reflexivity|].
  destruct (show_dates_are_extremes_of_its_episodes utcFullYear Sample.noDate
              0 Sample.officeEpisodes
              (TV.processShow utcFullYear
                 {| TV.s_rating_key := Js.KNum 7;
                    TV.s_title := "The Office";
                    TV.episodes :=
                      [Sample.episodeOf 7 "The Office" 1700000000;
                       Sample.episodeOf 7 "The Office" 1700003600];
                    TV.firstWatched := Js.Instant 1700000000000;
                    TV.lastWatched := Js.Instant 1700003600000;
                    TV.totalDuration := 3600;
                    TV.s_thumb := None |}))
    as (_ & Hmax & _).
  - vm_compute. left.
  - exact Hmax.
Defined.

(** X8.  The list of shows displayed after a fresh load is a
    rearrangement of the merged shows; when every show has a valid date
    it runs from the most recently watched show to the least recently
    watched one. *)
Theorem shows_displayed_most_recent_first
    (toLowerCase trim : string → string) (heap : list TV.ProcessedShow) :
  Forall (λ s, TV.watchDate s ≠ Js.InvalidDate) heap →
  TV.displayShows toLowerCase trim heap
    ≡ₚ TV.mergeByTitle toLowerCase trim heap
  ∧ StronglySorted ShowNotAfter (TV.displayShows toLowerCase trim heap).
Proof.
  intros Hvalid. unfold TV.displayShows. split; [apply sort_Permutation|].
  apply (sort_StronglySorted _ _ (λ s, TV.watchDate s ≠ Js.InvalidDate)).
  - intros a b Ha Hb Hc. unfold TV.byWatchDateDesc in Hc.
    destruct (TV.watchDate a) as [|x] eqn:Ea, (TV.watchDate b) as [|y] eqn:Eb;
      try done.
    simpl in Hc. apply bool_decide_eq_true in Hc.
    exists y, x. split_and!; [done..|lia].
  - intros a b Ha Hb Hc. unfold TV.byWatchDateDesc in Hc.
    destruct (TV.watchDate a) as [|x] eqn:Ea, (TV.watchDate b) as [|y] eqn:Eb;
      try done.
    simpl in Hc. apply bool_decide_eq_false in Hc.
    exists x, y. split_and!; [done..|lia].
  - intros a b c _ _ _ (x & y & Ha & Hb & ?) (y' & z & Hb' & Hc & ?).
    exists x, z. split_and!; [done..|]. rewrite Hb in Hb'. simplify_eq. lia.
  - apply Forall_forall. intros s Hs. unfold TV.mergeByTitle in Hs.
    apply list_elem_of_omap in Hs as (r & _ & Hr).
    rewrite Forall_forall in Hvalid. apply Hvalid.
    by eapply list_elem_of_lookup_2.
Qed.

Lemma shows_displayed_witness :
  TV.displayShows TV.asciiToLowerCase TV.asciiTrim Sample.officeShows
    ≡ₚ TV.mergeByTitle TV.asciiToLowerCase TV.asciiTrim Sample.officeShows
  ∧ StronglySorted ShowNotAfter
      (TV.displayShows TV.asciiToLowerCase TV.asciiTrim Sample.officeShows).
Proof.
  apply (shows_displayed_most_recent_first TV.asciiToLowerCase TV.asciiTrim
           Sample.officeShows).
  repeat constructor; discriminate.
Defined.

(** ** The client cache over several calls *)

Section CacheCalls.

Import Cache CacheSession.

Context {V : Type}.

Implicit Types (st : State V) (key : string) (v : V).

(** X9.  A value written by [set] is returned by the next [get] of the
    key as long as it is younger than 24 hours, whatever the state of the
    database, and that [get] changes nothing; the answer to a [get] of
    any other key is the one it had before the [set]. *)
Theorem set_then_get_returns_the_value st key v (t now later : Z) :
  now - t < CACHE_EXPIRATION_MS →
  get now later key (set t key v st) = (Some v, set t key v st)
  ∧ (∀ key' now' later', key' ≠ key →
       (get now' later' key' (set t key v st)).1
       = (get now' later' key' st).1).
Proof.
  intros Hfresh. split.
  - unfold get, getMemory.
    assert (memoryCache (set t key v st) !! key
            = Some {| value := v; timestamp := t |}) as ->.
    { unfold set, initDB. simpl.
      destruct (db st); [|destruct (available st)]; simpl;
        apply lookup_insert_eq. }
    simpl. by rewrite bool_decide_eq_true_2.
  - intros key' now' later' Hne. unfold get, getMemory.
    assert (memoryCache (set t key v st) !! key' = memoryCache st !! key')
      as ->.
    { unfold set, initDB. simpl.
      destruct (db st); [|destruct (available st)]; simpl;
        by rewrite lookup_insert_ne. }
    destruct (memoryCache st !! key') as [cached|] eqn:Hlook;
      [case_bool_decide; [done|]|];
      unfold getIndexedDB, set, initDB; simpl;
      destruct (db st); [|destruct (available st)| |destruct (available st)];
      simpl; rewrite ?lookup_insert_ne by done;
      try (destruct (store st !! key') as [result|]; simpl;
           [repeat case_bool_decide; simpl|]); done.
Qed.

(** X10.  Persistence across a page reload: when the database can be
    opened, a value written by [set] (at a clock reading other than 0) is
    returned by a [get] of the new cache object while it is younger than
    24 hours, and is then in memory again; when the database cannot be
    opened, the value is lost with the reload. *)
Theorem cached_value_survives_reload st key v (t now later : Z) :
  (available st = true → t ≠ 0 → later - t < CACHE_EXPIRATION_MS →
   let out := get now later key (reload (set t key v st)) in
   out.1 = Some v
   ∧ memoryCache out.2 !! key = Some {| value := v; timestamp := t |})
  ∧ (available st = false →
     (get now later key (reload (set t key v st)) ).1 = None).
Proof.
  split.
  - intros Hav Ht Hfresh.
    unfold get, getMemory, reload, newCache. simpl.
    rewrite lookup_empty. unfold getIndexedDB, initDB, set, initDB. simpl.
    rewrite Hav. destruct (db st); simpl; rewrite lookup_insert_eq; simpl;
      rewrite bool_decide_eq_false_2, bool_decide_eq_true_2 by done; simpl;
      by rewrite lookup_insert_eq.
  - intros Hav. unfold get, getMemory, reload, newCache. simpl.
    rewrite lookup_empty. unfold getIndexedDB, initDB, set, initDB. simpl.
    rewrite Hav. by destruct (db st).
Qed.

(** X11.  [clear] empties the memory map.  When the cache object has
    opened the database, it empties the object store as well and every
    later [get] is a miss; when it has not (no [get] or [set] was made
    since the page load), the object store is left as it is, and an entry
    stored there that is younger than 24 hours is still returned. *)
Theorem clear_forgets_only_what_is_open st :
  memoryCache (clear st) = ∅
  ∧ (db st = true →
     store (clear st) = ∅
     ∧ ∀ now later key, (get now later key (clear st)).1 = None)
  ∧ (db st = false →
     store (clear st) = store st
     ∧ ∀ now later key e,
         available st = true → store st !! key = Some e →
         timestamp e ≠ 0 → later - timestamp e < CACHE_EXPIRATION_MS →
         (get now later key (clear st)).1 = Some (value e)).
Proof.
  split_and!.
  - done.
  - intros Hdb. unfold clear. rewrite Hdb. split; [done|].
    intros now later key. unfold get, getMemory. simpl.
    rewrite lookup_empty. unfold getIndexedDB, initDB. simpl.
    by rewrite lookup_empty.
  - intros Hdb. unfold clear. rewrite Hdb. split; [done|].
    intros now later key e Hav Hstore Ht Hfresh.
    unfold get, getMemory. simpl.
    rewrite lookup_empty. unfold getIndexedDB, initDB. simpl.
    rewrite Hav. simpl. rewrite Hstore.
    by rewrite bool_decide_eq_false_2, bool_decide_eq_true_2.
Qed.

(** X12.  A [get] that returns a value returns the value of a stored
    copy that is younger than 24 hours: the copy in memory, or else the
    copy in the object store (whose timestamp is not 0).  Afterwards the
    value is in memory. *)
Theorem get_returns_only_fresh_copies st key v (now later : Z) :
  (get now later key st).1 = Some v →
  ((∃ e, memoryCache st !! key = Some e ∧ value e = v
         ∧ now - timestamp e < CACHE_EXPIRATION_MS)
   ∨ (∃ e, store st !! key = Some e ∧ value e = v ∧ timestamp e ≠ 0
           ∧ later - timestamp e < CACHE_EXPIRATION_MS
           ∧ db st || available st = true))
  ∧ ∃ e, memoryCache (get now later key st).2 !! key = Some e
         ∧ value e = v.
Proof.
  unfold get, getMemory.
  destruct (memoryCache st !! key) as [cached|] eqn:Hlook.
  - case_bool_decide as Hage; simpl.
    + intros [= <-]. split; [left|]; eauto.
    + unfold getIndexedDB, initDB. simpl.
      destruct (db st) eqn:Edb; [|destruct (available st) eqn:Eav]; simpl;
        [| |done];
        (destruct (store st !! key) as [result|] eqn:Hres; simpl; [|done]);
        case_bool_decide as Hz; simpl; [done| |done|];
        case_bool_decide as Hfresh; simpl; [|done| |done];
        intros [= <-]; (split; [right; exists result; by split_and!|]);
        eexists; (split; [apply lookup_insert_eq|done]).
  - unfold getIndexedDB, initDB.
    destruct (db st) eqn:Edb; [|destruct (available st) eqn:Eav]; simpl;
      [| |done];
      (destruct (store st !! key) as [result|] eqn:Hres; simpl; [|done]);
      case_bool_decide as Hz; simpl; [done| |done|];
      case_bool_decide as Hfresh; simpl; [|done| |done];
      intros [= <-]; (split; [right; exists result; by split_and!|]);
      eexists; (split; [apply lookup_insert_eq|done]).
Qed.

Lemma run_Coherent (ops : list (Op V)) clock st :
  Coherent clock st → Chronological clock ops →
  Coherent (clockAfter clock ops) (run ops st).
Proof.
  revert clock st.
  induction ops as [|[now later key|now key v|] ops IH]; intros clock st Hcoh;
    simpl; [done|..].
  - intros (Hnow & Hlater & Hrest). apply IH; [|done].
    by apply (get_Coherent clock).
  - intros (Hnow & Hrest). apply IH; [|done]. by apply (set_Coherent clock).
  - intros Hrest. apply IH; [|done]. by apply clear_Coherent.
Qed.

(** X13.  One cache object, used from a page load on with a clock that
    does not run backwards, over a database whose entries are not dated
    in the future: once the copy of a key in memory is 24 hours old, a
    [get] of the key is a miss, since the object store cannot hold a
    younger copy. *)
Theorem expired_memory_copy_means_miss
    (store0 : gmap string (Entry V)) (avail : bool) (clock : Z)
    (ops : list (Op V)) key (e : Entry V) (now later : Z) :
  (∀ k e0, store0 !! k = Some e0 → timestamp e0 ≤ clock) →
  Chronological clock ops →
  clockAfter clock ops ≤ now → now ≤ later →
  memoryCache (run ops (newCache store0 avail)) !! key = Some e →
  CACHE_EXPIRATION_MS ≤ now - timestamp e →
  (get now later key (run ops (newCache store0 avail))).1 = None.
Proof.
  intros Hstore0 Hchron Hnow Hlater Hmem Hexp.
  assert (Coherent clock (newCache store0 avail)) as Hinit.
  { constructor; simpl; [|done|]; intros ?; intros; by rewrite lookup_empty in *. }
  pose proof (run_Coherent ops clock _ Hinit Hchron) as Hcoh.
  set (st := run ops (newCache store0 avail)) in *.
  pose proof (Coherent_expired _ st key e now Hcoh Hmem Hexp) as Hold.
  unfold get, getMemory. rewrite Hmem.
  rewrite bool_decide_eq_false_2 by lia.
  unfold getIndexedDB, initDB. simpl.
  destruct (db st); [|destruct (available st)]; simpl; [| |done];
    (destruct (store st !! key) as [result|] eqn:Hres; simpl; [|done]);
    specialize (Hold result eq_refl);
    case_bool_decide; simpl; [done| |done|];
    by rewrite bool_decide_eq_false_2 by lia.
Qed.

End CacheCalls.

Lemma set_then_get_witness :
  let st0 : Cache.State string := CacheSession.newCache ∅ false in
  Cache.get 5000 5001 "movies-prod"
    (Cache.set 1000 "movies-prod" "payload"%string st0)
  = (Some "payload"%string,
     Cache.set 1000 "movies-prod" "payload"%string st0).
Proof.
  intros st0.
  destruct (set_then_get_returns_the_value st0 "movies-prod"
              "payload"%string 1000 5000 5001) as [Hget _]; [reflexivity|].
  exact Hget.
Defined.

Lemma reload_witness :
  let st0 : Cache.State string := CacheSession.newCache ∅ true in
  (Cache.get 5000 5001 "movies-prod"
     (CacheSession.reload
        (Cache.set 1000 "movies-prod" "payload"%string st0))).1
  = Some "payload"%string.
Proof.
  intros st0.
  destruct (cached_value_survives_reload st0 "movies-prod" "payload"%string
              1000 5000 5001) as [Hkeep _].
  destruct Hkeep as [Hout _]; [reflexivity|discriminate|reflexivity|].
  exact Hout.
Defined.

Lemma get_fresh_witness :
  let st : Cache.State string :=
    CacheSession.newCache
      {[ "k"%string := {| Cache.value := "v"%string;
                          Cache.timestamp := 1000 |} ]} true in
  ∃ e, Cache.memoryCache (Cache.get 5000 5001 "k" st).2 !! "k"%string = Some e
       ∧ Cache.value e = "v"%string.
Proof.
  intros st.
  destruct (get_returns_only_fresh_copies st "k" "v"%string 5000 5001)
    as [_ Hmem]; [reflexivity|].
  exact Hmem.
Defined.

(** A value written at clock reading 1000 and read back a day and a
    second later by the same cache object. *)
Lemma expired_memory_copy_witness :
  (Cache.get 86401000 86401005 "k"
     (CacheSession.run [CacheSession.OpSet 1000 "k" "v"%string]
        (CacheSession.newCache ∅ true))).1 = None.
Proof.
  apply (expired_memory_copy_means_miss ∅ true 0
           [CacheSession.OpSet 1000 "k" "v"%string] "k"
           {| Cache.value := "v"%string; Cache.timestamp := 1000 |}).
  - intros k e0 He0. by rewrite lookup_empty in He0.
  - simpl. lia.
  - simpl. lia.
  - lia.
  - reflexivity.
  - vm_compute. discriminate.
Defined.

(** ** The ranking editor: placement, removal and the unranked list *)

Section EditorMoves.

Import Editor EditorLists.

Local Abbreviation keys l := (map r_rating_key l).

Lemma handleDrop_in_range (l : list RankingEntry) (s d : nat)
    (transferred : Z) (dragged : RankingEntry) :
  l !! s = Some dragged → (d < length l)%nat → s ≠ d →
  let pos := if decide (s < d)%nat then pred d else d in
  handleDrop (Some (Z.of_nat s)) transferred (Z.of_nat d) l
  = take pos (delete s l) ++ dragged :: drop pos (delete s l).
Proof.
  intros Hs Hd Hne pos.
  assert (s < length l)%nat as Hlen by (by eapply lookup_lt_Some).
  unfold handleDrop. simpl.
  rewrite (bool_decide_eq_false_2 (Z.of_nat s = -1)) by lia.
  rewrite (bool_decide_eq_false_2 (Z.of_nat s = Z.of_nat d)) by lia.
  rewrite (bool_decide_eq_false_2 (Z.of_nat s < 0)) by lia.
  rewrite (bool_decide_eq_false_2 (Z.of_nat (length l) ≤ Z.of_nat s)) by lia.
  simpl. rewrite Nat2Z.id, Hs.
  unfold splice_insert, splice_remove. rewrite Nat2Z.id.
  rewrite length_delete by eauto.
  assert (Z.to_nat
            (if bool_decide
                  ((if bool_decide (Z.of_nat s < Z.of_nat d)
                    then Z.of_nat d - 1 else Z.of_nat d) < 0)
             then Z.max (Z.of_nat (length l - 1)
                         + (if bool_decide (Z.of_nat s < Z.of_nat d)
                            then Z.of_nat d - 1 else Z.of_nat d)) 0
             else Z.min (if bool_decide (Z.of_nat s < Z.of_nat d)
                         then Z.of_nat d - 1 else Z.of_nat d)
                        (Z.of_nat (length l - 1))) = pos) as ->; [|done].
  unfold pos. destruct (decide (s < d)%nat).
  - rewrite (bool_decide_eq_true_2 (Z.of_nat s < Z.of_nat d)) by lia.
    rewrite bool_decide_eq_false_2 by lia. lia.
  - rewrite (bool_decide_eq_false_2 (Z.of_nat s < Z.of_nat d)) by lia.
    rewrite bool_decide_eq_false_2 by lia. lia.
Qed.

(** X14.  Dropping the entry at index [s] on the entry at index [d]
    (both in the list, [s] different from [d]) puts the dragged entry
    immediately before the entry it was dropped on and keeps the order of
    all other entries; dropping an entry on its direct successor
    therefore changes nothing.  A source index outside the list changes
    nothing either. *)
Theorem dropped_entry_lands_before_its_target (l : list RankingEntry)
    (s d : nat) (transferred : Z) (dragged target : RankingEntry) :
  l !! s = Some dragged → l !! d = Some target → s ≠ d →
  let r := handleDrop (Some (Z.of_nat s)) transferred (Z.of_nat d) l in
  let pos := if decide (s < d)%nat then pred d else d in
  r !! pos = Some dragged
  ∧ r !! S pos = Some target
  ∧ delete pos r = delete s l
  ∧ (d = S s → r = l)
  ∧ (∀ source dropIndex,
       source < 0 ∨ Z.of_nat (length l) ≤ source →
       handleDrop (Some source) transferred dropIndex l = l).
Proof.
  intros Hs Hd Hne r pos.
  assert (s < length l)%nat as Hslen by (by eapply lookup_lt_Some).
  assert (d < length l)%nat as Hdlen by (by eapply lookup_lt_Some).
  assert (r = take pos (delete s l) ++ dragged :: drop pos (delete s l))
    as Hr by (by apply handleDrop_in_range).
  assert (pos ≤ length (delete s l))%nat as Hpos.
  { rewrite length_delete by eauto. unfold pos. case_decide; lia. }
  assert (length (take pos (delete s l)) = pos) as Htake
    by (rewrite length_take; lia).
  split_and!.
  - rewrite Hr, lookup_app_r by lia. by rewrite Htake, Nat.sub_diag.
  - rewrite Hr, lookup_app_r by lia.
    replace (S pos - length (take pos (delete s l)))%nat with 1%nat by lia.
    simpl. rewrite lookup_drop, Nat.add_0_r.
    unfold pos. destruct (decide (s < d)%nat).
    + rewrite list_lookup_delete_ge by lia.
      by replace (S (pred d)) with d by lia.
    + by rewrite list_lookup_delete_lt by lia.
  - rewrite Hr. rewrite <- Htake at 1.
    rewrite (delete_middle (take pos (delete s l))).
    apply take_drop.
  - intros ->. rewrite Hr. unfold pos. rewrite decide_True by lia. simpl.
    rewrite delete_take_drop.
    rewrite take_app_length' by (rewrite length_take; lia).
    rewrite drop_app_length' by (rewrite length_take; lia).
    by apply take_drop_middle.
  - intros source dropIndex Hout. unfold handleDrop. simpl.
    destruct (bool_decide (source = -1) || bool_decide (source = dropIndex));
      [done|].
    destruct Hout.
    + by rewrite (bool_decide_eq_true_2 (source < 0)).
    + rewrite (bool_decide_eq_true_2 (_ ≤ source)) by done.
      by rewrite orb_true_r.
Qed.

(** X15.  Removing an identity leaves no entry with it and keeps the
    other entries in their order; removing an identity that is not
    ranked changes nothing; adding a movie and removing it again gives
    the list back exactly when the movie was not ranked before. *)
Theorem remove_undoes_add (l : list RankingEntry) (k : Js.key)
    (movie : RankingEntry) :
  (k ∉ keys (removeFromRankings k l))
  ∧ removeFromRankings k l `sublist_of` l
  ∧ (∀ r, r ∈ l → r_rating_key r ≠ k → r ∈ removeFromRankings k l)
  ∧ (k ∉ keys l → removeFromRankings k l = l)
  ∧ (r_rating_key movie ∉ keys l →
     removeFromRankings (r_rating_key movie) (addToRankings movie l) = l)
  ∧ (r_rating_key movie ∈ keys l →
     removeFromRankings (r_rating_key movie) (addToRankings movie l) ≠ l).
Proof.
  assert (∀ k' (l' : list RankingEntry),
            (k' ∉ keys l') → removeFromRankings k' l' = l') as Hid.
  { intros k' l' Hk. unfold removeFromRankings.
    induction l' as [|r l' IH]; [done|]. simpl in Hk.
    apply not_elem_of_cons in Hk as [Hne Hk].
    rewrite filter_cons_True by done. by rewrite IH. }
  assert (∀ k' (l' : list RankingEntry),
            k' ∉ keys (removeFromRankings k' l')) as Hgone.
  { intros k' l' (r & Hk & [Hr _]%list_elem_of_filter)%list_elem_of_fmap.
    done. }
  split_and!.
  - apply Hgone.
  - apply sublist_filter.
  - intros r Hr Hne. by apply list_elem_of_filter.
  - apply Hid.
  - intros Hnew. unfold addToRankings.
    destruct (some_same_key movie l) eqn:Hsome.
    { apply some_same_key_elem_of in Hsome. done. }
    unfold removeFromRankings. rewrite filter_app.
    rewrite (filter_singleton_False _ movie []) by (intros Hne; by apply Hne).
    rewrite app_nil_r. by apply Hid.
  - intros Hranked Heq. apply (Hgone (r_rating_key movie) (addToRankings movie l)).
    by rewrite Heq.
Qed.

Lemma uniqueMovies_spec (movies : list RankingEntry) :
  NoDup (keys (uniqueMovies movies))
  ∧ uniqueMovies movies `sublist_of` movies
  ∧ (∀ k, k ∈ keys (uniqueMovies movies) ↔ k ∈ keys movies).
Proof.
  unfold uniqueMovies.
  induction movies as [|m movies (Hnd & Hsub & Hin)] using rev_ind; simpl.
  { split_and!; [apply NoDup_nil; done|done|done]. }
  rewrite foldl_snoc.
  set (seen := foldl _ [] movies) in *.
  destruct (decide (r_rating_key m ∈ keys seen)) as [Hm|Hm].
  - split_and!; [done|by apply sublist_inserts_r|].
    intros k. rewrite map_app, elem_of_app, <- Hin. simpl.
    rewrite list_elem_of_singleton. split; [by left|].
    by intros [?| ->].
  - split_and!.
    + rewrite map_app. apply NoDup_app. split_and!; [done| |apply NoDup_singleton].
      by intros k Hk ->%list_elem_of_singleton.
    + by apply sublist_app.
    + intros k. by rewrite !map_app, !elem_of_app, Hin.
Qed.

(** X16.  The list of movies offered for ranking: it holds each identity
    at most once, none that is ranked, and every identity of [movies]
    that is not ranked; each of its elements, when added, goes to the end
    of the ranking and leaves the offered list. *)
Theorem unranked_movies_are_exactly_the_missing_ones
    (movies rankings : list RankingEntry) :
  NoDup (keys (unrankedMovies movies rankings))
  ∧ (∀ k, k ∈ keys (unrankedMovies movies rankings)
          ↔ k ∈ keys movies ∧ k ∉ keys rankings)
  ∧ (∀ m, m ∈ unrankedMovies movies rankings →
          m ∈ movies
          ∧ addToRankings m rankings = rankings ++ [m]
          ∧ m ∉ unrankedMovies movies (addToRankings m rankings)).
Proof.
  destruct (uniqueMovies_spec movies) as (Hnd & Hsub & Hin).
  split_and!.
  - assert (keys (unrankedMovies movies rankings)
            `sublist_of` keys (uniqueMovies movies)) as Hkeys
      by apply (fmap_sublist r_rating_key), sublist_filter.
    by eapply sublist_NoDup.
  - intros k. rewrite <- Hin. unfold unrankedMovies. split.
    + intros (m & -> & [Hm Hu]%list_elem_of_filter)%list_elem_of_fmap.
      split; [|done]. by apply (list_elem_of_fmap_2 r_rating_key).
    + intros [(m & -> & Hu)%list_elem_of_fmap Hk].
      apply (list_elem_of_fmap_2 r_rating_key).
      by apply list_elem_of_filter.
  - intros m [Hm Hu]%list_elem_of_filter.
    assert (addToRankings m rankings = rankings ++ [m]) as Hadd.
    { unfold addToRankings.
      destruct (some_same_key m rankings) eqn:Hsome; [|done].
      by apply some_same_key_elem_of in Hsome. }
    split_and!.
    + by eapply sublist_subseteq.
    + done.
    + rewrite Hadd. unfold unrankedMovies.
      intros [Hm' _]%list_elem_of_filter. apply Hm'.
      rewrite map_app. apply elem_of_app. right. left.
Qed.

End EditorMoves.

Lemma dropped_entry_witness :
  let e k := mkRankingEntry (Js.KNum k) "t" in
  Editor.handleDrop (Some 0) 0 2 [e 1; e 2; e 3; e 4] !! 1%nat = Some (e 1)
  ∧ Editor.handleDrop (Some 0) 0 2 [e 1; e 2; e 3; e 4] !! 2%nat
    = Some (e 3).
Proof.
  intros e.
  destruct (dropped_entry_lands_before_its_target [e 1; e 2; e 3; e 4]
              0 2 0 (e 1) (e 3)) as (Hdragged & Htarget & _);
    [reflexivity|reflexivity|lia|].
  split; [exact Hdragged|exact Htarget].
Defined.

(** ** The ranking endpoints: what is saved is what is served *)

Section RankingFiles.

Import Server EditorLists.

Variable rankingsDir : string.

Local Abbreviation getRankingsPath := (Server.getRankingsPath rankingsDir).
Local Abbreviation getRankings := (Server.getRankings rankingsDir).
Local Abbreviation postRankings := (Server.postRankings rankingsDir).

Lemma join_inj (dir a b : string) : Server.join dir a = Server.join dir b → a = b.
Proof.
  assert (∀ p x y : string, (p +:+ x)%string = (p +:+ y)%string → x = y)
    as Hcancel.
  { induction p as [|c p IH]; intros x y Heq; [exact Heq|].
    change (String c (p +:+ x) = String c (p +:+ y)) in Heq.
    injection Heq as Heq. by apply IH. }
  unfold Server.join. intros Heq%Hcancel.
  by apply (Hcancel "/"%string).
Qed.

Lemma getRankingsPath_endpoint (contentType : string) :
  getRankingsPath (endpoint contentType) = getRankingsPath contentType
  ∧ getRankingsPath contentType
    = Server.join rankingsDir (filename contentType).
Proof.
  unfold Server.getRankingsPath, endpoint, filename.
  destruct (decide (contentType = "tv"%string)) as [->|Htv]; [done|].
  destruct (decide (contentType = "comics"%string)) as [->|Hcomics]; done.
Qed.

(** X17.  After a successful POST of an array, GET for the same content
    type answers 200 with that array; GET for a content type that
    resolves to another file answers as before; and ['tv'], ['comics']
    and ['movies'] resolve to three different files. *)
Theorem saved_rankings_are_served_back (contentType : string)
    (items : list json) (fs : FS) :
  writable fs = true →
  let fs' := (postRankings contentType (Some (JArr items)) fs).2 in
  getRankings contentType fs' = {| status := 200; body := JArr items |}
  ∧ (∀ other, getRankingsPath other ≠ getRankingsPath contentType →
              getRankings other fs' = getRankings other fs)
  ∧ getRankingsPath "tv" ≠ getRankingsPath "comics"
  ∧ getRankingsPath "tv" ≠ getRankingsPath "movies"
  ∧ getRankingsPath "comics" ≠ getRankingsPath "movies".
Proof.
  intros Hw fs'.
  assert (files fs' = <[getRankingsPath contentType := JsonText (JArr items)]>
                        (files fs)) as Hfiles.
  { unfold fs', Server.postRankings. simpl. by rewrite Hw. }
  split_and!.
  - unfold Server.getRankings. by rewrite Hfiles, lookup_insert_eq.
  - intros other Hne. unfold Server.getRankings.
    by rewrite Hfiles, lookup_insert_ne.
  - by intros ?%join_inj.
  - by intros ?%join_inj.
  - by intros ?%join_inj.
Qed.

(** X18.  The two tabs and the server agree on the files: the endpoint
    that a tab calls for its content type resolves on the server to the
    file of the name that the tab loads in production, and two content
    types share a file exactly when they share the endpoint.  So what
    the editor of a content type saves is what the ranking tab of that
    content type is served. *)
Theorem tabs_and_server_agree_on_ranking_files (contentType : string) :
  getRankingsPath (endpoint contentType)
    = Server.join rankingsDir (filename contentType)
  ∧ (∀ other,
       getRankingsPath (endpoint other) = getRankingsPath (endpoint contentType)
       ↔ endpoint other = endpoint contentType)
  ∧ (∀ items fs,
       writable fs = true →
       getRankings (endpoint contentType)
         (postRankings (endpoint contentType) (Some (JArr items)) fs).2
       = {| status := 200; body := JArr items |}).
Proof.
  destruct (getRankingsPath_endpoint contentType) as [Hsame Hfile].
  split_and!.
  - by rewrite Hsame.
  - intros other. split; [|by intros ->].
    destruct (getRankingsPath_endpoint other) as [-> ->]. rewrite Hsame, Hfile.
    intros Heq%join_inj. revert Heq. unfold filename, endpoint.
    repeat case_decide; done.
  - intros items fs Hw. unfold Server.getRankings, Server.postRankings.
    simpl. rewrite Hw. simpl. by rewrite lookup_insert_eq.
Qed.

End RankingFiles.

Lemma saved_rankings_witness :
  Server.getRankings SampleFiles.dir "tv"
    (Server.postRankings SampleFiles.dir "tv"
       (Some (Server.JArr [SampleFiles.entry 7 "Show"])) SampleFiles.disk).2
  = {| Server.status := 200;
       Server.body := Server.JArr [SampleFiles.entry 7 "Show"] |}
  ∧ Server.getRankings SampleFiles.dir "movies"
      (Server.postRankings SampleFiles.dir "tv"
         (Some (Server.JArr [SampleFiles.entry 7 "Show"])) SampleFiles.disk).2
    = Server.getRankings SampleFiles.dir "movies" SampleFiles.disk.
Proof.
  destruct (saved_rankings_are_served_back SampleFiles.dir "tv"
              [SampleFiles.entry 7 "Show"] SampleFiles.disk)
    as (Hback & Hother & _); [reflexivity|].
  split; [exact Hback|]. apply Hother. discriminate.
Defined.

(** ** TV: the statistics of a tab *)

Section TVTabs.

Import TV TVStats.

Variable localFullYear : Z → Z.
Variable dateParse : string → option Z.
Variable stringToNumber : string → Js.num.

Local Abbreviation processedShows :=
  (TV.processedShows localFullYear dateParse).
Local Abbreviation allEpisodeWatches :=
  (TVStats.allEpisodeWatches localFullYear dateParse).
Local Abbreviation allYearEpisodes :=
  (TVStats.allYearEpisodes localFullYear stringToNumber).
Local Abbreviation getYearStats :=
  (TVStats.getYearStats localFullYear stringToNumber).
Local Abbreviation yearAt clock :=
  (λ e : Episode,
     Js.getFullYear localFullYear (Js.watchDateOf dateParse clock (date e))).

Lemma filter_map_comm {A B} (f : A → B) (P : B → Prop)
    `{!∀ y, Decision (P y)} (l : list A) :
  filter P (map f l) = map f (filter (λ x, P (f x)) l).
Proof.
  induction l as [|x l IH]; [done|]. simpl.
  rewrite !filter_cons, IH. by case_decide.
Qed.

Lemma foldl_durations {A} (d : A → Z) (l : list A) (a : Z) :
  foldl (λ sum e, sum + d e) a l = a + foldr (λ e acc, d e + acc) 0 l.
Proof.
  revert a. induction l as [|x l IH]; intros a; simpl; [lia|].
  rewrite IH. lia.
Qed.

Lemma allYearEpisodes_fresh currentYear later showData tab :
  allYearEpisodes currentYear (allEpisodeWatches later showData) tab
  = map (λ e, {| episode := e;
                 watchDate := Some (Js.watchDateOf dateParse later (date e));
                 year := yearAt later e |})
      (filter (λ e, media_type e = "episode"%string
                    ∧ Js.strict_eq (yearAt later e)
                        (targetYear currentYear tab) = true) showData).
Proof.
  unfold TVStats.allYearEpisodes, TVStats.allEpisodeWatches.
  rewrite filter_map_comm. f_equal.
  rewrite list_filter_filter. apply list_filter_iff.
  intros e. unfold TVStats.watchYearOf. simpl. tauto.
Qed.

Lemma yearAt_same_year now later (e : Episode) :
  localFullYear later = localFullYear now → yearAt later e = yearAt now e.
Proof.
  intros Hyear. cbv beta. destruct (date e); simpl; [done..|].
  by rewrite Hyear.
Qed.

(** X19.  The statistics of a tab after a fresh load, when the two
    passes over the snapshot read the clock in the same year:
    [totalEpisodes] is the number of episode records watched in the year
    of the tab and the watch time adds up their durations; every show
    displayed under the tab has one of its episodes among them, so the
    number of shows counted is at most the number of episodes. *)
Theorem tab_counts_no_more_shows_than_episodes
    (toLowerCase trim : string → string) (currentYear now later : Z)
    (showData : list Episode) (tab : Tab) :
  localFullYear later = localFullYear now →
  let shows := displayShows toLowerCase trim (processedShows now showData) in
  let watches := allEpisodeWatches later showData in
  let inYear :=
    filter (λ e, media_type e = "episode"%string
                 ∧ Js.strict_eq (yearAt later e) (targetYear currentYear tab)
                   = true) showData in
  let stats := getYearStats currentYear shows watches tab in
  totalEpisodes stats = length inYear
  ∧ totalSeconds stats = durationOf inYear
  ∧ (∀ s, s ∈ getShowsByYear currentYear shows tab →
          ∃ e, e ∈ inYear ∧ e ∈ episodes (show s))
  ∧ (count stats ≤ totalEpisodes stats)%nat.
Proof.
  intros Hyear shows watches inYear stats.
  assert (totalEpisodes stats = length inYear) as Htotal.
  { change (totalEpisodes stats)
      with (length (allYearEpisodes currentYear watches tab)).
    unfold watches. rewrite allYearEpisodes_fresh. by rewrite length_map. }
  assert (∀ s, s ∈ getShowsByYear currentYear shows tab →
               ∃ e, e ∈ inYear ∧ e ∈ episodes (show s)
                    ∧ showKeyOf e = s_rating_key (show s)) as Hshown.
  { intros s [Hy Hs]%list_elem_of_filter.
    unfold shows, displayShows in Hs. rewrite sort_Permutation in Hs.
    apply list_elem_of_omap in Hs as (r & _ & Hs%list_elem_of_lookup_2).
    apply processedShows_accumulated in Hs
      as (sh & -> & [_ Heps _ _ (e & He & Hlast) _ _ _]).
    simpl in *. exists e.
    assert (e ∈ episodesOf showData (s_rating_key sh)) as Hin
      by (by rewrite <- Heps).
    apply list_elem_of_filter in Hin as [[Hep Hkey] Hin].
    split_and!; [|done..].
    apply list_elem_of_filter. split; [|done]. split; [done|].
    rewrite (yearAt_same_year now) by done. by rewrite <- Hlast. }
  split_and!.
  - done.
  - change (totalSeconds stats)
      with (foldl (λ sum e, sum + duration (episode e)) 0
              (allYearEpisodes currentYear watches tab)).
    unfold watches. rewrite allYearEpisodes_fresh, foldl_fmap. simpl.
    by rewrite foldl_durations.
  - intros s (e & ? & ? & _)%Hshown. eauto.
  - rewrite Htotal.
    change (count stats)
      with (JsSet.size (map (λ s, s_rating_key (show s))
                          (getShowsByYear currentYear shows tab))).
    unfold JsSet.size.
    set (ks := map (λ s, s_rating_key (show s)) _).
    destruct (JsSet_of_list_spec ks) as [Hnd Hin].
    rewrite <- (length_map showKeyOf inYear).
    apply submseteq_length, NoDup_submseteq; [done|].
    intros k (s & -> & Hs)%Hin%list_elem_of_fmap.
    apply Hshown in Hs as (e & He & _ & <-).
    by apply (list_elem_of_fmap_2 showKeyOf).
Qed.

End TVTabs.

Lemma tab_counts_witness :
  let stats :=
    TVStats.getYearStats utcFullYear Sample.notANumber 2026
      (TV.displayShows TV.asciiToLowerCase TV.asciiTrim Sample.officeShows)
      (TVStats.allEpisodeWatches utcFullYear Sample.noDate 5
         Sample.officeEpisodes) (TabYear (Js.Int 2023)) in
  TVStats.count stats = 1%nat ∧ TVStats.totalEpisodes stats = 2%nat
  ∧ (TVStats.count stats ≤ TVStats.totalEpisodes stats)%nat.
Proof.
  intros stats.
  destruct (tab_counts_no_more_shows_than_episodes utcFullYear Sample.noDate
              Sample.notANumber TV.asciiToLowerCase TV.asciiTrim
              2026 0 5 Sample.officeEpisodes
              (TabYear (Js.Int 2023))) as (_ & _ & _ & Hle); [reflexivity|].
  split_and!; [reflexivity|reflexivity|exact Hle].
Defined.

(** ** Comics: one entry per series *)

Section ComicsSeries.

Import ComicsList.

Lemma JsMap_get_None {K V} `{EqDecision K} (k : K) (m : list (K * V)) :
  JsMap.get k m = None ↔ (k ∉ map fst m).
Proof.
  induction m as [|[k' v] m IH]; simpl.
  - split; [intros _; apply not_elem_of_nil|done].
  - destruct (decide (k' = k)) as [->|Hne].
    + split; [done|]. intros Hk. destruct Hk. left.
    + rewrite IH, not_elem_of_cons. split; [by split|by intros []].
Qed.

Lemma JsMap_get_Some {K V} `{EqDecision K} (k : K) (v : V)
    (m : list (K * V)) :
  JsMap.get k m = Some v → (k, v) ∈ m.
Proof.
  induction m as [|[k' v'] m IH]; simpl; [done|].
  destruct (decide (k' = k)) as [->|Hne].
  - intros [= ->]. left.
  - intros Hget. right. by apply IH.
Qed.

Lemma JsMap_set_keys {K V} `{EqDecision K} (k : K) (v : V)
    (m : list (K * V)) :
  map fst (JsMap.set k v m)
  = if decide (k ∈ map fst m) then map fst m else map fst m ++ [k].
Proof.
  induction m as [|[k' v'] m IH]; simpl.
  - done.
  - destruct (decide (k' = k)) as [->|Hne]; simpl.
    + rewrite decide_True; [done|left].
    + rewrite IH. destruct (decide (k ∈ map fst m)) as [Hin|Hin].
      * rewrite decide_True; [done|by right].
      * rewrite decide_False; [done|].
        apply not_elem_of_cons. by split.
Qed.

Lemma JsMap_set_elem_of {K V} `{EqDecision K} (k k' : K) (v v' : V)
    (m : list (K * V)) :
  NoDup (map fst m) →
  (k', v') ∈ JsMap.set k v m →
  (k' = k ∧ v' = v) ∨ (k' ≠ k ∧ (k', v') ∈ m).
Proof.
  induction m as [|[k0 v0] m IH]; simpl; intros Hnd.
  - intros [= -> ->]%list_elem_of_singleton. by left.
  - apply NoDup_cons in Hnd as [Hk0 Hnd].
    destruct (decide (k0 = k)) as [->|Hne].
    + intros [[= -> ->]|Hin]%elem_of_cons; [by left|].
      right. split; [|by right].
      intros ->. apply Hk0. by apply (list_elem_of_fmap_2 fst) in Hin.
    + intros [[= -> ->]|Hin]%elem_of_cons.
      * right. split; [done|left].
      * destruct (IH Hnd Hin) as [?|[? ?]]; [by left|right].
        split; [done|by right].
Qed.

Lemma JsMap_set_elem_of_2 {K V} `{EqDecision K} (k : K) (v : V)
    (m : list (K * V)) :
  (k, v) ∈ JsMap.set k v m
  ∧ ∀ k' v', (k', v') ∈ m → k' ≠ k → (k', v') ∈ JsMap.set k v m.
Proof.
  induction m as [|[k0 v0] m [IH1 IH2]]; simpl.
  - split; [left|]. intros k' v' Hin. by apply elem_of_nil in Hin.
  - destruct (decide (k0 = k)) as [->|Hne].
    + split; [left|].
      intros k' v' [[= -> ->]|Hin]%elem_of_cons Hne; [done|by right].
    + split; [by right|].
      intros k' v' [[= -> ->]|Hin]%elem_of_cons Hne'; [left|].
      right. by apply IH2.
Qed.

Lemma JsMap_set_NoDup {K V} `{EqDecision K} (k : K) (v : V)
    (m : list (K * V)) :
  NoDup (map fst m) → NoDup (map fst (JsMap.set k v m)).
Proof.
  intros Hnd. rewrite JsMap_set_keys.
  destruct (decide (k ∈ map fst m)); [done|].
  apply NoDup_app. split_and!; [done| |apply NoDup_singleton].
  by intros k' Hk' ->%list_elem_of_singleton.
Qed.

Lemma NoDup_keys_unique {K V} (m : list (K * V)) (k : K) (a b : V) :
  NoDup (map fst m) → (k, a) ∈ m → (k, b) ∈ m → a = b.
Proof.
  induction m as [|[k0 v0] m IH]; simpl; intros Hnd Ha Hb.
  { by apply elem_of_nil in Ha. }
  apply NoDup_cons in Hnd as [Hk0 Hnd].
  apply elem_of_cons in Ha as [Ha|Ha]; apply elem_of_cons in Hb as [Hb|Hb];
    simplify_eq; try done.
  - destruct Hk0. by apply (list_elem_of_fmap_2 fst) in Hb.
  - destruct Hk0. by apply (list_elem_of_fmap_2 fst) in Ha.
  - by apply IH.
Qed.

(** The invariant of the loop over [processedComics]. *)
Lemma comicsBySeriesId_invariant (processedComics : list Read) :
  let m := comicsBySeriesId processedComics in
  NoDup (map fst m)
  ∧ (∀ k r, (k, r) ∈ m →
       r ∈ processedComics ∧ keyOf r = k ∧ Js.key_truthy k = true)
  ∧ (∀ c, c ∈ processedComics → Js.key_truthy (keyOf c) = true →
       ∃ r, (keyOf c, r) ∈ m ∧ Js.gt (timeOf c) (timeOf r) = false).
Proof.
  unfold comicsBySeriesId.
  induction processedComics as [|c l (Hnd & Hin & Hbest)] using rev_ind; simpl.
  { split_and!; [apply NoDup_nil; done| |]; intros ?; intros;
      by apply elem_of_nil in H. }
  rewrite foldl_snoc. set (m := foldl keepLatest [] l) in *.
  assert (∀ k r, (k, r) ∈ m →
            r ∈ l ++ [c] ∧ keyOf r = k ∧ Js.key_truthy k = true) as Hin'.
  { intros k r (? & ? & ?)%Hin. split_and!; [|done..].
    apply elem_of_app. by left. }
  unfold keepLatest.
  destruct (Js.key_truthy (keyOf c)) eqn:Hkey; simpl.
  2:{ split_and!; [done..|].
      intros c' [Hc'| ->%list_elem_of_singleton]%elem_of_app Ht;
        [by apply Hbest|congruence]. }
  assert (∀ m' : list (Js.key * Read),
            (∀ k r, (k, r) ∈ m' ↔
                   (k = keyOf c ∧ r = c) ∨ (k ≠ keyOf c ∧ (k, r) ∈ m)) →
            (∀ c', c' ∈ l → keyOf c' = keyOf c →
                   Js.gt (timeOf c') (timeOf c) = false) →
            (∀ k r, (k, r) ∈ m' →
               r ∈ l ++ [c] ∧ keyOf r = k ∧ Js.key_truthy k = true)
            ∧ (∀ c', c' ∈ l ++ [c] → Js.key_truthy (keyOf c') = true →
                 ∃ r, (keyOf c', r) ∈ m'
                      ∧ Js.gt (timeOf c') (timeOf r) = false)) as Hreplace.
  { intros m' Hm' Hlater. split.
    - intros k r [[-> ->]|[Hne Hold]]%Hm'; [|by apply Hin'].
      split_and!; [|done..]. apply elem_of_app. right. left.
    - intros c' [Hc'| ->%list_elem_of_singleton]%elem_of_app Ht.
      + destruct (decide (keyOf c' = keyOf c)) as [Hsame|Hother].
        * exists c. split; [apply Hm'; left; by split|by apply Hlater].
        * destruct (Hbest c' Hc' Ht) as (r & Hr & Hgt).
          exists r. split; [|done]. apply Hm'. right. by split.
      + exists c. split; [apply Hm'; left; by split|].
        unfold Js.gt. apply lt_irrefl. }
  assert (∀ k r, (k, r) ∈ JsMap.set (keyOf c) c m ↔
            (k = keyOf c ∧ r = c) ∨ (k ≠ keyOf c ∧ (k, r) ∈ m)) as Hset.
  { intros k r. split; [by apply JsMap_set_elem_of|].
    destruct (JsMap_set_elem_of_2 (keyOf c) c m) as [Hnew Hold].
    intros [[-> ->]|[Hne Hr]]; [done|by apply Hold]. }
  destruct (JsMap.get (keyOf c) m) as [existing|] eqn:Hget.
  - apply JsMap_get_Some in Hget.
    destruct (Js.gt (timeOf c) (timeOf existing)) eqn:Hgt.
    + split; [by apply JsMap_set_NoDup|].
      apply Hreplace; [done|].
      intros c' Hc' Hsame.
      destruct (Hbest c' Hc') as (r & Hr & Hle); [congruence|].
      rewrite Hsame in Hr.
      assert (r = existing) as ->.
      { by eapply NoDup_keys_unique. }
      by eapply gt_false_trans.
    + split_and!; [done..|].
      intros c' [Hc'| ->%list_elem_of_singleton]%elem_of_app Ht;
        [by apply Hbest|].
      by exists existing.
  - apply JsMap_get_None in Hget.
    split; [by apply JsMap_set_NoDup|].
    apply Hreplace; [done|].
    intros c' Hc' Hsame.
    destruct (Hbest c' Hc') as (r & Hr & _); [congruence|].
    destruct Hget. rewrite <- Hsame.
    by apply (list_elem_of_fmap_2 fst) in Hr.
Qed.

(** X20.  The comics display list holds one entry per series: its
    entries are reads of the snapshot with pairwise distinct, truthy
    series keys; a read without a series key is dropped; and for every
    read with a key the entry of its series is a read that it does not
    compare later than. *)
Theorem comics_list_keeps_latest_read_per_series
    (processedComics : list Read) :
  let shown := deduplicatedComics processedComics in
  NoDup (map keyOf shown)
  ∧ (∀ r, r ∈ shown → r ∈ processedComics ∧ Js.key_truthy (keyOf r) = true)
  ∧ (∀ c, c ∈ processedComics → Js.key_truthy (keyOf c) = true →
       ∃ r, r ∈ shown ∧ keyOf r = keyOf c
            ∧ Js.gt (timeOf c) (timeOf r) = false)
  ∧ (length shown ≤ length processedComics)%nat.
Proof.
  intros shown.
  destruct (comicsBySeriesId_invariant processedComics)
    as (Hnd & Hin & Hbest).
  set (m := comicsBySeriesId processedComics) in *.
  assert (shown ≡ₚ JsMap.values m) as Hperm by apply sort_Permutation.
  assert (map keyOf (JsMap.values m) = map fst m) as Hkeys.
  { unfold JsMap.values. rewrite map_map. apply map_ext_in.
    intros [k r] Hr%list_elem_of_In. simpl. by apply Hin in Hr as (_ & ? & _). }
  assert (NoDup shown) as Hshown.
  { rewrite Hperm.
    assert (NoDup (map keyOf (JsMap.values m))) as Hnd' by (by rewrite Hkeys).
    by apply (NoDup_fmap_1 keyOf). }
  split_and!.
  - rewrite Hperm, Hkeys. done.
  - intros r Hr. rewrite Hperm in Hr.
    apply list_elem_of_fmap in Hr as ([k r'] & -> & Hr). simpl.
    apply Hin in Hr as (? & -> & ?). done.
  - intros c Hc Ht. destruct (Hbest c Hc Ht) as (r & Hr & Hgt).
    exists r. split_and!; [|by apply Hin in Hr as (_ & ? & _)|done].
    rewrite Hperm. by apply (list_elem_of_fmap_2 snd) in Hr.
  - apply submseteq_length, NoDup_submseteq; [done|].
    intros r Hr. rewrite Hperm in Hr.
    apply list_elem_of_fmap in Hr as ([k r'] & -> & Hr). simpl.
    by apply Hin in Hr as (? & _).
Qed.

End ComicsSeries.

(** ** MovieList: the order of the cards *)

Section MovieCards.

Import Movies.

Variable localFullYear : Z → Z.
Variable dateParse : string → option Z.
Variable stringToNumber : string → Js.num.

Local Abbreviation aggregate :=
  (Movies.aggregate localFullYear dateParse stringToNumber).
Local Abbreviation sortedMovies := (MovieList.sortedMovies stringToNumber).

(** Sorting a list that is already in order gives the list back. *)
Lemma sort_sorted {A} (cmp : A → A → Js.num) (R : relation A) (l : list A) :
  (∀ x y, R x y → Js.positive_result (cmp x y) = false) →
  StronglySorted R l → Js.sort cmp l = l.
Proof.
  intros Hcmp. induction 1 as [|x l Hsorted IH Hx]; [done|].
  unfold Js.sort in *. simpl. rewrite IH.
  destruct l as [|y l]; [done|]. simpl.
  apply Forall_cons in Hx as [Hxy _]. by rewrite (Hcmp x y Hxy).
Qed.

Lemma StronglySorted_Forall {A} (R : relation A) (P : A → Prop)
    (l : list A) :
  StronglySorted R l → Forall P l →
  StronglySorted (λ a b, P a ∧ P b ∧ R a b) l.
Proof.
  induction 1 as [|x l Hsorted IH Hx]; intros HP; [constructor|].
  apply Forall_cons in HP as [HPx HP].
  constructor; [by apply IH|].
  rewrite Forall_forall in Hx, HP. apply Forall_forall. intros y Hy.
  split_and!; [done|by apply HP|by apply Hx].
Qed.

(** X21.  The cards of a tab of the movies view are shown in the order
    of the tab's bucket: when every record of the snapshot carries a
    numeric [date], the sort in [MovieList] leaves the bucket as it
    is. *)
Theorem movie_cards_keep_the_order_of_the_tab (currentYear now : Z)
    (movieData : list Movie) (tab : Tab) :
  Forall (λ m, ∃ n, date m = Js.DateNumber n) movieData →
  let bucket :=
    getMoviesByYear currentYear (deduplicatedMovies (aggregate now movieData))
      tab in
  sortedMovies bucket = bucket.
Proof.
  intros Hnum bucket.
  assert (bucket `sublist_of` allWatchData (aggregate now movieData)) as Hsub.
  { etrans; [apply sublist_filter|]. apply deduplicate_sublist. }
  assert (Forall HasNumericDate (allWatchData (aggregate now movieData)))
    as Hdates.
  { apply Forall_forall. intros p Hp.
    unfold Movies.aggregate in Hp. simpl in Hp. rewrite sort_Permutation in Hp.
    apply list_elem_of_fmap in Hp as (m & -> & Hm).
    rewrite Forall_forall in Hnum. by apply Hnum. }
  assert (StronglySorted NotAfter (allWatchData (aggregate now movieData)))
    as Hsorted.
  { unfold Movies.aggregate. simpl. apply sort_descending.
    apply Forall_forall. intros p (m & -> & Hm)%list_elem_of_fmap.
    rewrite Forall_forall in Hnum. by apply Hnum. }
  assert (StronglySorted
            (λ a b, HasNumericDate a ∧ HasNumericDate b ∧ NotAfter a b) bucket)
    as Hbucket.
  { eapply StronglySorted_sublist; [exact Hsub|].
    by apply StronglySorted_Forall. }
  unfold MovieList.sortedMovies. destruct bucket as [|p bucket]; [done|].
  eapply sort_sorted; [|exact Hbucket].
  intros a b ([x Ha] & [y Hb] & Hab). unfold byDateDesc, NotAfter, timestampOf in *.
  rewrite Ha, Hb in *. simpl. apply bool_decide_eq_false. lia.
Qed.

End MovieCards.

Lemma movie_cards_witness :
  let bucket :=
    Movies.getMoviesByYear 2026
      (Movies.deduplicatedMovies SampleHistory.aggregated)
      (TabYear (Js.Int 2024)) in
  MovieList.sortedMovies Sample.notANumber bucket = bucket.
Proof.
  apply (movie_cards_keep_the_order_of_the_tab utcFullYear Sample.noDate
           Sample.notANumber 2026 0 SampleHistory.events).
  repeat constructor; eexists; reflexivity.
Defined.

(** ** The poster proxy *)

Section PosterProxy.

Import Proxy.

Context {Image : Type}.

Variable PLEX_TOKEN : option string.
Variable metadataThumb : string → option (option string).
Variable fetchImage : Request → Fetched Image.

Local Abbreviation getPoster :=
  (Proxy.getPoster PLEX_TOKEN metadataThumb fetchImage).

Lemma plexToken_Some (token : string) :
  plexToken PLEX_TOKEN = Some token →
  present PLEX_TOKEN = Some token ∧ token ≠ "your_plex_token_here"%string.
Proof.
  unfold plexToken. destruct (present PLEX_TOKEN) as [t|]; [|done].
  case_decide; [done|]. by intros [= ->].
Qed.

Lemma sendPoster_spec (thumbPath : string) (log : list Request) :
  (∀ path token, PlexImage path token ∉ log) →
  let out := sendPoster PLEX_TOKEN fetchImage thumbPath log in
  (∀ path token,
     PlexImage path token ∈ out.2 →
     present PLEX_TOKEN = Some token
     ∧ token ≠ "your_plex_token_here"%string
     ∧ TautulliImage path ∈ out.2
     ∧ ¬ ∃ header image,
           fetchImage (TautulliImage path)
           = Responded true header (Some image))
  ∧ (∀ contentType image,
       out.1 = SendImage contentType image →
       ∃ request header,
         last out.2 = Some request
         ∧ fetchImage request = Responded true header (Some image)
         ∧ contentType = contentTypeOf header)
  ∧ (∀ status error,
       out.1 = SendError status error →
       status = 404 ∨ status = 500
       ∨ (status = 503 ∧ plexToken PLEX_TOKEN = None))
  ∧ (length out.2 ≤ length log + 2)%nat.
Proof.
  intros Hlog out. subst out. unfold sendPoster.
  assert (∀ path token, PlexImage path token ∉ log ++ [TautulliImage thumbPath])
    as Hlog1.
  { intros path token [?|[=]%list_elem_of_singleton]%elem_of_app.
    by eapply Hlog. }
  destruct (fetchImage (TautulliImage thumbPath))
    as [|[|] header [image|]] eqn:Htautulli.
  2:{ (* Tautulli delivers *)
      simpl. split_and!.
      - intros path token Hin. by apply Hlog1 in Hin.
      - intros ? ? [= <- <-]. exists (TautulliImage thumbPath), header.
        by rewrite last_snoc.
      - done.
      - rewrite length_app. simpl. lia. }
  all: destruct (plexToken PLEX_TOKEN) as [token|] eqn:Htoken; simpl.
  all: try (split_and!;
            [intros path tok Hin; by apply Hlog1 in Hin
            |done
            |intros ? ? [= <- <-]; auto
            |rewrite length_app; simpl; lia]).
  all: apply plexToken_Some in Htoken as [Hpresent Hne].
  all: split_and!;
    [ intros path tok [Hin|[[=]|[= <- <-]%list_elem_of_singleton]%elem_of_cons]%elem_of_app;
        [by apply Hlog in Hin|];
        split_and!; [done|done|apply elem_of_app; right; left|];
        intros (? & ? & ?); congruence
    | destruct (fetchImage (PlexImage thumbPath token))
        as [|[|] header' [image'|]] eqn:Hplex; try done;
        intros ? ? [= <- <-]; exists (PlexImage thumbPath token), header';
        split_and!; [|done..];
        by rewrite (last_snoc (log ++ [TautulliImage thumbPath])
                      (PlexImage thumbPath token)) ||
           (replace (log ++ [TautulliImage thumbPath; PlexImage thumbPath token])
              with ((log ++ [TautulliImage thumbPath])
                    ++ [PlexImage thumbPath token])
              by (by rewrite <- app_assoc);
            by rewrite last_snoc)
    | destruct (fetchImage (PlexImage thumbPath token))
        as [|[|] header' [image'|]]; intros ? ? [= <- <-]; auto
    | rewrite length_app; simpl; lia ].
Qed.

(** X22.  The poster proxy: Plex is asked only with the configured
    token (set, and not the placeholder) and only after the Tautulli
    image request for the same path did not deliver; an image that is
    sent is the body of the last request made, which was answered [ok];
    without [thumb] and [ratingKey] the answer is 404 and nothing is
    requested; an error is 404, 500 or 503, the last only when no token
    is configured; at most three requests are made. *)
Theorem poster_proxy_asks_plex_only_with_a_token
    (thumb ratingKey : option string) :
  let out := getPoster thumb ratingKey in
  (∀ path token,
     PlexImage path token ∈ out.2 →
     present PLEX_TOKEN = Some token
     ∧ token ≠ "your_plex_token_here"%string
     ∧ TautulliImage path ∈ out.2
     ∧ ¬ ∃ header image,
           fetchImage (TautulliImage path)
           = Responded true header (Some image))
  ∧ (∀ contentType image,
       out.1 = SendImage contentType image →
       ∃ request header,
         last out.2 = Some request
         ∧ fetchImage request = Responded true header (Some image)
         ∧ contentType = contentTypeOf header)
  ∧ (present thumb = None → present ratingKey = None →
     out = (SendError 404 "Poster not found", []))
  ∧ (∀ status error,
       out.1 = SendError status error →
       status = 404 ∨ status = 500
       ∨ (status = 503 ∧ plexToken PLEX_TOKEN = None))
  ∧ (length out.2 ≤ 3)%nat.
Proof.
  intros out. subst out. unfold Proxy.getPoster.
  destruct (present thumb) as [thumbPath|] eqn:Hthumb.
  { destruct (sendPoster_spec thumbPath []) as (Hplex & Himage & Herr & Hlen).
    { intros ? ? Hin. by apply elem_of_nil in Hin. }
    split_and!; [done|done|done|done|simpl in Hlen; lia]. }
  destruct (present ratingKey) as [key|] eqn:Hkey.
  2:{ split_and!; try done.
      - intros ? ? Hin. by apply elem_of_nil in Hin.
      - intros ? ? [= <- <-]. auto.
      - simpl. lia. }
  destruct (metadataThumb key) as [thumbPath|] eqn:Hmeta.
  2:{ split_and!; try done.
      - intros ? ? [=]%list_elem_of_singleton.
      - intros ? ? [= <- <-]. auto.
      - simpl. lia. }
  destruct (present thumbPath) as [path|] eqn:Hpath.
  2:{ split_and!; try done.
      - intros ? ? [=]%list_elem_of_singleton.
      - intros ? ? [= <- <-]. auto.
      - simpl. lia. }
  destruct (sendPoster_spec path [TautulliMetadata key])
    as (Hplex & Himage & Herr & Hlen).
  { intros ? ? [=]%list_elem_of_singleton. }
  split_and!; [done|done|done|done|simpl in Hlen; lia].
Qed.

End PosterProxy.

(** ** The history proxy *)

Section HistoryProxy.

Import Server History.

Variable tautulli : string → Upstream.

Local Abbreviation getHistory := (History.getHistory tautulli).

Lemma field_of_set_field (name : string) (v : json)
    (fields : list (string * json)) :
  field_of name (set_field name v fields) = Some v.
Proof.
  induction fields as [|[n old] fields IH]; simpl.
  - by rewrite decide_True.
  - destruct (decide (n = name)) as [->|Hne]; simpl.
    + by rewrite decide_True.
    + by rewrite decide_False.
Qed.

Lemma historyItems_set (items found data : json) :
  historyItems data = Some found →
  historyItems (set_historyItems items data) = Some items.
Proof.
  unfold historyItems, set_historyItems.
  destruct data as [| | | | |top]; try done. simpl.
  destruct (field_of "response" top) as [[| | | | |response]|]; try done.
  simpl.
  destruct (field_of "data" response) as [[| | | | |inner]|]; try done.
  simpl. intros _.
  rewrite field_of_set_field. simpl.
  rewrite field_of_set_field. simpl.
  by rewrite field_of_set_field.
Qed.

Lemma filterItems_spec (wanted : string) (items kept : list json) :
  filterItems wanted items = Some kept →
  kept `sublist_of` items
  ∧ (∀ item, item ∈ kept → prop "media_type" item = Some (JStr wanted))
  ∧ (∀ item, item ∈ items →
       prop "media_type" item = Some (JStr wanted) → item ∈ kept).
Proof.
  revert kept. induction items as [|item items IH]; simpl; intros kept.
  { intros [= <-]. split_and!; [done|..]; intros ? Hin;
      by apply elem_of_nil in Hin. }
  destruct (sameType wanted item) as [keep|] eqn:Hsame; [|done].
  destruct (filterItems wanted items) as [kept'|]; [|done].
  intros [= <-]. destruct (IH kept' eq_refl) as (Hsub & Hall & Hin).
  assert (keep = true ↔ prop "media_type" item = Some (JStr wanted)) as Hkeep.
  { unfold sameType in Hsame.
    destruct item; try done; injection Hsame as <-; simpl; try done.
    destruct (field_of "media_type" fields) as [[| | |s| |]|]; try done.
    rewrite bool_decide_eq_true. split; [by intros ->|by intros [= ->]]. }
  destruct keep.
  - split_and!.
    + by constructor.
    + intros x [->|Hx]%elem_of_cons; [by apply Hkeep|by apply Hall].
    + intros x [->|Hx]%elem_of_cons Ht; [left|right; by apply Hin].
  - split_and!.
    + by constructor.
    + done.
    + intros x [->|Hx]%elem_of_cons Ht; [|by apply Hin].
      apply Hkeep in Ht. done.
Qed.

(** X23.  The history proxy answers 504 exactly when the request to
    Tautulli was aborted.  When it answers with data, Tautulli answered
    [ok] with a JSON body: without a [media_type] parameter the body is
    passed on as it is (although Tautulli was asked for movies); with
    one, the items of [response.data.data] are, in their order, those of
    Tautulli's list whose [media_type] is the requested one. *)
Theorem history_is_filtered_to_the_requested_type
    (media_type : option string) :
  let asked := default "movie"%string (Proxy.present media_type) in
  ((∃ error, getHistory media_type = Error 504 error)
   ↔ tautulli asked = Aborted)
  ∧ (∀ out,
       getHistory media_type = Json out →
       ∃ data,
         tautulli asked = Answered true (Some data)
         ∧ (Proxy.present media_type = None → out = data)
         ∧ (∀ wanted items,
              Proxy.present media_type = Some wanted →
              historyItems data = Some (JArr items) →
              ∃ kept,
                historyItems out = Some (JArr kept)
                ∧ kept `sublist_of` items
                ∧ (∀ item, item ∈ kept →
                           prop "media_type" item = Some (JStr wanted))
                ∧ (∀ item, item ∈ items →
                           prop "media_type" item = Some (JStr wanted) →
                           item ∈ kept))).
Proof.
  intros asked. unfold History.getHistory. fold asked.
  destruct (tautulli asked) as [| |[|] [data|]] eqn:Hup.
  - split; [split; [done|by eexists]|done].
  - split; [split; [by intros [? [=]]|done]|done].
  - destruct (filterHistory (Proxy.present media_type) data) as [data'|]
      eqn:Hfilter.
    2:{ split; [split; [by intros [? [=]]|done]|done]. }
    split; [split; [by intros [? [=]]|done]|].
    intros out [= <-]. exists data. split; [done|].
    unfold filterHistory in Hfilter.
    assert (match historyItems data, Proxy.present media_type with
            | Some found, Some wanted =>
                if falsy (Some found) then Some data
                else match found with
                     | JArr items =>
                         match filterItems wanted items with
                         | Some kept =>
                             Some (set_historyItems (JArr kept) data)
                         | None => None
                         end
                     | _ => None
                     end
            | _, _ => Some data
            end = Some data') as Hbody by (by destruct data).
    clear Hfilter. split.
    + intros Hnone. rewrite Hnone in Hbody.
      destruct (historyItems data); congruence.
    + intros wanted items Hwanted Hitems. rewrite Hwanted, Hitems in Hbody.
      simpl in Hbody.
      destruct (filterItems wanted items) as [kept|] eqn:Hkept; [|done].
      injection Hbody as <-. exists kept. split.
      * by eapply historyItems_set.
      * by apply filterItems_spec.
  - split; [split; [by intros [? [=]]|done]|done].
  - split; [split; [by intros [? [=]]|done]|done].
  - split; [split; [by intros [? [=]]|done]|done].
Qed.

End HistoryProxy.

(** ** The fetch script: posters *)

Section ScriptPosters.

Import Proxy FetchScript.

Context {Image : Type}.

Variable PLEX_URL : option string.
Variable PLEX_TOKEN : option string.
Variable fetchImage : Request → Fetched Image.
Variable posterPath : Js.key → string.

Local Abbreviation downloadPoster :=
  (FetchScript.downloadPoster PLEX_URL PLEX_TOKEN fetchImage).
Local Abbreviation downloadBatch :=
  (FetchScript.downloadBatch PLEX_URL PLEX_TOKEN fetchImage posterPath).
Local Abbreviation downloadAll :=
  (FetchScript.downloadAll PLEX_URL PLEX_TOKEN fetchImage posterPath).

(** X24.  One call of [downloadPoster]: when the poster file exists it
    returns [true] without any request or write; it writes only when the
    file does not exist, and then the image is the body of the last
    request made, which was answered [ok]; it returns [true] exactly when
    the file existed or was written; and it asks Plex only with a
    configured URL and token, after Tautulli did not deliver a poster
    that could be written. *)
Theorem download_poster_skips_existing_files (existing writable : bool)
    (thumbPath : option string) :
  let out := downloadPoster existing writable thumbPath in
  let success := out.1.1 in
  let written := out.1.2 in
  let log := out.2 in
  (existing = true → out = (true, None, []))
  ∧ (success = true ↔ existing = true ∨ is_Some written)
  ∧ (∀ image, written = Some image →
       existing = false ∧ writable = true
       ∧ ∃ request header,
           last log = Some request
           ∧ fetchImage request = Responded true header (Some image))
  ∧ (∀ path token,
       PlexImage path token ∈ log →
       is_Some (present PLEX_URL)
       ∧ plexToken PLEX_TOKEN = Some token
       ∧ (writable = false
          ∨ ¬ ∃ header image,
                fetchImage (TautulliImage path)
                = Responded true header (Some image))).
Proof.
  intros out success written log. subst out success written log.
  unfold FetchScript.downloadPoster.
  destruct existing; simpl.
  { split_and!; [done|split; [by left|done]|done|].
    intros ? ? Hin. by apply elem_of_nil in Hin. }
  destruct (present thumbPath) as [path|]; simpl.
  2:{ split_and!; [done|split; [done|by intros [|[]]]|done|].
      intros ? ? Hin. by apply elem_of_nil in Hin. }
  assert (∀ token, plexConfigured PLEX_URL PLEX_TOKEN = Some token →
            is_Some (present PLEX_URL) ∧ plexToken PLEX_TOKEN = Some token)
    as Hconf.
  { intros token. unfold plexConfigured.
    destruct (present PLEX_URL); [by eauto|done]. }
  destruct (fetchImage (TautulliImage path)) as [|[|] header [image|]]
    eqn:Htautulli;
    destruct writable; simpl.
  all: try (destruct (plexConfigured PLEX_URL PLEX_TOKEN) as [token|]
              eqn:Htoken;
            [destruct (fetchImage (PlexImage path token))
               as [|[|] header' [image'|]] eqn:Hplex|]; simpl).
  all: split_and!;
    [ done
    | split; [first [done|intros _; right; by eexists]
             |first [done|by intros [?|[? ?]]]]
    | first [done
            |intros ? [= <-]; split_and!; [done..|];
             eexists _, _; split; [reflexivity|eassumption]]
    | intros ? ? Hin;
      repeat (apply elem_of_cons in Hin as [Hin|Hin]);
      try (by apply elem_of_nil in Hin); simplify_eq;
      destruct (Hconf _ eq_refl); split_and!; try done;
      first [by left|right; intros (? & ? & ?); congruence] ].
Qed.

End ScriptPosters.

(** ** The fetch script: the batches *)

Section ScriptBatches.

Import Proxy FetchScript.

Context {Image : Type}.

Variable PLEX_URL : option string.
Variable PLEX_TOKEN : option string.
Variable fetchImage : Request → Fetched Image.
Variable posterPath : Js.key → string.

Local Abbreviation downloadPoster :=
  (FetchScript.downloadPoster PLEX_URL PLEX_TOKEN fetchImage).
Local Abbreviation downloadBatch :=
  (FetchScript.downloadBatch PLEX_URL PLEX_TOKEN fetchImage posterPath).
Local Abbreviation downloadAll :=
  (FetchScript.downloadAll PLEX_URL PLEX_TOKEN fetchImage posterPath).

Lemma batches_prefix {A} (l : list A) (k : nat) :
  concat (map (λ i, take batchSize (drop i l))
            (map (λ j, j * batchSize)%nat (seq 0 k)))
  = take (k * batchSize) l.
Proof.
  induction k as [|k IH]; [done|].
  rewrite seq_S, !map_app, concat_app, IH. simpl.
  rewrite app_nil_r, take_take_drop. f_equal. unfold batchSize. lia.
Qed.

Lemma batchesOf_concat {A} (entries : list A) :
  concat (batchesOf entries) = entries.
Proof.
  unfold batchesOf, batchStarts. rewrite batches_prefix.
  apply take_ge. unfold batchSize.
  pose proof (Nat.div_mod (length entries + (10 - 1)) 10) as Hdiv.
  pose proof (Nat.mod_upper_bound (length entries + (10 - 1)) 10) as Hmod.
  lia.
Qed.

Lemma batchesOf_sizes {A} (entries : list A) :
  Forall (λ batch, 1 ≤ length batch ≤ batchSize)%nat (batchesOf entries).
Proof.
  unfold batchesOf, batchStarts. apply Forall_forall.
  intros batch (i & -> & (j & -> & Hj)%list_elem_of_fmap)%list_elem_of_fmap.
  apply elem_of_seq in Hj as [_ Hj].
  rewrite length_take, length_drop. unfold batchSize in *.
  pose proof (Nat.div_mod (length entries + (10 - 1)) 10) as Hdiv.
  pose proof (Nat.mod_upper_bound (length entries + (10 - 1)) 10) as Hmod.
  lia.
Qed.

Lemma downloadPoster_written (existing writable : bool)
    (thumbPath : option string) (image : Image) :
  (downloadPoster existing writable thumbPath).1.2 = Some image →
  existing = false.
Proof. unfold FetchScript.downloadPoster. by destruct existing. Qed.

Lemma recordResult_Processed (start atStart : Dir (Image := Image))
    (finished : list (Js.key * string)) (acc : Progress)
    (entry : Js.key * string) :
  (∀ path image,
     posters start !! path = Some image →
     posters atStart !! path = Some image) →
  Processed posterPath start finished acc →
  Processed posterPath start (finished ++ [entry])
    (FetchScript.recordResult PLEX_URL PLEX_TOKEN fetchImage posterPath
       atStart acc entry).
Proof.
  intros Hkept (Hcount & Herr & Hw & Hstart & Hnew).
  unfold FetchScript.recordResult.
  set (existing := bool_decide (is_Some (posters atStart !! posterPath entry.1))).
  pose proof (downloadPoster_written existing (writable atStart)
                (Some entry.2)) as Hwritten.
  destruct (downloadPoster existing (writable atStart) (Some entry.2))
    as [[success image] log].
  simpl in Hwritten.
  assert (∀ path,
            is_Some (posters (dir acc) !! path) →
            is_Some (posters start !! path)
            ∨ ∃ e, e ∈ finished ++ [entry] ∧ path = posterPath e.1) as Hnew'.
  { intros path [?|(e & He & ->)]%Hnew; [by left|right].
    exists e. split; [|done]. apply elem_of_app. by left. }
  unfold Processed. rewrite length_app. simpl. split_and!.
  - destruct success; simpl; lia.
  - destruct success; simpl; lia.
  - by destruct image.
  - intros path img Hpath. destruct image as [image|]; simpl; [|by apply Hstart].
    specialize (Hwritten image eq_refl).
    apply bool_decide_eq_false in Hwritten.
    rewrite lookup_insert_ne; [by apply Hstart|].
    intros <-. apply Hwritten. rewrite (Hkept _ _ Hpath). by eexists.
  - intros path. destruct image as [image|]; simpl; [|by apply Hnew'].
    destruct (decide (posterPath entry.1 = path)) as [<-|Hne].
    + intros _. right. exists entry. split; [|done].
      apply elem_of_app. right. left.
    + rewrite lookup_insert_ne by done. by apply Hnew'.
Qed.

Lemma downloadBatch_Processed (start : Dir (Image := Image))
    (finished batch : list (Js.key * string)) (p : Progress) :
  Processed posterPath start finished p →
  Processed posterPath start (finished ++ batch) (downloadBatch p batch).
Proof.
  intros Hp. unfold FetchScript.downloadBatch.
  assert (∀ path image,
            posters start !! path = Some image →
            posters (dir p) !! path = Some image) as Hkept
    by apply Hp.
  generalize (dir p) Hkept. intros atStart HatStart. clear Hkept.
  revert finished p Hp.
  induction batch as [|entry batch IH]; intros finished p Hp; simpl.
  { by rewrite app_nil_r. }
  replace (finished ++ entry :: batch) with ((finished ++ [entry]) ++ batch)
    by (by rewrite <- app_assoc).
  apply IH.
  by apply recordResult_Processed.
Qed.

(** X25.  The poster loop: the batches cut the entries into consecutive
    slices of 1 to 10 entries, so each entry is processed once; at the
    end [downloaded + skipped] is the number of entries and [errorCount]
    equals [skipped]; every poster file that existed before the run still
    holds the same image; and the only files created are poster files of
    entries. *)
Theorem poster_loop_processes_each_entry_once (start : Dir (Image := Image))
    (entries : list (Js.key * string)) :
  let p := downloadAll start entries in
  concat (batchesOf entries) = entries
  ∧ Forall (λ batch, 1 ≤ length batch ≤ batchSize)%nat (batchesOf entries)
  ∧ (downloaded p + skipped p = length entries)%nat
  ∧ errorCount p = skipped p
  ∧ (∀ path image,
       posters start !! path = Some image →
       posters (dir p) !! path = Some image)
  ∧ (∀ path,
       is_Some (posters (dir p) !! path) →
       is_Some (posters start !! path)
       ∨ ∃ entry, entry ∈ entries ∧ path = posterPath entry.1).
Proof.
  intros p.
  assert (∀ (batches : list (list (Js.key * string))) finished q,
            Processed posterPath start finished q →
            Processed posterPath start (finished ++ concat batches)
              (foldl downloadBatch q batches)) as Hloop.
  { induction batches as [|batch batches IH]; intros finished q Hq; simpl.
    - by rewrite app_nil_r.
    - rewrite app_assoc. apply IH. by apply downloadBatch_Processed. }
  destruct (Hloop (batchesOf entries) []
              {| dir := start; downloaded := 0; skipped := 0;
                 errorCount := 0; requests := [] |})
    as (Hcount & Herr & _ & Hstart & Hnew).
  { unfold Processed. simpl. split_and!; try done.
    intros path Hpath. by left. }
  simpl in Hcount, Hnew. rewrite batchesOf_concat in Hcount, Hnew.
  split_and!; [apply batchesOf_concat|apply batchesOf_sizes|done..].
Qed.

End ScriptBatches.

(** X26.  The posters to download: [uniqueMovies] holds each identity
    once; every entry has a truthy identity and the non-empty [thumb] of
    a record with that identity; and every record with a truthy identity
    and a non-empty [thumb] has its identity among the entries. *)
Theorem poster_entries_hold_each_identity_once
    (movies : list (Js.key * option string)) :
  let entries := FetchScript.movieEntries movies in
  NoDup (map fst entries)
  ∧ (∀ k thumb, (k, thumb) ∈ entries →
       Js.key_truthy k = true ∧ thumb ≠ EmptyString
       ∧ (k, Some thumb) ∈ movies)
  ∧ (∀ k thumb, (k, Some thumb) ∈ movies →
       Js.key_truthy k = true → thumb ≠ EmptyString →
       k ∈ map fst entries).
Proof.
  unfold FetchScript.movieEntries.
  induction movies as [|[k o] movies (Hnd & Hin & Hall)] using rev_ind; simpl.
  { split_and!; [apply NoDup_nil; done|..]; intros ? ? Hx;
      by apply elem_of_nil in Hx. }
  rewrite foldl_snoc. set (m := foldl FetchScript.recordThumb [] movies) in *.
  assert (∀ k' thumb, (k', thumb) ∈ m →
            Js.key_truthy k' = true ∧ thumb ≠ EmptyString
            ∧ (k', Some thumb) ∈ movies ++ [(k, o)]) as Hin'.
  { intros k' thumb (? & ? & ?)%Hin. split_and!; [done..|].
    apply elem_of_app. by left. }
  assert (∀ t, Proxy.present o = Some t → o = Some t ∧ t ≠ EmptyString)
    as Hpresent.
  { intros t. destruct o as [[|c s]|]; simpl; [done| |done].
    by intros [= <-]. }
  unfold FetchScript.recordThumb. simpl.
  destruct (Proxy.present o) as [t|] eqn:Ho.
  2:{ split_and!; [done..|].
      intros k' thumb [Hx|[= -> <-]%list_elem_of_singleton]%elem_of_app Ht Hne;
        [by eapply Hall|].
      destruct thumb; [done|discriminate]. }
  destruct (Hpresent t eq_refl) as [-> Hne].
  destruct (Js.key_truthy k) eqn:Hk; simpl.
  2:{ split_and!; [done..|].
      intros k' thumb [Hx|[= -> ->]%list_elem_of_singleton]%elem_of_app Ht Hne';
        [by eapply Hall|congruence]. }
  destruct (JsMap.get k m) as [old|] eqn:Hget; simpl.
  - split_and!; [done..|].
    intros k' thumb [Hx|[= -> ->]%list_elem_of_singleton]%elem_of_app Ht Hne';
      [by eapply Hall|].
    apply JsMap_get_Some in Hget. by apply (list_elem_of_fmap_2 fst) in Hget.
  - split_and!.
    + by apply JsMap_set_NoDup.
    + intros k' thumb [[-> ->]|[_ Hx]]%JsMap_set_elem_of; [|by apply Hin'|done].
      split_and!; [done..|]. apply elem_of_app. right. left.
    + intros k' thumb [Hx|[= -> ->]%list_elem_of_singleton]%elem_of_app Ht Hne';
        rewrite JsMap_set_keys.
      * destruct (decide (k ∈ map fst m)); [by eapply Hall|].
        apply elem_of_app. left. by eapply Hall.
      * destruct (decide (k ∈ map fst m)); [done|].
        apply elem_of_app. right. left.
Qed.

(** ** Movies: the tab selected after a load *)

Section MoviesActiveTab.

Import Movies MoviesStats MoviesTab.

Variable parseInt : string → Js.num.
Variable toString : Z → string.

Local Abbreviation tabAfterLoad := (MoviesTab.tabAfterLoad parseInt toString).
Local Abbreviation tabOf := (MoviesTab.tabOf parseInt).

Lemma year_bucket_nonempty (currentYear z : Z) (movies : list ProcessedMovie)
    (tab : Tab) :
  targetYear currentYear tab = Js.Int z →
  Js.Int z ∈ uniqueYears movies →
  getMoviesByYear currentYear movies tab ≠ [].
Proof.
  intros Htarget Hin Hempty.
  destruct (year_tabs_parts movies) as (_ & Hyears).
  apply Hyears in Hin as (m & Hm & Hy).
  assert (m ∈ getMoviesByYear currentYear movies tab) as Hbucket.
  { apply list_elem_of_filter. split; [|done]. rewrite Hy, Htarget. simpl.
    by apply bool_decide_eq_true. }
  rewrite Hempty in Hbucket. by apply elem_of_nil in Hbucket.
Qed.

(** X27.  The tab selected after a load has something to show: when the
    display list is not empty and all its movies have valid dates, the
    selected tab is ['ranking'], ['admin'], or a tab whose bucket is not
    empty.  (The host's [parseInt] reads back the years it printed and
    reads no number in ['ranking'], ['admin'] and ['current'].) *)
Theorem selected_tab_is_not_empty (urlTab : option string) (currentYear : Z)
    (movies : list ProcessedMovie) (activeTab : string) :
  (∀ z, Js.Int z ∈ uniqueYears movies ∨ z = currentYear →
        parseInt (toString z) = Js.Int z) →
  parseInt "ranking" = Js.NaN → parseInt "admin" = Js.NaN →
  parseInt "current" = Js.NaN →
  movies ≠ [] →
  Forall (λ m, year m ≠ Js.NaN) movies →
  let tab := tabAfterLoad urlTab currentYear (uniqueYears movies) activeTab in
  tab = "ranking"%string ∨ tab = "admin"%string
  ∨ getMoviesByYear currentYear movies (tabOf tab) ≠ [].
Proof.
  intros Hround Hranking Hadmin Hcurrent Hmovies Hvalid tab.
  destruct (year_tabs_parts movies) as (_ & Hyears).
  assert (∀ y, y ∈ uniqueYears movies → ∃ z, y = Js.Int z) as Hint.
  { intros y (m & Hm & <-)%Hyears. rewrite Forall_forall in Hvalid.
    specialize (Hvalid m Hm). destruct (year m); [done|by eexists]. }
  assert (∀ z, Js.Int z ∈ uniqueYears movies →
               getMoviesByYear currentYear movies (tabOf (toString z)) ≠ [])
    as Hyear.
  { intros z Hz. apply (year_bucket_nonempty currentYear z); [|done].
    unfold MoviesTab.tabOf. case_decide as Hname.
    - specialize (Hround z (or_introl Hz)). congruence.
    - simpl. apply Hround. by left. }
  assert (Js.Int currentYear ∈ uniqueYears movies →
          getMoviesByYear currentYear movies (tabOf "current") ≠ [])
    as Hnow.
  { intros Hz. by apply (year_bucket_nonempty currentYear currentYear). }
  assert (let byDefault :=
            if includes (Js.Int currentYear) (uniqueYears movies)
            then "current"%string
            else match uniqueYears movies with
                 | y :: _ => yearToString toString y
                 | [] => activeTab
                 end in
          getMoviesByYear currentYear movies (tabOf byDefault) ≠ [])
    as Hdefault.
  { unfold includes. case_bool_decide as Hin; simpl; [by apply Hnow|].
    destruct movies as [|m movies']; [done|].
    assert (year m ∈ uniqueYears (m :: movies')) as Hy
      by (apply Hyears; exists m; split; [left|done]).
    destruct (uniqueYears (m :: movies')) as [|y years];
      [by apply elem_of_nil in Hy|].
    destruct (Hint y) as [z ->]; [left|]. simpl. apply Hyear. left. }
  unfold tab, MoviesTab.tabAfterLoad.
  destruct (Proxy.present urlTab) as [t|]; [|by right; right].
  destruct (_ || _) eqn:Hvalid_tab; [|by right; right].
  apply orb_true_iff in Hvalid_tab as [[Hr%bool_decide_eq_true
                                       |Ha%bool_decide_eq_true]%orb_true_iff
                                      |Hinc%bool_decide_eq_true].
  - subst t. case_decide as Hcy; [|by left].
    specialize (Hround currentYear (or_intror eq_refl)). congruence.
  - subst t. case_decide as Hcy; [|by right; left].
    specialize (Hround currentYear (or_intror eq_refl)). congruence.
  - right. right. destruct (Hint _ Hinc) as [z Hz]. rewrite Hz in Hinc.
    case_decide as Hcy.
    + apply Hnow. subst t.
      rewrite (Hround currentYear (or_intror eq_refl)) in Hz.
      by injection Hz as ->.
    + apply (year_bucket_nonempty currentYear z); [|done].
      unfold MoviesTab.tabOf. case_decide as Hname; [congruence|done].
Qed.

End MoviesActiveTab.

Lemma selected_tab_witness :
  let movies := Movies.deduplicatedMovies SampleHistory.aggregated in
  let tab :=
    MoviesTab.tabAfterLoad SampleHost.parseInt SampleHost.toString
      None 2026 (MoviesStats.uniqueYears movies) "current" in
  tab = "2024"%string
  ∧ Movies.getMoviesByYear 2026 movies
      (MoviesTab.tabOf SampleHost.parseInt tab) ≠ [].
Proof.
  intros movies tab. split; [reflexivity|].
  destruct (selected_tab_is_not_empty SampleHost.parseInt SampleHost.toString
              None 2026 movies "current") as [Hr|[Ha|Hshown]].
  - intros z [Hin| ->]; [|reflexivity].
    vm_compute in Hin.
    repeat (apply elem_of_cons in Hin as [[= ->]|Hin]; [reflexivity|]).
    by apply elem_of_nil in Hin.
  - reflexivity.
  - reflexivity.
  - reflexivity.
  - discriminate.
  - repeat constructor; discriminate.
  - discriminate Hr.
  - discriminate Ha.
  - exact Hshown.
Defined.

(** ** The path of the static data *)

Lemma endsWithSlash_snoc (b : string) :
  Config.endsWithSlash (b +:+ "/") = true.
Proof.
  induction b as [|c b IH]; [done|].
  change (String c b +:+ "/")%string with (String c (b +:+ "/")).
  simpl. destruct (b +:+ "/")%string eqn:E; [|done].
  by destruct b.
Qed.

Lemma sliceLast_snoc (b : string) : Config.sliceLast (b +:+ "/") = b.
Proof.
  induction b as [|c b IH]; [done|].
  change (String c b +:+ "/")%string with (String c (b +:+ "/")).
  simpl. destruct (b +:+ "/")%string eqn:E; [by destruct b|].
  by rewrite IH.
Qed.

(** X28.  [STATIC_DATA_PATH] is the base URL followed by ["/data"], with
    exactly one slash between them: a base URL [b/] gives [b/data], as
    does the base URL [b] when it does not end in a slash; an unset or
    empty base URL gives ["/data"]. *)
Theorem static_data_path_has_one_slash (b : string) :
  Config.STATIC_DATA_PATH (Some (b +:+ "/")%string) = (b +:+ "/data")%string
  ∧ (Config.endsWithSlash b = false → b ≠ EmptyString →
     Config.STATIC_DATA_PATH (Some b) = (b +:+ "/data")%string)
  ∧ Config.STATIC_DATA_PATH None = "/data"%string
  ∧ Config.STATIC_DATA_PATH (Some EmptyString) = "/data"%string.
Proof.
  split_and!; [| |done..].
  - unfold Config.STATIC_DATA_PATH, Config.normalizedBase, Config.BASE_URL.
    assert (Js.str_or (Some (b +:+ "/")%string) "/" = (b +:+ "/")%string) as ->.
    { by destruct b. }
    destruct (decide ((b +:+ "/")%string = "/"%string)) as [Heq|Hne].
    + destruct b as [|c b]; [done|]. exfalso.
      change (String c (b +:+ "/") = "/"%string) in Heq.
      injection Heq as _ Heq. by destruct b.
    + by rewrite endsWithSlash_snoc, sliceLast_snoc.
  - intros Hslash Hne.
    unfold Config.STATIC_DATA_PATH, Config.normalizedBase, Config.BASE_URL.
    assert (Js.str_or (Some b) "/" = b) as -> by (by destruct b).
    destruct (decide (b = "/"%string)) as [->|Hne']; [done|].
    by rewrite Hslash.
Qed.

Lemma static_data_path_witness :
  Config.STATIC_DATA_PATH (Some "/media-consumption/"%string)
    = "/media-consumption/data"%string
  ∧ Config.STATIC_DATA_PATH (Some "/media-consumption"%string)
    = "/media-consumption/data"%string.
Proof.
  destruct (static_data_path_has_one_slash "/media-consumption")
    as (Hslash & Hplain & _).
  split; [exact Hslash|]. apply Hplain; [reflexivity|discriminate].
Defined.

(** ** Comics: eligibility for the top 3 *)

Section ComicsEligibility.

Variable localFullYear : Z → Z.

(** X29.  In the revision of the comics view that tracks issue release
    years, a ranked series is eligible for the top 3 of a year exactly
    when its identity is truthy and one of its read issues was both read
    and released in that year. *)
Theorem series_eligible_iff_an_issue_released_and_read
    (allReadData : list ComicsByIssue.ProcessedComic) (target : Js.num)
    (r : RankingEntry) :
  ComicsByIssue.hasEligibleIssue localFullYear allReadData target r = true
  ↔ Js.key_truthy (r_rating_key r) = true
    ∧ ∃ comic y,
        comic ∈ allReadData
        ∧ Js.key_or (ComicsByIssue.seriesId comic)
                    (ComicsByIssue.rating_key comic) = r_rating_key r
        ∧ target = Js.Int y
        ∧ ComicsByIssue.readYearOf localFullYear comic = Some (Js.Int y)
        ∧ ComicsByIssue.issueReleaseYear comic = Some (Js.Int y).
Proof.
  assert (∀ comic,
            ComicsByIssue.releasedAndReadIn localFullYear target comic = true
            ↔ ∃ y, target = Js.Int y
                   ∧ ComicsByIssue.readYearOf localFullYear comic
                     = Some (Js.Int y)
                   ∧ ComicsByIssue.issueReleaseYear comic = Some (Js.Int y))
    as Hboth.
  { intros comic. unfold ComicsByIssue.releasedAndReadIn.
    rewrite andb_true_iff.
    destruct (ComicsByIssue.readYearOf localFullYear comic) as [[|a]|],
      (ComicsByIssue.issueReleaseYear comic) as [[|b]|], target as [|t];
      simpl; rewrite ?bool_decide_eq_true;
      (split; [intros [? ?]; try done; subst; by eexists
              |intros (y & ? & ? & ?); by simplify_eq]). }
  assert (∀ k,
            k ∈ ComicsByIssue.eligibleSeries localFullYear target allReadData
            ↔ Js.key_truthy k = true
              ∧ ∃ comic, comic ∈ allReadData
                  ∧ Js.key_or (ComicsByIssue.seriesId comic)
                              (ComicsByIssue.rating_key comic) = k
                  ∧ ComicsByIssue.releasedAndReadIn localFullYear target comic
                    = true) as Hset.
  { intros k. unfold ComicsByIssue.eligibleSeries.
    induction allReadData as [|c l IH] using rev_ind; simpl.
    { split; [by intros ?%elem_of_empty|].
      intros (_ & comic & Hin & _). by apply elem_of_nil in Hin. }
    rewrite foldl_snoc. unfold ComicsByIssue.recordEligible at 1.
    set (acc := foldl _ ∅ l) in *.
    destruct (Js.key_truthy (Js.key_or _ _)) eqn:Hkey;
      [destruct (ComicsByIssue.releasedAndReadIn localFullYear target c)
         eqn:Hc|].
    - rewrite elem_of_union, elem_of_singleton, IH. split.
      + intros [->|(Ht & comic & Hin & Hk & Hr)].
        * split; [done|]. exists c. split_and!; [|done..].
          apply elem_of_app. right. left.
        * split; [done|]. exists comic. split_and!; [|done..].
          apply elem_of_app. by left.
      + intros (Ht & comic & [Hin| ->%list_elem_of_singleton]%elem_of_app
                & Hk & Hr); [right; eauto|by left].
    - rewrite IH. split.
      + intros (Ht & comic & Hin & Hk & Hr). split; [done|].
        exists comic. split_and!; [|done..]. apply elem_of_app. by left.
      + intros (Ht & comic & [Hin| ->%list_elem_of_singleton]%elem_of_app
                & Hk & Hr); [eauto|congruence].
    - rewrite IH. split.
      + intros (Ht & comic & Hin & Hk & Hr). split; [done|].
        exists comic. split_and!; [|done..]. apply elem_of_app. by left.
      + intros (Ht & comic & [Hin| ->%list_elem_of_singleton]%elem_of_app
                & Hk & Hr); [eauto|congruence]. }
  unfold ComicsByIssue.hasEligibleIssue.
  rewrite andb_true_iff, bool_decide_eq_true, Hset. split.
  - intros (Ht & _ & comic & Hin & Hk & (y & ? & ? & ?)%Hboth).
    split; [done|]. by exists comic, y.
  - intros (Ht & comic & y & Hin & Hk & ? & ? & ?). split_and!; [done..|].
    exists comic. split_and!; [done..|]. apply Hboth. by exists y.
Qed.

End ComicsEligibility.

Section ComicsReadYear.

Import Comics.

Variable localFullYear : Z → Z.

Local Abbreviation readYearOf := (Comics.readYearOf localFullYear).
Local Abbreviation recordReadYear := (Comics.recordReadYear localFullYear).
Local Abbreviation keyOf c := (Js.key_or (seriesId c) (rating_key c)).

Lemma LatestReadYear_snoc_other reads c k y :
  keyOf c ≠ k →
  LatestReadYear readYearOf reads k y →
  LatestReadYear readYearOf (reads ++ [c]) k y.
Proof.
  intros Hk [(c0 & Hin & Hk0 & Hy0) Hmax]. split.
  - exists c0. split_and!; [|done..]. apply elem_of_app. by left.
  - intros c' y' [Hin'| ->%list_elem_of_singleton]%elem_of_app Hk' Hy';
      [by eapply Hmax|done].
Qed.

Lemma readYears_lookup (reads : list ProcessedComic) (k : Js.key) :
  ValidReadYears readYearOf reads →
  match foldl recordReadYear ∅ reads !! k with
  | None => Js.key_truthy k = false ∨ ∀ c, c ∈ reads → keyOf c ≠ k
  | Some v =>
      Js.key_truthy k = true
      ∧ ∃ y, v = Js.Int y ∧ y ≠ 0 ∧ LatestReadYear readYearOf reads k y
  end.
Proof.
  induction reads as [|c reads IH] using rev_ind; intros Hvalid.
  { right. intros c Hc. by apply elem_of_nil in Hc. }
  assert (ValidReadYears readYearOf reads) as Hvalid'.
  { intros c' Hc'. apply Hvalid, elem_of_app. by left. }
  specialize (IH Hvalid').
  destruct (Hvalid c) as (yc & Hyc & Hyc0).
  { apply elem_of_app. right. by left. }
  rewrite foldl_snoc.
  set (acc := foldl recordReadYear ∅ reads) in *.
  destruct (decide (keyOf c = k)) as [Hk|Hk].
  2:{ assert (recordReadYear acc c !! k = acc !! k) as ->.
      { unfold Comics.recordReadYear.
        repeat case_match; try done; by rewrite lookup_insert_ne. }
      destruct (acc !! k) as [v|].
      - destruct IH as (Hk1 & y & -> & Hy0 & HL). split; [done|].
        exists y. split_and!; try done.
        by apply LatestReadYear_snoc_other.
      - destruct IH as [?|Hno]; [by left|]. right.
        intros c' [?| ->%list_elem_of_singleton]%elem_of_app;
          [by apply Hno|done]. }
  subst k. unfold Comics.recordReadYear.
  destruct (Js.key_truthy (keyOf c)) eqn:Htruthy.
  2:{ destruct (acc !! keyOf c) as [v|]; [|by left].
      destruct IH as [? _]. congruence. }
  rewrite Hyc.
  destruct (acc !! keyOf c) as [v|] eqn:Hacc.
  - destruct IH as (_ & y & -> & Hy0 & [(c0 & Hc0 & Hk0 & Hy0') Hmax]).
    simpl. rewrite (bool_decide_eq_false_2 (y = 0)) by done. simpl.
    case_bool_decide as Hgt.
    + rewrite lookup_insert_eq. split; [done|].
      exists yc. split_and!; try done. split.
      * exists c. split_and!; try done. apply elem_of_app. right. by left.
      * intros c' y' [Hin| ->%list_elem_of_singleton]%elem_of_app Hkey Hy'.
        -- specialize (Hmax c' y' Hin Hkey Hy'). lia.
        -- rewrite Hyc in Hy'. injection Hy' as <-. lia.
    + rewrite Hacc. split; [done|].
      exists y. split_and!; try done. split.
      * exists c0. split_and!; try done. apply elem_of_app. by left.
      * intros c' y' [Hin| ->%list_elem_of_singleton]%elem_of_app Hkey Hy'.
        -- by apply (Hmax c' y' Hin Hkey Hy').
        -- rewrite Hyc in Hy'. injection Hy' as <-. lia.
  - simpl. rewrite lookup_insert_eq. split; [done|].
    destruct IH as [?|Hno]; [congruence|].
    exists yc. split_and!; try done. split.
    + exists c. split_and!; try done. apply elem_of_app. right. by left.
    + intros c' y' [Hin| ->%list_elem_of_singleton]%elem_of_app Hkey Hy'.
      * by destruct (Hno c' Hin).
      * rewrite Hyc in Hy'. injection Hy' as <-. lia.
Qed.

(** X30.  In [ComicBooksView.jsx], when every read has a valid date in a
    year other than 0, a ranked series is eligible for the top 3 of a year
    exactly when its identity is truthy and that year is the latest year
    in which the series was read (release years play no part). *)
Theorem series_eligible_iff_latest_read_year
    (allReadData comics : list ProcessedComic) (target : Js.num)
    (r : RankingEntry) :
  ValidReadYears readYearOf (allReadData ++ comics) →
  Comics.readIn localFullYear allReadData comics target r = true
  ↔ Js.key_truthy (r_rating_key r) = true
    ∧ ∃ y, target = Js.Int y
           ∧ LatestReadYear readYearOf (allReadData ++ comics)
               (r_rating_key r) y.
Proof.
  intros Hvalid. unfold Comics.readIn, Comics.readYearsByRatingKey.
  rewrite <- foldl_app.
  pose proof (readYears_lookup (allReadData ++ comics) (r_rating_key r) Hvalid)
    as Hlook.
  destruct (foldl recordReadYear ∅ (allReadData ++ comics) !! r_rating_key r)
    as [v|].
  - destruct Hlook as (Ht & y & -> & Hy0 & HL). rewrite Ht. simpl. split.
    + destruct target as [|t]; [done|]. simpl.
      intros <-%bool_decide_eq_true. split; [done|]. by exists y.
    + intros (_ & y' & -> & [(c & Hc & Hk & Hy) Hmax']). simpl.
      apply bool_decide_eq_true.
      destruct HL as [(c0 & Hc0 & Hk0 & Hy0') Hmax].
      specialize (Hmax c y' Hc Hk Hy). specialize (Hmax' c0 y Hc0 Hk0 Hy0').
      lia.
  - rewrite andb_false_r. split; [done|].
    intros (Ht & y & -> & [(c & Hc & Hk & Hy) _]).
    destruct Hlook as [?|Hno]; [congruence|]. by destruct (Hno c Hc).
Qed.

End ComicsReadYear.

Lemma latest_read_year_witness :
  let read ts := {| Comics.seriesId := Js.KStr "S1";
                    Comics.rating_key := Js.KStr "S1";
                    Comics.watchDate := Some (Js.Instant (ts * 1000));
                    Comics.year := Js.Int (utcFullYear (ts * 1000)) |} in
  Comics.readIn utcFullYear [read 1710000000; read 1700000000]
    [read 1710000000] (Js.Int 2024) (mkRankingEntry (Js.KStr "S1") "Saga")
  = true.
Proof.
  intros read.
  apply (series_eligible_iff_latest_read_year utcFullYear
           [read 1710000000; read 1700000000] [read 1710000000]).
  - intros c Hc.
    repeat (apply elem_of_cons in Hc as [->|Hc];
            [eexists; split; [reflexivity|discriminate]|]).
    by apply elem_of_nil in Hc.
  - split; [reflexivity|]. exists 2024. split; [reflexivity|]. split.
    + exists (read 1710000000). split_and!; [left|reflexivity|reflexivity].
    + intros c y' Hc _ Hy.
      repeat (apply elem_of_cons in Hc as [->|Hc];
              [vm_compute in Hy; injection Hy as <-; lia|]).
      by apply elem_of_nil in Hc.
Defined.
